(** * Node bootstrap and cloud identity resolution (kops)

    A shallow embedding of
    - [pkg/nodeidentity/aws/identify.go]: [IdentifyNode] and [getInstance],
    - the [download-or-bust] / [validate-hash] functions of the generated
      [nodeup.sh] bootstrap script,
    together with the properties the specification states about them. *)

From Stdlib Require Import ZArith Ascii.
From stdpp Require Import base option list gmap strings.

Local Open Scope Z_scope.

(** ** The Go [strings] functions the resolver calls *)

Module GoStrings.

(** [strings.HasPrefix(s, prefix)]:
    [len(s) >= len(prefix) && s[0:len(prefix)] == prefix]. *)
Fixpoint HasPrefix (s prefix : string) {struct prefix} : bool :=
  match prefix with
  | EmptyString => true
  | String p prefix' =>
      match s with
      | EmptyString => false
      | String c s' => if Ascii.eqb c p then HasPrefix s' prefix' else false
      end
  end.

(** [s[n:]] for [n <= len(s)]. *)
Fixpoint slice_from (n : nat) (s : string) : string :=
  match n, s with
  | O, _ => s
  | S n', String _ s' => slice_from n' s'
  | S _, EmptyString => EmptyString
  end.

(** [strings.TrimPrefix(s, prefix)]: [s] without the leading [prefix];
    [s] itself when it does not start with [prefix]. *)
Definition TrimPrefix (s prefix : string) : string :=
  if HasPrefix s prefix then slice_from (String.length prefix) s else s.

(** [strings.Split(s, sep)] for a one-byte separator: the substrings between
    the occurrences of [sep]; one more piece than there are separators, so
    the empty string splits into one empty piece. *)
Fixpoint Split (s : string) (sep : ascii) : list string :=
  match s with
  | EmptyString => [EmptyString]
  | String c s' =>
      if Ascii.eqb c sep then EmptyString :: Split s' sep
      else match Split s' sep with
           | piece :: pieces => String c piece :: pieces
           | [] => [String c EmptyString]
           end
  end.

(** [strings.IndexByte(s, c) >= 0]. *)
Fixpoint ContainsByte (s : string) (c : ascii) : bool :=
  match s with
  | EmptyString => false
  | String d s' => if Ascii.eqb d c then true else ContainsByte s' c
  end.

(** [strings.Join(pieces, sep)] for a one-byte separator. *)
Fixpoint Join (pieces : list string) (sep : ascii) : string :=
  match pieces with
  | [] => EmptyString
  | [t] => t
  | t :: ts => t +:+ String sep (Join ts sep)
  end.

End GoStrings.

(** ** The AWS SDK types and helpers the resolver reads

    Pointer-typed fields of the SDK structs are [option]s ([None] is [nil]).
    The elements of the [Reservations], [Instances] and [Tags] slices are
    taken to be non-nil, as the SDK's unmarshaller produces them. *)

Module ec2.

Record InstanceState := { Name : option string }.

Record Tag := { Key : option string; Value : option string }.

Record Instance := {
  State : option InstanceState;
  InstanceLifecycle : option string;
  Tags : list Tag
}.

Record Reservation := { Instances : list Instance }.

Record DescribeInstancesInput := { InstanceIds : list string }.

Record DescribeInstancesOutput := { Reservations : list Reservation }.

(** Modelled from the spec: the SDK constant [ec2.InstanceStateNameRunning],
    whose declaration is outside the sources; the spec gives its value, the
    state name "running". *)
Definition InstanceStateNameRunning : string := "running".

End ec2.

Module awssdk.

(** [aws.StringValue(p)]: the pointed-to string, or the empty string for
    [nil]. *)
Definition StringValue (p : option string) : string := default "" p.

(** [aws.StringSlice(ss)] followed by the SDK reading the ids back. *)
Definition StringSlice (ss : list string) : list string := ss.

End awssdk.

(** Go's [time.Duration] counts nanoseconds. *)
Module time.

Definition Nanosecond : Z := 1.
Definition Microsecond : Z := 1000 * Nanosecond.
Definition Millisecond : Z := 1000 * Microsecond.
Definition Second : Z := 1000 * Millisecond.
Definition Minute : Z := 60 * Second.

End time.

(** ** identify.go: data *)

Definition CloudTagInstanceGroupName : string := "kops.k8s.io/instancegroup".

Definition ClusterAutoscalerNodeTemplateLabel : string :=
  "k8s.io/cluster-autoscaler/node-template/label/".

Definition cacheTTL : Z := 60 * time.Minute.

(** Modelled from the spec: [nodeidentity.Info], declared in a package whose
    source is not included; the spec's data model gives it as an instance id
    and a label mapping with unique keys. *)
Record Info := { InstanceID : string; Labels : gmap string string }.

(** The two fields of [corev1.Node] that [IdentifyNode] reads:
    [node.Name] and [node.Spec.ProviderID]. *)
Record Node := { NodeName : string; ProviderID : string }.

(** One constructor per [fmt.Errorf] site of identify.go, carrying the
    arguments of its format string. *)
Inductive error : Type :=
  | ErrProviderIDNotSet (nodeName : string)
      (* "providerID was not set for node %s" *)
  | ErrProviderIDNotRecognized (providerID nodeName : string)
      (* "providerID %q not recognized for node %s" *)
  | ErrDescribeInstances (cause : string)
      (* "error from ec2 DescribeInstances request: %v" *)
  | ErrMissingInstance (instanceID : string)
      (* "missing instance id: %s" *)
  | ErrMultipleInstances (instanceID : string)
      (* "found multiple instances with instance id: %s" *)
  | ErrInstanceState (instanceID instanceState : string).
      (* "found instance %q, but state is %q" *)

(** The two [klog.Warningf] sites. *)
Inductive warning : Type :=
  | WarnCacheLookup (cause : string)
      (* "Nodeidentity info cache lookup failure: %v" *)
  | WarnCacheAdd (cause : string).
      (* "Failed to add node identity info to cache: %v" *)

(** What a call does to the outside, in the order it does it. *)
Inductive event : Type :=
  | EvGetByKey (key : string)
  | EvDescribeInstances (input : ec2.DescribeInstancesInput)
  | EvAdd (obj : Info)
  | EvWarning (w : warning).

(** How a Go call ends: a value, a returned [error], or a run-time panic. *)
Inductive outcome (A : Type) : Type :=
  | Ok (a : A)
  | Err (e : error)
  | Panic.
Arguments Ok {A} a.
Arguments Err {A} e.
Arguments Panic {A}.

(** The part of the [expirationcache.Store] interface that identify.go
    calls. [GetByKey] returns Go's [(item, exists, err)]; a [None] item is
    the nil interface value. The store is a mutable object: both methods
    return its next state. *)
Class Store (S : Type) := {
  GetByKey : string → S → (option Info * bool * option string) * S;
  Add : Info → S → option string * S
}.

(** [nodeIdentifier]: the EC2 client ([ec2iface.EC2API], of which only
    [DescribeInstances] is called) and the caching switch. The [cache] field
    points to a mutable store, which lives in the [world] below. *)
Record nodeIdentifier := {
  ec2Client : ec2.DescribeInstancesInput → ec2.DescribeInstancesOutput + string;
  cacheEnabled : bool
}.

(** The mutable state around a call: the cache object and the events so
    far. *)
Record world (S : Type) := World { cache : S; trace : list event }.
Arguments World {S} cache trace.
Arguments cache {S} w.
Arguments trace {S} w.

(** State and error monad of the resolver. *)
Definition M (S A : Type) : Type := world S → outcome A * world S.

#[export] Instance M_ret {S} : MRet (M S) := λ A a w, (Ok a, w).

#[export] Instance M_bind {S} : MBind (M S) := λ A B f m w,
  match m w with
  | (Ok a, w') => f a w'
  | (Err e, w') => (Err e, w')
  | (Panic, w') => (Panic, w')
  end.

Definition fail {S A} (e : error) : M S A := λ w, (Err e, w).

Definition panic {S A} : M S A := λ w, (Panic, w).

Definition emit {S} (ev : event) : M S unit :=
  λ w, (Ok tt, World (cache w) (trace w ++ [ev])).

Definition lift {S A} (r : outcome A) : M S A := λ w, (r, w).

(** [stringKeyFunc]: the cache key of an [Info] is its instance id; never an
    error. *)
Definition stringKeyFunc (obj : Info) : string * option string :=
  let key := InstanceID obj in
  (key, None).

(** The type assertion of [obj] to a pointer to [nodeidentity.Info]: panics
    on the nil interface value. *)
Definition assertInfo {S} (obj : option Info) : M S Info :=
  match obj with
  | Some info => mret info
  | None => panic
  end.

(** Lines 96-110 of [IdentifyNode]: the instance id of the node's provider
    id. *)
Definition parseProviderID (node : Node) : outcome string :=
  let providerID := ProviderID node in
  if bool_decide (providerID = "") then
    Err (ErrProviderIDNotSet (NodeName node))
  else if negb (GoStrings.HasPrefix providerID "aws://") then
    Err (ErrProviderIDNotRecognized providerID (NodeName node))
  else
    let tokens :=
      GoStrings.Split (GoStrings.TrimPrefix providerID "aws://") "/" in
    if bool_decide (length tokens ≠ 3%nat) then
      Err (ErrProviderIDNotRecognized providerID (NodeName node))
    else
      (* zone := tokens[1] *)
      let instanceID := tokens !!! 2%nat in
      Ok instanceID.

(** Lines 130-133: the state name the check compares. *)
Definition instanceStateOf (instance : ec2.Instance) : string :=
  match ec2.State instance with
  | Some st => awssdk.StringValue (ec2.Name st)
  | None => "?"
  end.

(** [fmt.Sprintf("node-role.kubernetes.io/%s-worker", lifecycle)]. *)
Definition lifecycleLabel (lifecycle : string) : string :=
  "node-role.kubernetes.io/" +:+ lifecycle +:+ "-worker".

(** Lines 138-141: the label set before the tags are read. *)
Definition lifecycleLabels (instance : ec2.Instance) : gmap string string :=
  match ec2.InstanceLifecycle instance with
  | Some lifecycle => <[lifecycleLabel lifecycle := "true"]> ∅
  | None => ∅
  end.

(** Lines 149-151: the body of the loop over the tags. *)
Definition applyTag (labels : gmap string string) (tag : ec2.Tag)
    : gmap string string :=
  if GoStrings.HasPrefix (awssdk.StringValue (ec2.Key tag))
       ClusterAutoscalerNodeTemplateLabel
  then
    <[GoStrings.TrimPrefix (awssdk.StringValue (ec2.Key tag))
        ClusterAutoscalerNodeTemplateLabel
      := awssdk.StringValue (ec2.Value tag)]> labels
  else labels.

(** Lines 138-152: the labels of an instance. *)
Definition deriveLabels (instance : ec2.Instance) : gmap string string :=
  foldl applyTag (lifecycleLabels instance) (ec2.Tags instance).

Section Identify.
Context {S : Type} `{!Store S}.

Definition cacheGetByKey (key : string)
    : M S (option Info * bool * option string) :=
  λ w, let '(r, c) := GetByKey key (cache w) in
       (Ok r, World c (trace w ++ [EvGetByKey key])).

Definition cacheAdd (obj : Info) : M S (option string) :=
  λ w, let '(r, c) := Add obj (cache w) in
       (Ok r, World c (trace w ++ [EvAdd obj])).

Definition DescribeInstances (i : nodeIdentifier)
    (input : ec2.DescribeInstancesInput)
    : M S (ec2.DescribeInstancesOutput + string) :=
  λ w, (Ok (ec2Client i input),
        World (cache w) (trace w ++ [EvDescribeInstances input])).

Definition Warningf (msg : warning) : M S unit := emit (EvWarning msg).

(** [getInstance] queries EC2 for the instance with the specified ID,
    returning an error if not found. *)
Definition getInstance (i : nodeIdentifier) (instanceID : string)
    : M S ec2.Instance :=
  r ← DescribeInstances i
        {| ec2.InstanceIds := awssdk.StringSlice [instanceID] |};
  match r with
  | inr err => fail (ErrDescribeInstances err)
  | inl resp =>
      match ec2.Reservations resp with
      | [] => fail (ErrMissingInstance instanceID)
          (* len(resp.Reservations) <= 0 *)
      | reservation0 :: _ =>
          match ec2.Instances reservation0 with
          | [] => fail (ErrMissingInstance instanceID)
              (* len(resp.Reservations[0].Instances) <= 0 *)
          | [instance] => mret instance
              (* instance := resp.Reservations[0].Instances[0] *)
          | _ :: _ :: _ => fail (ErrMultipleInstances instanceID)
              (* len(resp.Reservations[0].Instances) > 1 *)
          end
      end
  end.

(** Lines 112-122: [Some info] when the call returns [info] from the cache,
    [None] when it goes on to the EC2 lookup. *)
Definition cacheLookup (i : nodeIdentifier) (instanceID : string)
    : M S (option Info) :=
  if cacheEnabled i then
    '(obj, exists_, err) ← cacheGetByKey instanceID;
    match err with
    | Some e => Warningf (WarnCacheLookup e)
    | None => mret tt
    end;;
    if exists_ : bool then
      info ← assertInfo obj;
      mret (Some info)
    else mret None
  else mret None.

(** Lines 124-162: the EC2 lookup, the state check, the labels and the
    cache refresh. *)
Definition identifyFromEC2 (i : nodeIdentifier) (instanceID : string)
    : M S Info :=
  instance ← getInstance i instanceID;
  let instanceState := instanceStateOf instance in
  if bool_decide (instanceState ≠ ec2.InstanceStateNameRunning) then
    fail (ErrInstanceState instanceID instanceState)
  else
    let info := {| InstanceID := instanceID;
                   Labels := deriveLabels instance |} in
    (if cacheEnabled i then
       err ← cacheAdd info;
       match err with
       | Some e => Warningf (WarnCacheAdd e)
       | None => mret tt
       end
     else mret tt);;
    mret info.

(** [IdentifyNode] queries AWS for the node identity information. *)
Definition IdentifyNode (i : nodeIdentifier) (node : Node) : M S Info :=
  instanceID ← lift (parseProviderID node);
  cached ← cacheLookup i instanceID;
  match cached with
  | Some info => mret info
  | None => identifyFromEC2 i instanceID
  end.

End Identify.

(** The events of a trace that are EC2 calls, cache reads, cache writes. *)
Definition isCloudCall (ev : event) : bool :=
  match ev with EvDescribeInstances _ => true | _ => false end.

Definition isCacheRead (ev : event) : bool :=
  match ev with EvGetByKey _ => true | _ => false end.

Definition isCacheWrite (ev : event) : bool :=
  match ev with EvAdd _ => true | _ => false end.

Definition cloudCalls (t : list event) : nat := length (filter isCloudCall t).

(** ** The TTL store *)

(** Modelled from the spec: the TTL store built by
    [expirationcache.NewTTLStore] (k8s.io/client-go, outside the sources).
    The spec's IdentityCache: an entry is an [Info] with its insertion time;
    [put] inserts or overwrites the entry under the key and restarts its
    TTL; [get] finds an entry unless it is absent or its age exceeds the
    TTL. The store reads time from its own clock. *)
Record CacheEntry := { info : Info; insertedAt : Z }.

Record TTLStore := {
  keyFunc : Info → string * option string;
  ttl : Z;
  clock : Z;
  entries : gmap string CacheEntry
}.

Definition NewTTLStore (keyFunc : Info → string * option string)
    (ttl now : Z) : TTLStore :=
  {| keyFunc := keyFunc; ttl := ttl; clock := now; entries := ∅ |}.

Definition expired (s : TTLStore) (e : CacheEntry) : bool :=
  bool_decide (clock s - insertedAt e > ttl s).

Definition ttlGet (key : string) (s : TTLStore)
    : (option Info * bool * option string) * TTLStore :=
  match entries s !! key with
  | Some e =>
      if expired s e then ((None, false, None), s)
      else ((Some (info e), true, None), s)
  | None => ((None, false, None), s)
  end.

Definition ttlPut (obj : Info) (s : TTLStore) : option string * TTLStore :=
  match keyFunc s obj with
  | (_, Some e) => (Some e, s)
  | (key, None) =>
      (None,
       {| keyFunc := keyFunc s; ttl := ttl s; clock := clock s;
          entries := <[key := {| info := obj; insertedAt := clock s |}]>
                       (entries s) |})
  end.

#[export] Instance TTLStore_Store : Store TTLStore :=
  {| GetByKey := ttlGet; Add := ttlPut |}.

(** Time passing between two calls. *)
Definition elapse (d : Z) (w : world TTLStore) : world TTLStore :=
  World {| keyFunc := keyFunc (cache w); ttl := ttl (cache w);
           clock := clock (cache w) + d; entries := entries (cache w) |}
        (trace w).

(** A store whose every operation fails, as the interface allows. *)
Record BrokenStore := { reason : string }.

#[export] Instance BrokenStore_Store : Store BrokenStore :=
  {| GetByKey := λ _ s, ((None, false, Some (reason s)), s);
     Add := λ _ s, (Some (reason s), s) |}.

(** A store whose lookups fail while they report an entry, as the interface
    allows too: [GetByKey] returns [held], [true] and an error. *)
Record FaultyStore := { held : option Info; fault : string }.

#[export] Instance FaultyStore_Store : Store FaultyStore :=
  {| GetByKey := λ _ s, ((held s, true, Some (fault s)), s);
     Add := λ _ s, (None, s) |}.

(** ** Events of the steps of a call, and small worlds to run it in *)

(** The world after the EC2 call for [instanceID]. *)
Definition described {S} (instanceID : string) (w : world S) : world S :=
  World (cache w)
        (trace w ++ [EvDescribeInstances {| ec2.InstanceIds := [instanceID] |}]).

(** The events of a cache read and of a cache write, with the warning a
    failure leaves. *)
Definition lookupEvents (key : string) (err : option string) : list event :=
  EvGetByKey key ::
  match err with Some e => [EvWarning (WarnCacheLookup e)] | None => [] end.

Definition addEvents (obj : Info) (err : option string) : list event :=
  EvAdd obj ::
  match err with Some e => [EvWarning (WarnCacheAdd e)] | None => [] end.

(** A provider id is malformed when it is empty, does not start with the
    scheme, or does not have three segments after it. *)
Definition malformed (providerID : string) : Prop :=
  providerID = "" ∨
  GoStrings.HasPrefix providerID "aws://" = false ∨
  length (GoStrings.Split (GoStrings.TrimPrefix providerID "aws://") "/")
    ≠ 3%nat.

(** Where an error of the EC2 step comes from: the EC2 client, the shape of
    its response, or the state of the instance found. *)
Definition fromEC2 (i : nodeIdentifier) (id : string) (e : error) : Prop :=
  (∃ cause, ec2Client i {| ec2.InstanceIds := [id] |} = inr cause ∧
            e = ErrDescribeInstances cause) ∨
  e = ErrMissingInstance id ∨
  e = ErrMultipleInstances id ∨
  (∃ state, state ≠ ec2.InstanceStateNameRunning ∧
            e = ErrInstanceState id state).

(** The tag key that carries a label. *)
Definition templateTag (label : string) : string :=
  ClusterAutoscalerNodeTemplateLabel +:+ label.

Definition demo_instance (state : option string) (lifecycle : option string)
    (tags : list ec2.Tag) : ec2.Instance :=
  {| ec2.State := Some {| ec2.Name := state |};
     ec2.InstanceLifecycle := lifecycle;
     ec2.Tags := tags |}.

Definition demo_running : ec2.Instance :=
  demo_instance (Some "running") (Some "spot")
    [ {| ec2.Key := Some (templateTag "foo"); ec2.Value := Some "bar" |};
      {| ec2.Key := Some "Name"; ec2.Value := Some "nodes-1" |} ].

Definition demo_stopped : ec2.Instance :=
  demo_instance (Some "stopped") None [].

Definition demo_stateless : ec2.Instance :=
  {| ec2.State := None; ec2.InstanceLifecycle := None; ec2.Tags := [] |}.

(** An EC2 client answering every request with the given reservations. *)
Definition demo_client (reservations : list (list ec2.Instance))
    (caching : bool) : nodeIdentifier :=
  {| ec2Client := λ _,
       inl {| ec2.Reservations :=
                (λ instances, {| ec2.Instances := instances |})
                  <$> reservations |};
     cacheEnabled := caching |}.

Definition demo_node : Node :=
  {| NodeName := "ip-10-0-0-1"; ProviderID := "aws:///us-test-1a/i-0abc" |}.

Definition demo_world : world TTLStore :=
  World (NewTTLStore stringKeyFunc cacheTTL 0) [].

Definition demo_broken : world BrokenStore :=
  World {| reason := "store closed" |} [].

(** ** nodeup.sh: [split-commas] and the array of urls *)

Module BootstrapArgs.

(** The characters of the default [IFS]: space, tab and newline. *)
Definition is_ifs (c : ascii) : bool :=
  match c with
  | " " | "009" | "010" => true
  | _ => false
  end%char.

(** The characters that start a pathname pattern. *)
Definition is_glob (c : ascii) : bool :=
  match c with
  | "*" | "?" | "[" => true
  | _ => false
  end%char.

Fixpoint any_char (p : ascii → bool) (s : string) : bool :=
  match s with
  | EmptyString => false
  | String c s' => p c || any_char p s'
  end.

Fixpoint all_chars (p : ascii → bool) (s : string) : bool :=
  match s with
  | EmptyString => true
  | String c s' => p c && all_chars p s'
  end.

(** Word splitting of an unquoted expansion under the default [IFS]: the
    maximal runs of characters that are not in [IFS]. *)
Fixpoint word_split (s : string) : list string :=
  match s with
  | EmptyString => []
  | String c s' =>
      if is_ifs c then word_split s'
      else
        match s' with
        | EmptyString => [String c EmptyString]
        | String d _ =>
            if is_ifs d then String c EmptyString :: word_split s'
            else
              match word_split s' with
              | word :: words => String c word :: words
              | [] => [String c EmptyString]
              end
        end
  end.

(** An argument that bash's [echo] takes as options: a dash followed by one
    or more of the letters n, e and E. *)
Definition is_echo_option (word : string) : bool :=
  match word with
  | String "-" (String c rest) =>
      all_chars (λ c, match c with "n" | "e" | "E" => true | _ => false end%char)
        (String c rest)
  | _ => false
  end.

(** [echo word ...]: the words separated by single spaces. *)
Fixpoint unwords (words : list string) : string :=
  match words with
  | [] => EmptyString
  | [word] => word
  | word :: words' => word +:+ String " " (unwords words')
  end.

(** [tr "," "\n"]. *)
Fixpoint tr_commas (s : string) : string :=
  match s with
  | EmptyString => EmptyString
  | String c s' =>
      String (if Ascii.eqb c "," then "010"%char else c) (tr_commas s')
  end.

(** [split-commas arg]: what [echo $1 | tr "," "\n"] prints. The unquoted
    [$1] is split into words, [echo] prints them with single spaces and a
    newline, [tr] turns the commas into newlines. [None] stands for the
    cases left out of the model, in which the output depends on more than
    the argument: a word with [*], [?] or a bracket undergoes pathname
    expansion against the current directory, and a first word that [echo]
    takes as an option is not printed. *)
Definition split_commas (arg : string) : option string :=
  if any_char is_glob arg then None
  else
    let words := word_split arg in
    if from_option is_echo_option false (head words) then None
    else Some (tr_commas (unwords words +:+ String "010" EmptyString)).

(** [urls=( $(split-commas "$3") )]: the output of [split-commas], split
    into words again. *)
Definition urls_array (arg : string) : option (list string) :=
  word_split <$> split_commas arg.

(** A string that can stand as one url of the list: not empty, and free of
    commas, of [IFS] characters and of pattern characters. *)
Definition plain_url (url : string) : bool :=
  negb (String.eqb url "") &&
  negb (any_char (λ c, Ascii.eqb c "," || is_ifs c || is_glob c) url).

End BootstrapArgs.

(** ** nodeup.sh: [download-or-bust] and [validate-hash] *)

Module Bootstrap.
Import BootstrapArgs.

(** What running one download command leaves behind: its exit status and the
    files. *)
Record transfer := { succeeded : bool; fs_after : gmap string string }.

(** The state of the script: the files (path to bytes), the download
    commands run so far with their url, the lines echoed, and the seconds
    slept. *)
Record shell := {
  fs : gmap string string;
  attempts : list (string * string);
  stdout : list string;
  slept : Z
}.

Definition echo (line : string) (sh : shell) : shell :=
  {| fs := fs sh; attempts := attempts sh;
     stdout := stdout sh ++ [line]; slept := slept sh |}.

Definition rm_f (file : string) (sh : shell) : shell :=
  {| fs := delete file (fs sh); attempts := attempts sh;
     stdout := stdout sh; slept := slept sh |}.

Definition sleep (seconds : Z) (sh : shell) : shell :=
  {| fs := fs sh; attempts := attempts sh;
     stdout := stdout sh; slept := slept sh + seconds |}.

(** The control characters. *)
Definition is_control (c : ascii) : bool :=
  (nat_of_ascii c <? 32)%nat || (nat_of_ascii c =? 127)%nat.

(** The script writes [${file}] without quotes in [validate-hash] and in the
    [commands] array, so the shell splits its value at blanks and expands
    the patterns in it, and [sha256sum] gets the resulting words. A plain
    word is a value that comes through as it is, and that [sha256sum] takes
    as the name of one file, not as an option or as standard input, and
    prints on a line that starts with the digest (it marks the lines of
    names it has to escape, those with a backslash or a line break): it is
    not empty, does not start with a dash, and holds no blank or other
    control character, no pattern character and no backslash. The
    destination of the script, [nodeup], is one. *)
Definition plain_word (word : string) : bool :=
  match word with
  | EmptyString => false
  | String c _ =>
      negb (Ascii.eqb c "-") &&
      negb (any_char (λ c, is_ifs c || is_control c || is_glob c
                           || Ascii.eqb c "\") word)
  end.

(** The [commands] array of the loop body. [${file}] stands between the
    quoted halves of each word, unquoted: [None] stands for the values left
    out of the model, those that are not a plain word (a blank in [file]
    splits each word in two). *)
Definition commands (file : string) : option (list string) :=
  if plain_word file then
    Some [ "curl -f --compressed -Lo " +:+ file
             +:+ " --connect-timeout 20 --retry 6 --retry-delay 10";
           "wget --compression=auto -O " +:+ file
             +:+ " --connect-timeout=20 --tries=6 --wait=10";
           "curl -f -Lo " +:+ file
             +:+ " --connect-timeout 20 --retry 6 --retry-delay 10";
           "wget -O " +:+ file
             +:+ " --connect-timeout=20 --tries=6 --wait=10" ]
  else None.

Section Fetch.

(** The digest [sha256sum] prints for a file's bytes. *)
Variable sha256 : string → string.

(** The outside world of a download: what the [n]-th command run by the
    script, [cmd] applied to [url], does to the files. *)
Variable run : nat → string → string → gmap string string → transfer.

(** [$(sha256sum ${file} | awk '{ print $1 }') || true], with [${file}]
    unquoted: for a plain word, the digest of the file of that name, and
    nothing when there is no such file. [None] stands for the values left
    out of the model, for which [sha256sum] is given other names than
    [file], options, or no name at all. *)
Definition actual_hash (file : string) (files : gmap string string)
    : option string :=
  if plain_word file then
    Some match files !! file with
         | Some bytes => sha256 bytes
         | None => ""
         end
  else None.

(** [validate-hash file expected]: exit status 0 is [true]. *)
Definition validate_hash (file expected : string) (sh : shell)
    : option (bool * shell) :=
  match actual_hash file (fs sh) with
  | None => None
  | Some actual =>
      if bool_decide (actual ≠ expected) then
        Some (false,
              echo ("== " +:+ file +:+ " corrupted, hash " +:+ actual
                    +:+ " doesn't match expected " +:+ expected +:+ " ==") sh)
      else Some (true, sh)
  end.

(** [(${cmd} "${url}")]: the command runs, and is recorded. *)
Definition run_command (cmd url : string) (sh : shell) : bool * shell :=
  let r := run (length (attempts sh)) cmd url (fs sh) in
  (succeeded r,
   {| fs := fs_after r; attempts := attempts sh ++ [(cmd, url)];
      stdout := stdout sh; slept := slept sh |}).

(** [for cmd in "${commands[@]}"]: [true] when the function returned from
    inside the loop. *)
Fixpoint try_commands (file hash url : string) (cmds : list string)
    (sh : shell) : option (bool * shell) :=
  match cmds with
  | [] => Some (false, sh)
  | cmd :: cmds' =>
      let sh := echo ("Attempting download with: " +:+ cmd +:+ " {url}") sh in
      let '(ok, sh) := run_command cmd url sh in
      if negb ok then
        let sh := echo ("== Download failed with " +:+ cmd +:+ " ==") sh in
        try_commands file hash url cmds' sh
      else
        match validate_hash file hash sh with
        | None => None
        | Some (valid, sh) =>
            if negb valid then
              let sh := echo ("== Hash validation of " +:+ url
                              +:+ " failed. Retrying. ==") sh in
              let sh := rm_f file sh in
              try_commands file hash url cmds' sh
            else
              Some (true,
                    echo ("== Downloaded " +:+ url +:+ " (SHA256 = " +:+ hash
                          +:+ ") ==") sh)
        end
  end.

(** [for url in "${urls[@]}"]; the array of commands is built anew for each
    url. *)
Fixpoint try_urls (file hash : string) (urls : list string) (sh : shell)
    : option (bool * shell) :=
  match urls with
  | [] => Some (false, sh)
  | url :: urls' =>
      match commands file with
      | None => None
      | Some cmds =>
          match try_commands file hash url cmds sh with
          | None => None
          | Some (returned, sh) =>
              if returned then Some (true, sh) else try_urls file hash urls' sh
          end
      end
  end.

(** [while true]: [fuel] bounds the number of passes over the urls. The
    result is the state in which the function returned from inside the
    loops; [None] when the loop is still running after [fuel] passes (or
    [file] is outside the model). *)
Fixpoint download_loop (fuel : nat) (file hash : string)
    (urls : list string) (sh : shell) : option shell :=
  match fuel with
  | O => None
  | S fuel' =>
      match try_urls file hash urls sh with
      | None => None
      | Some (returned, sh) =>
          if returned then Some sh
          else
            let sh :=
              echo "All downloads failed; sleeping before retrying" sh in
            let sh := sleep 60 sh in
            download_loop fuel' file hash urls sh
      end
  end.

(** [download-or-bust file hash urls], with the status it returns; [urls]
    is the array the script builds from its third argument. The two
    [return]s of the function have no operand, so each returns the status of
    the command run before it. The one inside the loops follows an [echo]:
    status 0. The one for a file that is already there and valid follows the
    test [! validate-hash ...] of the [if], which has just failed: status
    1. *)
Definition download_or_bust (fuel : nat) (file hash : string)
    (urls : list string) (sh : shell) : option (Z * shell) :=
  if bool_decide (is_Some (fs sh !! file)) then
    match validate_hash file hash sh with
    | None => None
    | Some (valid, sh) =>
        if negb valid then
          let sh := rm_f file sh in
          (λ sh, (0, sh)) <$> download_loop fuel file hash urls sh
        else Some (1, sh)
    end
  else (λ sh, (0, sh)) <$> download_loop fuel file hash urls sh.

(** What holds when the function returns from inside the loops: the last
    command run succeeded, it was one of [cmds] applied to [url], and the
    files it left pass the digest check. *)
Definition fresh (file hash : string) (cmds urls : list string)
    (sh' : shell) : Prop :=
  ∃ prev cmd url files,
    cmd ∈ cmds ∧ url ∈ urls ∧
    attempts sh' = prev ++ [(cmd, url)] ∧
    succeeded (run (length prev) cmd url files) = true ∧
    fs sh' = fs_after (run (length prev) cmd url files) ∧
    actual_hash file (fs sh') = Some hash.

End Fetch.

(** A small world to run the script in: the digest of a file is its bytes
    between brackets, the first mirror serves the bytes "junk" and the
    second the bytes "nodeup-binary", through every command. *)
Definition demo_sha256 (bytes : string) : string := "[" +:+ bytes +:+ "]".

Definition demo_u1 : string := "https://mirror-1.example.com/nodeup".

Definition demo_u2 : string := "https://mirror-2.example.com/nodeup".

Definition demo_run (n : nat) (cmd url : string)
    (files : gmap string string) : transfer :=
  if bool_decide (url = demo_u1) then
    {| succeeded := true; fs_after := <["nodeup" := "junk"]> files |}
  else if bool_decide (url = demo_u2) then
    {| succeeded := true; fs_after := <["nodeup" := "nodeup-binary"]> files |}
  else {| succeeded := false; fs_after := files |}.

Definition demo_shell : shell :=
  {| fs := ∅; attempts := []; stdout := []; slept := 0 |}.

(** The state in which the destination already holds the right bytes. *)
Definition demo_installed : shell :=
  {| fs := {[ "nodeup" := "nodeup-binary" ]}; attempts := [];
     stdout := []; slept := 0 |}.

End Bootstrap.

(** ** nodeup.sh: [download-release] *)

Module Release.












Section Release.
Variable sha256 : string → string.
Variable run : nat → string → string → gmap string string
               → Bootstrap.transfer.


End Release.






End Release.

(** ** cmd/kops/create.go: [RunCreate] *)

Module create.

(** The fields of [metav1.ObjectMeta] that [RunCreate] reads. *)
Record ObjectMeta := { Name : string; Labels : gmap string string }.

(** [m[key]] on a Go map of strings: the empty string when the key is
    absent. *)
Definition label (m : gmap string string) (key : string) : string :=
  default "" (m !! key).

(** A newline. *)
Definition nl : string := String "010" EmptyString.

(** What [kopscodecs.Decode] gives: an object of one of the three kinds
    [RunCreate] handles, or of another type. *)
Inductive object (Cluster InstanceGroup SSHCredential : Type) : Type :=
  | ObjCluster (v : Cluster)
  | ObjInstanceGroup (v : InstanceGroup)
  | ObjSSHCredential (v : SSHCredential)
  | ObjOther.
Arguments ObjCluster {Cluster InstanceGroup SSHCredential} v.
Arguments ObjInstanceGroup {Cluster InstanceGroup SSHCredential} v.
Arguments ObjSSHCredential {Cluster InstanceGroup SSHCredential} v.
Arguments ObjOther {Cluster InstanceGroup SSHCredential}.

(** What [RunCreate] uses of the packages outside the sources: the kops API
    objects with the metadata and the public key it reads, the cloud, the
    SSH credential store, the errors of the callees with
    [apierrors.IsAlreadyExists], the constant [kopsapi.LabelClusterName],
    and the two pure functions [text.SplitContentToSections] and
    [kopscodecs.Decode] (the second component of a decoded section is its
    group-version-kind as printed). *)
Record api := {
  Cluster : Type;
  InstanceGroup : Type;
  SSHCredential : Type;
  Cloud : Type;
  CredStore : Type;
  E : Type;
  ClusterMeta : Cluster → ObjectMeta;
  InstanceGroupMeta : InstanceGroup → ObjectMeta;
  SSHCredentialMeta : SSHCredential → ObjectMeta;
  PublicKey : SSHCredential → string;
  IsAlreadyExists : E → bool;
  LabelClusterName : string;
  SplitContentToSections : string → list string;
  Decode : string → (object Cluster InstanceGroup SSHCredential * string) + E
}.

(** One constructor per [return] of an error in [RunCreate]. *)
Inductive createError (E : Type) : Type :=
  | Passed (err : E)
      (* return err *)
  | ErrReadingFile (f : string) (err : E)
      (* "error reading file %q: %v" *)
  | ErrParsingFile (f : string) (err : E)
      (* "error parsing file %q: %v" *)
  | ErrPopulating (err : E)
      (* "error populating configuration: %v" *)
  | ErrClusterExists (name : string)
      (* "cluster %q already exists" *)
  | ErrCreatingCluster (err : E)
      (* "error creating cluster: %v" *)
  | ErrInstanceGroupWithoutCluster
      (* "must specify %q label with cluster name to create instanceGroup" *)
  | ErrQueryingCluster (clusterName : string) (err : E)
      (* "error querying cluster %q: %v" *)
  | ErrClusterNotFound (clusterName : string)
      (* "cluster %q not found" *)
  | ErrInstanceGroupExists (name : string)
      (* "instanceGroup %q already exists" *)
  | ErrCreatingInstanceGroup (err : E)
      (* "error creating instanceGroup: %v" *)
  | ErrSSHCredentialWithoutCluster
      (* "must specify %q label with cluster name to create SSHCredential" *)
  | ErrPublicKeyRequired
      (* "spec.PublicKey is required" *)
  | ErrUnhandledKind (gvk f : string)
      (* "Unhandled kind %q in %s" *)
  | ErrWriting (err : E).
      (* "error writing to output: %v" *)
Arguments Passed {E} err.
Arguments ErrReadingFile {E} f err.
Arguments ErrParsingFile {E} f err.
Arguments ErrPopulating {E} err.
Arguments ErrClusterExists {E} name.
Arguments ErrCreatingCluster {E} err.
Arguments ErrInstanceGroupWithoutCluster {E}.
Arguments ErrQueryingCluster {E} clusterName err.
Arguments ErrClusterNotFound {E} clusterName.
Arguments ErrInstanceGroupExists {E} name.
Arguments ErrCreatingInstanceGroup {E} err.
Arguments ErrSSHCredentialWithoutCluster {E}.
Arguments ErrPublicKeyRequired {E}.
Arguments ErrUnhandledKind {E} gvk f.
Arguments ErrWriting {E} err.

(** The calls [RunCreate] makes to the outside, in the order it makes
    them. *)
Inductive call : Type :=
  | CallClientset
  | CallConsumeStdin
  | CallReadFile (f : string)
  | CallBuildCloud
  | CallPerformAssignments
  | CallCreateCluster (name : string)
  | CallGetCluster (clusterName : string)
  | CallCreateInstanceGroup (name : string)
  | CallSSHCredentialStore
  | CallAddSSHPublicKey (key : string)
  | CallWrite (bytes : string).

(** The outside of [RunCreate]: the factory and its clientset, standard
    input ([ConsumeStdin]), the file system ([vfs.Context.ReadFile]), the
    cloud ([cloudup.BuildCloud], and [cloudup.PerformAssignments], which
    fills in the cluster it is given) and the output writer, as operations
    on a state [W]. [GetCluster] may return no cluster without an error. *)
Class Outside (K : api) (W : Type) := {
  Clientset : W → option (E K) * W;
  ConsumeStdin : W → (string + E K) * W;
  ReadFile : string → W → (string + E K) * W;
  BuildCloud : Cluster K → W → (Cloud K + E K) * W;
  PerformAssignments : Cluster K → Cloud K → W → (Cluster K + E K) * W;
  CreateCluster : Cluster K → W → option (E K) * W;
  GetCluster : string → W → (option (Cluster K) + E K) * W;
  CreateInstanceGroup : Cluster K → InstanceGroup K → W → option (E K) * W;
  SSHCredentialStore : option (Cluster K) → W → (CredStore K + E K) * W;
  AddSSHPublicKey : CredStore K → string → W → option (E K) * W;
  Write : string → W → option (E K) * W
}.

(** The outside and the calls made so far. *)
Record run (W : Type) := Run { outside : W; calls : list call }.
Arguments Run {W} outside calls.
Arguments outside {W} r.
Arguments calls {W} r.

Section RunCreate.
Context (K : api) {W : Type} `{!Outside K W}.

(** State and error monad of [RunCreate]. *)
Definition R (A : Type) : Type := run W → (A + createError (E K)) * run W.

Definition ret {A} (a : A) : R A := λ r, (inl a, r).

Definition bind {A B} (m : R A) (f : A → R B) : R B := λ r,
  match m r with
  | (inl a, r') => f a r'
  | (inr e, r') => (inr e, r')
  end.

Definition throw {A} (e : createError (E K)) : R A := λ r, (inr e, r).

(** A call to the outside, recorded. *)
Definition invoke {A} (c : call) (op : W → A * W) : R A := λ r,
  let '(a, w) := op (outside r) in
  (inl a, Run w (calls r ++ [c])).

(** [case *kopsapi.Cluster]: the buffer [sb] with the line added. *)
Definition createCluster (v : Cluster K) (sb : string) : R string :=
  bind (invoke CallBuildCloud (BuildCloud v)) (λ cloud,
  match cloud with
  | inr err => throw (Passed err)
  | inl cloud =>
      bind (invoke CallPerformAssignments (PerformAssignments v cloud))
        (λ assigned,
      match assigned with
      | inr err => throw (ErrPopulating err)
      | inl v =>
          bind (invoke (CallCreateCluster (Name (ClusterMeta K v)))
                  (CreateCluster v)) (λ err,
          match err with
          | Some err =>
              if IsAlreadyExists K err
              then throw (ErrClusterExists (Name (ClusterMeta K v)))
              else throw (ErrCreatingCluster err)
          | None =>
              ret (sb +:+ "Created cluster/" +:+ Name (ClusterMeta K v)
                   +:+ nl)
          end)
      end)
  end).

(** [case *kopsapi.InstanceGroup], after [clusterName] is set. *)
Definition createInstanceGroup (v : InstanceGroup K)
    (clusterName sb : string) : R string :=
  if bool_decide (clusterName = "") then throw ErrInstanceGroupWithoutCluster
  else
    bind (invoke (CallGetCluster clusterName) (GetCluster clusterName))
      (λ cluster,
    match cluster with
    | inr err => throw (ErrQueryingCluster clusterName err)
    | inl None => throw (ErrClusterNotFound clusterName)
    | inl (Some cluster) =>
        bind (invoke (CallCreateInstanceGroup (Name (InstanceGroupMeta K v)))
                (CreateInstanceGroup cluster v)) (λ err,
        match err with
        | Some err =>
            if IsAlreadyExists K err
            then throw (ErrInstanceGroupExists (Name (InstanceGroupMeta K v)))
            else throw (ErrCreatingInstanceGroup err)
        | None =>
            ret (sb +:+ "Created instancegroup/"
                 +:+ Name (InstanceGroupMeta K v) +:+ nl)
        end)
    end).

(** [case *kopsapi.SSHCredential], after [clusterName] is set. The cluster
    found is passed on as it is, nil included. *)
Definition createSSHCredential (v : SSHCredential K)
    (clusterName sb : string) : R string :=
  if bool_decide (clusterName = "") then throw ErrSSHCredentialWithoutCluster
  else if bool_decide (PublicKey K v = "") then throw ErrPublicKeyRequired
  else
    bind (invoke (CallGetCluster clusterName) (GetCluster clusterName))
      (λ cluster,
    match cluster with
    | inr err => throw (Passed err)
    | inl cluster =>
        bind (invoke CallSSHCredentialStore (SSHCredentialStore cluster))
          (λ sshCredentialStore,
        match sshCredentialStore with
        | inr err => throw (Passed err)
        | inl sshCredentialStore =>
            let sshKeyArr := PublicKey K v in
            bind (invoke (CallAddSSHPublicKey sshKeyArr)
                    (AddSSHPublicKey sshCredentialStore sshKeyArr)) (λ err,
            match err with
            | Some err => throw (Passed err)
            | None => ret (sb +:+ "Added ssh credential" +:+ nl)
            end)
        end)
    end).

(** The body of the loop over the sections of a file; the state of the
    loops is [clusterName] and [sb]. (The [klog] line of the default case,
    written at verbosity 2, is left out.) *)
Definition createSection (f section : string) (st : string * string)
    : R (string * string) :=
  let '(clusterName, sb) := st in
  match Decode K section with
  | inr err => throw (ErrParsingFile f err)
  | inl (o, gvk) =>
      match o with
      | ObjCluster v =>
          bind (createCluster v sb) (λ sb, ret (clusterName, sb))
      | ObjInstanceGroup v =>
          let clusterName := label (Labels (InstanceGroupMeta K v))
                               (LabelClusterName K) in
          bind (createInstanceGroup v clusterName sb)
            (λ sb, ret (clusterName, sb))
      | ObjSSHCredential v =>
          let clusterName := label (Labels (SSHCredentialMeta K v))
                               (LabelClusterName K) in
          bind (createSSHCredential v clusterName sb)
            (λ sb, ret (clusterName, sb))
      | ObjOther => throw (ErrUnhandledKind gvk f)
      end
  end.

(** [for _, section := range sections]. *)
Fixpoint createSections (f : string) (sections : list string)
    (st : string * string) : R (string * string) :=
  match sections with
  | [] => ret st
  | section :: sections' =>
      bind (createSection f section st) (createSections f sections')
  end.

(** The body of the loop over the file names. *)
Definition createFile (f : string) (st : string * string)
    : R (string * string) :=
  bind (if bool_decide (f = "-") then
          bind (invoke CallConsumeStdin ConsumeStdin) (λ contents,
          match contents with
          | inr err => throw (Passed err)
          | inl contents => ret contents
          end)
        else
          bind (invoke (CallReadFile f) (ReadFile f)) (λ contents,
          match contents with
          | inr err => throw (ErrReadingFile f err)
          | inl contents => ret contents
          end))
    (λ contents,
     let sections := SplitContentToSections K contents in
     createSections f sections st).

(** [for _, f := range c.Filenames]. *)
Fixpoint createFiles (Filenames : list string) (st : string * string)
    : R (string * string) :=
  match Filenames with
  | [] => ret st
  | f :: Filenames' => bind (createFile f st) (createFiles Filenames')
  end.

(** The advice appended to the buffer. *)
Definition advice (clusterName : string) : string :=
  nl +:+ "To deploy these resources, run: kops update cluster --name "
  +:+ clusterName +:+ " --yes" +:+ nl +:+ nl.

(** [RunCreate]; [Filenames] is [c.Filenames]. *)
Definition RunCreate (Filenames : list string) : R unit :=
  bind (invoke CallClientset Clientset) (λ err,
  match err with
  | Some err => throw (Passed err)
  | None =>
      let clusterName := "" in
      let sb := "" in
      let sb := sb +:+ nl in
      bind (createFiles Filenames (clusterName, sb)) (λ '(clusterName, sb),
      let sb := if bool_decide (sb ≠ "") then sb +:+ advice clusterName
                else sb in
      bind (invoke (CallWrite sb) (Write sb)) (λ err,
      match err with
      | Some err => throw (ErrWriting err)
      | None => ret tt
      end))
  end).

End RunCreate.

(** The line the buffer gets for a call that creates something. *)
Definition reported (c : call) : string :=
  match c with
  | CallCreateCluster name => "Created cluster/" +:+ name +:+ nl
  | CallCreateInstanceGroup name => "Created instancegroup/" +:+ name +:+ nl
  | CallAddSSHPublicKey _ => "Added ssh credential" +:+ nl
  | _ => ""
  end.

Fixpoint report (cs : list call) : string :=
  match cs with
  | [] => ""
  | c :: cs' => reported c +:+ report cs'
  end.

(** The cluster name of the last [GetCluster] call, [name] if there is
    none. *)
Fixpoint lastQueried (name : string) (cs : list call) : string :=
  match cs with
  | [] => name
  | CallGetCluster clusterName :: cs' => lastQueried clusterName cs'
  | _ :: cs' => lastQueried name cs'
  end.

Definition isWrite (c : call) : bool :=
  match c with CallWrite _ => true | _ => false end.

(** What a part of [RunCreate] that works on the buffer has done when it
    ends: it has made calls, none of them a write; when it succeeds the
    buffer has grown by the report of these calls and the cluster name is
    that of the last cluster queried; when it fails, the error is not the
    one of the final write. *)
Definition accounted {E W A} (clusterName sb : string) (r : run W)
    (res : A + createError E) (r' : run W)
    (clusterName' sb' : A → string) : Prop :=
  ∃ cs,
    calls r' = calls r ++ cs ∧
    filter isWrite cs = [] ∧
    match res with
    | inl a =>
        sb' a = sb +:+ report cs ∧ clusterName' a = lastQueried clusterName cs
    | inr e => ∀ err, e ≠ ErrWriting err
    end.

(** A small outside to run [RunCreate] in: clusters are their names,
    instance groups and SSH credentials their metadata (and key); files
    hold one object per line, written as a kind, a cluster name and a name
    separated by slashes; creating twice is the only failure. *)
Definition demo_meta (clusterName name : string) : ObjectMeta :=
  {| Name := name;
     Labels := if bool_decide (clusterName = "") then ∅
               else {[ "kops.k8s.io/cluster" := clusterName ]} |}.

Definition demo_decode (section : string)
    : (object string ObjectMeta (ObjectMeta * string) * string) + string :=
  match GoStrings.Split section "/" with
  | ["cluster"; _; name] => inl (ObjCluster name, "kops.k8s.io/v1alpha2, Kind=Cluster")
  | ["ig"; clusterName; name] =>
      inl (ObjInstanceGroup (demo_meta clusterName name),
           "kops.k8s.io/v1alpha2, Kind=InstanceGroup")
  | ["ssh"; clusterName; key] =>
      inl (ObjSSHCredential (demo_meta clusterName "admin", key),
           "kops.k8s.io/v1alpha2, Kind=SSHCredential")
  | ["keyset"; _; _] => inl (ObjOther, "kops.k8s.io/v1alpha2, Kind=Keyset")
  | _ => inr "no kind is registered"
  end.

Definition demo_api : api :=
  {| Cluster := string;
     InstanceGroup := ObjectMeta;
     SSHCredential := ObjectMeta * string;
     Cloud := unit;
     CredStore := string;
     E := string;
     ClusterMeta := demo_meta "";
     InstanceGroupMeta := λ v, v;
     SSHCredentialMeta := fst;
     PublicKey := snd;
     IsAlreadyExists := λ err, String.eqb err "already exists";
     LabelClusterName := "kops.k8s.io/cluster";
     SplitContentToSections := λ contents, GoStrings.Split contents "010";
     Decode := demo_decode |}.

Record demo_state := {
  demo_files : gmap string string;
  demo_clusters : gset string;
  demo_groups : gset (string * string);
  demo_keys : list (string * string);
  demo_out : list string
}.

Definition demo_create_cluster (v : string) (w : demo_state)
    : option string * demo_state :=
  if bool_decide (v ∈ demo_clusters w) then (Some "already exists", w)
  else (None,
        {| demo_files := demo_files w;
           demo_clusters := {[v]} ∪ demo_clusters w;
           demo_groups := demo_groups w; demo_keys := demo_keys w;
           demo_out := demo_out w |}).

Definition demo_create_group (cluster : string) (v : ObjectMeta)
    (w : demo_state) : option string * demo_state :=
  if bool_decide ((cluster, Name v) ∈ demo_groups w)
  then (Some "already exists", w)
  else (None,
        {| demo_files := demo_files w; demo_clusters := demo_clusters w;
           demo_groups := {[(cluster, Name v)]} ∪ demo_groups w;
           demo_keys := demo_keys w; demo_out := demo_out w |}).

Definition demo_add_key (store key : string) (w : demo_state)
    : option string * demo_state :=
  (None,
   {| demo_files := demo_files w; demo_clusters := demo_clusters w;
      demo_groups := demo_groups w;
      demo_keys := demo_keys w ++ [(store, key)];
      demo_out := demo_out w |}).

Definition demo_write (bytes : string) (w : demo_state)
    : option string * demo_state :=
  (None,
   {| demo_files := demo_files w; demo_clusters := demo_clusters w;
      demo_groups := demo_groups w; demo_keys := demo_keys w;
      demo_out := demo_out w ++ [bytes] |}).

Definition demo_read (f : string) (w : demo_state)
    : (string + string) * demo_state :=
  (match demo_files w !! f with
   | Some contents => inl contents
   | None => inr "no such file"
   end, w).

Definition demo_get_cluster (clusterName : string) (w : demo_state)
    : (option string + string) * demo_state :=
  (inl (if bool_decide (clusterName ∈ demo_clusters w)
        then Some clusterName else None), w).

Definition demo_store (cluster : option string) (w : demo_state)
    : (string + string) * demo_state :=
  (match cluster with
   | Some cluster => inl cluster
   | None => inr "cluster is nil"
   end, w).

#[export] Instance demo_outside : Outside demo_api demo_state :=
  Build_Outside demo_api demo_state
    (λ w, (None, w))
    (λ w, (inl "", w))
    demo_read
    (λ _ w, (inl tt, w))
    (λ v _ w, (inl v, w))
    demo_create_cluster
    demo_get_cluster
    demo_create_group
    demo_store
    demo_add_key
    demo_write.

Definition demo_start : run demo_state :=
  Run {| demo_files :=
           {[ "cluster.yaml" := "cluster//demo.example.com";
              "nodes.yaml" :=
                "ig/demo.example.com/nodes" +:+ nl
                +:+ "ssh/demo.example.com/ssh-rsa AAAA";
              "orphan.yaml" := "ig//nodes" ]};
         demo_clusters := ∅; demo_groups := ∅; demo_keys := [];
         demo_out := [] |} [].

End create.

(** ** identify.go: [New] *)

(** The two [fmt.Errorf] sites of [New]. *)
Inductive newError : Type :=
  | ErrNewSession (cause : string)
      (* "error starting new AWS session: %v" *)
  | ErrMetadataRegion (cause : string).
      (* "error querying ec2 metadata service (for region): %v" *)

(** What [New] asks of the AWS SDK: a session ([session.NewSession]), the
    region of the instance it runs on ([ec2metadata] [Region]) and the EC2
    client of a region ([ec2.New]); sessions are left abstract. *)
Record awsEnv (Session : Type) := {
  NewSession : Session + string;
  Region : Session → string + string;
  ec2New : Session → string →
           ec2.DescribeInstancesInput → ec2.DescribeInstancesOutput + string
}.
Arguments NewSession {Session} _.
Arguments Region {Session} _ _.
Arguments ec2New {Session} _ _ _ _.

(** [New] creates a [nodeIdentifier] for nodes running on AWS; [now] is the
    time at which the cache is created. The cache it points to comes
    second. *)
Definition New {Session} (env : awsEnv Session) (now : Z)
    (CacheNodeidentityInfo : bool) : (nodeIdentifier * TTLStore) + newError :=
  match NewSession env with
  | inr err => inr (ErrNewSession err)
  | inl s =>
      match Region env s with
      | inr err => inr (ErrMetadataRegion err)
      | inl region =>
          let ec2Client := ec2New env s region in
          inl ({| ec2Client := ec2Client;
                  cacheEnabled := CacheNodeidentityInfo |},
               NewTTLStore stringKeyFunc cacheTTL now)
      end
  end.

(** An AWS environment in which everything works and one running instance
    exists. *)
Definition demo_env : awsEnv unit :=
  {| NewSession := inl tt;
     Region := λ _, inl "us-test-1";
     ec2New := λ _ _, ec2Client (demo_client [[demo_running]] true) |}.

(** * Properties *)

(** ** Go strings *)

Module GoStringsFacts.
Import GoStrings.

Lemma HasPrefix_app p s : HasPrefix (p +:+ s) p = true.
Proof.
  induction p as [|c p IH]; [done|].
  change (String c p +:+ s) with (String c (p +:+ s)).
  simpl. by rewrite Ascii.eqb_refl.
Qed.

Lemma slice_from_app p s : slice_from (String.length p) (p +:+ s) = s.
Proof. induction p as [|c p IH]; [by destruct s|]. exact IH. Qed.

Lemma TrimPrefix_app p s : TrimPrefix (p +:+ s) p = s.
Proof. unfold TrimPrefix. by rewrite HasPrefix_app, slice_from_app. Qed.

Lemma HasPrefix_inv s p :
  HasPrefix s p = true → s = p +:+ TrimPrefix s p.
Proof.
  unfold TrimPrefix. intros Hp. rewrite Hp.
  revert s Hp. induction p as [|c p IH]; intros s Hp.
  - by destruct s.
  - destruct s as [|d s]; [done|]. simpl in Hp.
    destruct (Ascii.eqb d c) eqn:Hdc; [|done].
    apply Ascii.eqb_eq in Hdc as ->.
    change (String c p +:+ ?x) with (String c (p +:+ x)).
    f_equal. by apply IH.
Qed.

Lemma Split_nonempty s sep : Split s sep ≠ [].
Proof.
  induction s as [|c s IH]; [done|]. simpl.
  destruct (Ascii.eqb c sep); [done|]. by destruct (Split s sep).
Qed.

(** A piece without separator, followed by a separator, is the first piece. *)
Lemma Split_piece a rest sep :
  ContainsByte a sep = false →
  Split (a +:+ String sep rest) sep = a :: Split rest sep.
Proof.
  induction a as [|c a IH]; intros Ha.
  - change (EmptyString +:+ ?x) with x. simpl. by rewrite Ascii.eqb_refl.
  - simpl in Ha. destruct (Ascii.eqb c sep) eqn:Hc; [done|].
    change (String c a +:+ ?x) with (String c (a +:+ x)).
    simpl. rewrite Hc. by rewrite IH.
Qed.

(** A string without separator is its own single piece. *)
Lemma Split_last a sep : ContainsByte a sep = false → Split a sep = [a].
Proof.
  induction a as [|c a IH]; intros Ha; [done|].
  simpl in Ha. simpl. destruct (Ascii.eqb c sep); [done|]. by rewrite IH.
Qed.

(** The pieces of a split never contain the separator. *)
Lemma Split_pieces_free s sep :
  Forall (λ t, ContainsByte t sep = false) (Split s sep).
Proof.
  induction s as [|c s IH]; simpl.
  - by constructor.
  - destruct (Ascii.eqb c sep) eqn:Hc.
    + by constructor.
    + destruct (Split s sep) as [|t ts].
      * constructor; [|done]. simpl. by rewrite Hc.
      * inversion IH; subst. constructor; [|done]. simpl. by rewrite Hc.
Qed.

Lemma Join_Split s sep : Join (Split s sep) sep = s.
Proof.
  induction s as [|c s IH]; [done|]. simpl.
  destruct (Ascii.eqb c sep) eqn:Hc.
  - apply Ascii.eqb_eq in Hc as ->.
    pose proof (Split_nonempty s sep) as Hne.
    simpl. destruct (Split s sep) as [|t ts]; [done|]. by rewrite <- IH.
  - pose proof (Split_nonempty s sep) as Hne.
    destruct (Split s sep) as [|t ts]; [done|].
    rewrite <- IH. simpl. by destruct ts.
Qed.

(** Three pieces without separator split back into themselves. *)
Lemma Split_three a b c sep :
  ContainsByte a sep = false →
  ContainsByte b sep = false →
  ContainsByte c sep = false →
  Split (a +:+ String sep (b +:+ String sep c)) sep = [a; b; c].
Proof.
  intros Ha Hb Hc.
  by rewrite (Split_piece a), (Split_piece b), (Split_last c).
Qed.

End GoStringsFacts.

(** ** The steps of [IdentifyNode] *)

Section ParseFacts.
Import GoStrings GoStringsFacts.

(** The provider id made of the scheme and three segments. *)
Lemma parse_three_segments name a zone id :
  ContainsByte a "/" = false →
  ContainsByte zone "/" = false →
  ContainsByte id "/" = false →
  parseProviderID
    {| NodeName := name;
       ProviderID := "aws://" +:+ a +:+ "/" +:+ zone +:+ "/" +:+ id |}
  = Ok id.
Proof.
  intros Ha Hz Hi. unfold parseProviderID. cbn [ProviderID NodeName].
  rewrite bool_decide_eq_false_2 by done.
  rewrite HasPrefix_app. cbn [negb]. rewrite TrimPrefix_app.
  change (a +:+ "/" +:+ zone +:+ "/" +:+ id)
    with (a +:+ String "/" (zone +:+ String "/" id)).
  rewrite Split_three by done.
  reflexivity.
Qed.

(** Whatever parses has the scheme and three segments, the last of which is
    the instance id. *)
Lemma parse_Ok_inv node id :
  parseProviderID node = Ok id →
  ∃ a zone,
    ProviderID node = "aws://" +:+ a +:+ "/" +:+ zone +:+ "/" +:+ id ∧
    ContainsByte a "/" = false ∧
    ContainsByte zone "/" = false ∧
    ContainsByte id "/" = false.
Proof.
  unfold parseProviderID. case_bool_decide as Hempty; [done|].
  destruct (HasPrefix _ _) eqn:Hscheme; [|done]. cbn [negb].
  case_bool_decide as Hlen; [done|].
  pose proof (Join_Split (TrimPrefix (ProviderID node) "aws://") "/") as Hjoin.
  pose proof (Split_pieces_free (TrimPrefix (ProviderID node) "aws://") "/")
    as Hfree.
  destruct (Split _ _) as [|a [|zone [|id' [|? ?]]]]; try done.
  intros [= <-]. exists a, zone.
  inversion Hfree as [|?? Ha Hfree']; subst.
  inversion Hfree' as [|?? Hz Hfree'']; subst.
  inversion Hfree'' as [|?? Hi _]; subst.
  split; [|done].
  rewrite (HasPrefix_inv _ _ Hscheme) at 1. by rewrite <- Hjoin.
Qed.

(** A malformed provider id does not parse. *)
Lemma parse_malformed node :
  malformed (ProviderID node) → ∃ e, parseProviderID node = Err e.
Proof.
  unfold malformed, parseProviderID. intros [Hempty|[Hscheme|Hlen]].
  - rewrite bool_decide_eq_true_2 by done. eauto.
  - case_bool_decide; [eauto|]. rewrite Hscheme. eauto.
  - case_bool_decide; [eauto|].
    destruct (HasPrefix _ _); cbn [negb]; [|eauto].
    rewrite bool_decide_eq_true_2 by done. eauto.
Qed.

(** Parsing never panics. *)
Lemma parse_no_panic node : parseProviderID node ≠ Panic.
Proof.
  unfold parseProviderID.
  repeat (case_bool_decide || destruct (HasPrefix _ _)); done.
Qed.

End ParseFacts.

(** Unfolds the operations of the monad [M] in the goal. *)
Ltac run_M :=
  unfold Warningf, emit, fail, panic, lift, assertInfo,
    mret, M_ret, mbind, M_bind; cbn.

Section IdentifyFacts.
Context {S : Type} `{!Store S}.
Implicit Types (i : nodeIdentifier) (node : Node) (w : world S).

(** Unfolding the monad at one bind. *)
Lemma bind_run {A B} (m : M S A) (f : A → M S B) w :
  (m ≫= f) w =
  match m w with
  | (Ok a, w') => f a w'
  | (Err e, w') => (Err e, w')
  | (Panic, w') => (Panic, w')
  end.
Proof. reflexivity. Qed.

(** [getInstance] makes exactly one EC2 call, whatever it returns. *)
Lemma getInstance_world i id w :
  (getInstance i id w).2 = described id w.
Proof.
  unfold getInstance. rewrite bind_run. cbn.
  destruct (ec2Client i _) as [resp|err]; [|done].
  destruct (ec2.Reservations resp) as [|r0 rs]; [done|].
  by destruct (ec2.Instances r0) as [|inst [|? ?]].
Qed.

(** It returns an instance exactly when the first reservation of the
    response holds exactly one. *)
Lemma getInstance_Ok i id w inst w' :
  getInstance i id w = (Ok inst, w') ↔
  w' = described id w ∧
  ∃ resp r0 rs,
    ec2Client i {| ec2.InstanceIds := [id] |} = inl resp ∧
    ec2.Reservations resp = r0 :: rs ∧
    ec2.Instances r0 = [inst].
Proof.
  pose proof (getInstance_world i id w) as Hw. revert Hw.
  unfold getInstance. rewrite bind_run. cbn.
  destruct (ec2Client i _) as [resp|err]; cbn.
  - destruct (ec2.Reservations resp) as [|r0 rs] eqn:Hres; cbn.
    + intros _. split; [done|]. intros (_ & ? & ? & ? & [= <-] & ? & _).
      congruence.
    + destruct (ec2.Instances r0) as [|inst0 [|? ?]] eqn:Hinst; cbn.
      * intros _. split; [done|]. intros (_ & ? & ? & ? & [= <-] & ? & ?).
        congruence.
      * intros Hw. split.
        -- intros [= <- <-]. split; [done|]. by exists resp, r0, rs.
        -- intros (-> & ? & ? & ? & [= <-] & ? & ?).
           unfold mret, M_ret. repeat f_equal; congruence.
      * intros _. split; [done|]. intros (_ & ? & ? & ? & [= <-] & ? & ?).
        congruence.
  - intros _. split; [done|]. by intros (_ & ? & ? & ? & ? & _).
Qed.

(** It never panics, and its errors come from the EC2 response. *)
Lemma getInstance_Err i id w r w' :
  getInstance i id w = (r, w') →
  match r with
  | Ok _ => True
  | Err e =>
      (∃ cause, ec2Client i {| ec2.InstanceIds := [id] |} = inr cause ∧
                e = ErrDescribeInstances cause) ∨
      e = ErrMissingInstance id ∨
      e = ErrMultipleInstances id
  | Panic => False
  end.
Proof.
  unfold getInstance. rewrite bind_run. cbn.
  destruct (ec2Client i _) as [resp|err]; cbn.
  - destruct (ec2.Reservations resp) as [|r0 rs]; cbn.
    + intros [= <- <-]. auto.
    + destruct (ec2.Instances r0) as [|inst0 [|? ?]]; cbn;
        intros [= <- <-]; auto.
  - intros [= <- <-]. eauto.
Qed.

(** A provider id that does not parse ends the call at once. *)
Lemma IdentifyNode_parse_Err i node w e :
  parseProviderID node = Err e → IdentifyNode i node w = (Err e, w).
Proof. intros He. unfold IdentifyNode, lift. rewrite bind_run. by rewrite He. Qed.

(** After parsing, the call is the cache step followed by the EC2 step. *)
Lemma IdentifyNode_parse_Ok i node w id :
  parseProviderID node = Ok id →
  IdentifyNode i node w =
  match cacheLookup i id w with
  | (Ok (Some info), w1) => (Ok info, w1)
  | (Ok None, w1) => identifyFromEC2 i id w1
  | (Err e, w1) => (Err e, w1)
  | (Panic, w1) => (Panic, w1)
  end.
Proof.
  intros Hid. unfold IdentifyNode, lift. rewrite bind_run, Hid.
  rewrite bind_run. by destruct (cacheLookup i id w) as [[[info|]| |] w1].
Qed.

(** The cache step, case by case. *)
Lemma cacheLookup_disabled i id w :
  cacheEnabled i = false → cacheLookup i id w = (Ok None, w).
Proof. unfold cacheLookup. by intros ->. Qed.

Lemma cacheLookup_enabled i id w obj exists_ err c :
  cacheEnabled i = true →
  GetByKey id (cache w) = ((obj, exists_, err), c) →
  cacheLookup i id w =
  let w1 := World c (trace w ++ lookupEvents id err) in
  if exists_ then
    match obj with
    | Some info => (Ok (Some info), w1)
    | None => (Panic, w1)
    end
  else (Ok None, w1).
Proof.
  intros Hon Hget. unfold cacheLookup. rewrite Hon.
  rewrite bind_run. unfold cacheGetByKey. rewrite Hget. cbn.
  destruct err as [e|], exists_, obj; run_M; by rewrite <- ?(assoc_L (++)).
Qed.

(** The cache step never returns an error and never writes. *)
Lemma cacheLookup_inv i id w r w1 :
  cacheLookup i id w = (r, w1) →
  (∀ e, r ≠ Err e) ∧
  ∃ evs, trace w1 = trace w ++ evs ∧
         filter isCacheWrite evs = [] ∧ filter isCloudCall evs = [].
Proof.
  destruct (cacheEnabled i) eqn:Hon.
  - destruct (GetByKey id (cache w)) as [[[obj ex] err] c] eqn:Hget.
    rewrite (cacheLookup_enabled _ _ _ _ _ _ _ Hon Hget). cbn.
    intros Hr. split.
    + intros e ->. destruct ex; [destruct obj|]; done.
    + exists (lookupEvents id err).
      split; [|by destruct err].
      destruct ex; [destruct obj|]; by injection Hr as <- <-.
  - rewrite cacheLookup_disabled by done. intros [= <- <-].
    split; [done|]. exists []. by rewrite app_nil_r.
Qed.

(** The EC2 step, case by case. *)
Lemma identifyFromEC2_getInstance_Err i id w e w1 :
  getInstance i id w = (Err e, w1) → identifyFromEC2 i id w = (Err e, w1).
Proof. intros Hget. unfold identifyFromEC2. rewrite bind_run. by rewrite Hget. Qed.

Lemma identifyFromEC2_state i id w inst w1 :
  getInstance i id w = (Ok inst, w1) →
  instanceStateOf inst ≠ ec2.InstanceStateNameRunning →
  identifyFromEC2 i id w =
  (Err (ErrInstanceState id (instanceStateOf inst)), w1).
Proof.
  intros Hget Hstate. unfold identifyFromEC2. rewrite bind_run, Hget.
  cbn zeta. by rewrite bool_decide_eq_true_2.
Qed.

Lemma identifyFromEC2_running i id w inst w1 :
  getInstance i id w = (Ok inst, w1) →
  instanceStateOf inst = ec2.InstanceStateNameRunning →
  identifyFromEC2 i id w =
  let info := {| InstanceID := id; Labels := deriveLabels inst |} in
  if cacheEnabled i then
    (Ok info,
     World (Add info (cache w1)).2
           (trace w1 ++ addEvents info (Add info (cache w1)).1))
  else (Ok info, w1).
Proof.
  intros Hget Hstate. unfold identifyFromEC2. rewrite bind_run, Hget.
  cbn zeta. rewrite bool_decide_eq_false_2 by (by intros ?).
  destruct (cacheEnabled i); [|done].
  rewrite !bind_run. unfold cacheAdd.
  destruct (Add _ (cache w1)) as [[e|] c]; run_M; by rewrite <- ?(assoc_L (++)).
Qed.

End IdentifyFacts.

Section IdentifyCases.
Context {S : Type} `{!Store S}.
Implicit Types (i : nodeIdentifier) (node : Node) (w : world S).

(** The EC2 step either fails right after the EC2 call, or resolves a
    running instance and then refreshes the cache. *)
Lemma identifyFromEC2_cases i id w :
  (∃ e, identifyFromEC2 i id w = (Err e, described id w) ∧ fromEC2 i id e) ∨
  (∃ inst,
     getInstance i id w = (Ok inst, described id w) ∧
     instanceStateOf inst = ec2.InstanceStateNameRunning ∧
     identifyFromEC2 i id w =
     let info := {| InstanceID := id; Labels := deriveLabels inst |} in
     let w1 := described id w in
     if cacheEnabled i then
       (Ok info,
        World (Add info (cache w1)).2
              (trace w1 ++ addEvents info (Add info (cache w1)).1))
     else (Ok info, w1)).
Proof.
  pose proof (getInstance_world i id w) as Hw.
  destruct (getInstance i id w) as [r w1] eqn:Hget. cbn in Hw. subst w1.
  pose proof (getInstance_Err _ _ _ _ _ Hget) as Hr.
  destruct r as [inst|e|]; [|left|done].
  - destruct (decide (instanceStateOf inst = ec2.InstanceStateNameRunning))
      as [Hrun|Hrun].
    + right. exists inst. split_and!; [done..|].
      by apply identifyFromEC2_running.
    + left. eexists. split; [by apply identifyFromEC2_state|].
      unfold fromEC2. eauto 10.
  - exists e. split; [by apply identifyFromEC2_getInstance_Err|].
    unfold fromEC2. destruct Hr as [?|[?|?]]; eauto.
Qed.

(** The events of the EC2 step: one EC2 call, then at most the cache
    refresh, which happens only on success and stores what is returned. *)
Lemma identifyFromEC2_events i id w r w' :
  identifyFromEC2 i id w = (r, w') →
  ∃ evs,
    trace w' =
      trace w ++ EvDescribeInstances {| ec2.InstanceIds := [id] |} :: evs ∧
    filter isCloudCall evs = [] ∧
    match r with
    | Ok info =>
        filter isCacheWrite evs = if cacheEnabled i then [EvAdd info] else []
    | Err e => evs = [] ∧ fromEC2 i id e
    | Panic => False
    end.
Proof.
  intros Hrun.
  destruct (identifyFromEC2_cases i id w)
    as [(e & He & Hfrom)|(inst & _ & _ & Hok)].
  - rewrite He in Hrun. injection Hrun as <- <-. by exists [].
  - rewrite Hok in Hrun. cbn zeta in Hrun.
    destruct (cacheEnabled i); injection Hrun as <- <-.
    + eexists. split; [cbn; by rewrite <- (assoc_L (++))|].
      by destruct (Add _ _).1.
    + by exists [].
Qed.

(** A call that does not return an [Info] has written nothing to the cache;
    one that does has written at most that [Info]. Its errors are those of
    the parsing or of the EC2 step. *)
Lemma IdentifyNode_events i node w r w' :
  IdentifyNode i node w = (r, w') →
  ∃ evs,
    trace w' = trace w ++ evs ∧
    match r with
    | Ok info =>
        filter isCacheWrite evs = [] ∨ filter isCacheWrite evs = [EvAdd info]
    | Err e =>
        filter isCacheWrite evs = [] ∧
        (parseProviderID node = Err e ∨
         ∃ id, parseProviderID node = Ok id ∧ fromEC2 i id e)
    | Panic => filter isCacheWrite evs = []
    end.
Proof.
  destruct (parseProviderID node) as [id|e|] eqn:Hparse.
  - rewrite (IdentifyNode_parse_Ok _ _ _ _ Hparse).
    destruct (cacheLookup i id w) as [r1 w1] eqn:Hlookup.
    destruct (cacheLookup_inv _ _ _ _ _ Hlookup)
      as (Hnoerr & evs1 & Ht1 & Hw1 & _).
    destruct r1 as [[info|]|e|]; [| |by destruct (Hnoerr e)|].
    + intros [= <- <-]. exists evs1. auto.
    + intros Hec2.
      destruct (identifyFromEC2_events _ _ _ _ _ Hec2) as (evs & Ht & _ & Hr).
      exists (evs1 ++ EvDescribeInstances {| ec2.InstanceIds := [id] |} :: evs).
      split; [by rewrite Ht, Ht1, <- (assoc_L (++))|].
      rewrite filter_app, Hw1, filter_cons. cbn.
      destruct r as [info|e|]; [|destruct Hr as [-> ?]; eauto|done].
      rewrite Hr. destruct (cacheEnabled i); auto.
    + intros [= <- <-]. exists evs1. auto.
  - rewrite (IdentifyNode_parse_Err _ _ _ _ Hparse). intros [= <- <-].
    exists []. rewrite app_nil_r. auto.
  - by destruct (parse_no_panic node).
Qed.

End IdentifyCases.

(** ** Provider ids *)

(** C1, as stated, fails: a provider id of the literal form
    scheme://zone/id has two segments after the scheme and is rejected; the
    instance id is not extracted. *)
Lemma C1_two_segment_id_rejected :
  let node := {| NodeName := "ip-10-0-0-1";
                 ProviderID := "aws" +:+ "://" +:+ "us-test-1a" +:+ "/"
                               +:+ "i-0abc" |} in
  parseProviderID node ≠ Ok "i-0abc" ∧
  IdentifyNode (demo_client [[demo_running]] true) node demo_world =
  (Err (ErrProviderIDNotRecognized "aws://us-test-1a/i-0abc" "ip-10-0-0-1"),
   demo_world).
Proof. split; [discriminate|reflexivity]. Qed.

(** C1 (amended): for every provider id made of the scheme aws:// and
    exactly three slash-separated segments, parsing yields exactly the third
    segment as the instance id; for every malformed provider id (empty,
    wrong scheme, or a number of segments other than 3), [IdentifyNode]
    returns an error immediately, leaving the cache and the trace as they
    were: no cache lookup and no cloud call; and every provider id is of one
    of the two kinds. *)
Theorem C1_three_segments_or_immediate_error :
  (∀ name a zone id,
     GoStrings.ContainsByte a "/" = false →
     GoStrings.ContainsByte zone "/" = false →
     GoStrings.ContainsByte id "/" = false →
     parseProviderID
       {| NodeName := name;
          ProviderID := "aws://" +:+ a +:+ "/" +:+ zone +:+ "/" +:+ id |}
     = Ok id) ∧
  (∀ S (St : Store S) (i : nodeIdentifier) (node : Node) (w : world S),
     malformed (ProviderID node) →
     ∃ e, IdentifyNode i node w = (Err e, w)) ∧
  (∀ node,
     malformed (ProviderID node) ∨
     ∃ a zone id,
       ProviderID node = "aws://" +:+ a +:+ "/" +:+ zone +:+ "/" +:+ id ∧
       GoStrings.ContainsByte a "/" = false ∧
       GoStrings.ContainsByte zone "/" = false ∧
       GoStrings.ContainsByte id "/" = false).
Proof.
  split_and!.
  - apply parse_three_segments.
  - intros S St i node w [e He]%parse_malformed. exists e.
    by apply IdentifyNode_parse_Err.
  - intros node. destruct (parseProviderID node) as [id|e|] eqn:Hparse.
    + right. destruct (parse_Ok_inv _ _ Hparse) as (a & zone & ?). eauto.
    + left. revert Hparse. unfold parseProviderID, malformed.
      case_bool_decide; [auto|].
      destruct (GoStrings.HasPrefix _ _); cbn [negb]; [|auto].
      case_bool_decide; [auto|done].
    + by destruct (parse_no_panic node).
Qed.

Lemma C1_three_segments_or_immediate_error_witness :
  parseProviderID demo_node = Ok "i-0abc" ∧
  ∃ e, IdentifyNode (demo_client [[demo_running]] true)
         {| NodeName := "vm-1"; ProviderID := "gce://us-test-1a/vm-1" |}
         demo_world
       = (Err e, demo_world).
Proof.
  destruct C1_three_segments_or_immediate_error as (Hparse & Hfail & _).
  split.
  - apply (Hparse "ip-10-0-0-1" "" "us-test-1a" "i-0abc"); reflexivity.
  - apply Hfail. right; left. reflexivity.
Defined.

(** C10: validation looks at the aws:// prefix and at the number of
    segments only. Every provider id made of aws:// and three segments is
    accepted whatever the segments are, empty ones included, and the third
    is the instance id; when the call is not served from the cache, that id
    is the one sent to EC2. In particular aws://a/b/ is accepted and EC2 is
    asked for the empty instance id. *)
Theorem C10_segment_contents_unchecked {S} `{!Store S}
    (i : nodeIdentifier) (name a b c : string) (w w1 : world S) :
  GoStrings.ContainsByte a "/" = false →
  GoStrings.ContainsByte b "/" = false →
  GoStrings.ContainsByte c "/" = false →
  cacheLookup i c w = (Ok None, w1) →
  let node := {| NodeName := name;
                 ProviderID := "aws://" +:+ a +:+ "/" +:+ b +:+ "/" +:+ c |} in
  parseProviderID node = Ok c ∧
  (∃ evs, trace (IdentifyNode i node w).2 =
          trace w1 ++ EvDescribeInstances {| ec2.InstanceIds := [c] |} :: evs) ∧
  parseProviderID {| NodeName := name; ProviderID := "aws://a/b/" |} = Ok "".
Proof.
  intros Ha Hb Hc Hmiss node.
  pose proof (parse_three_segments name a b c Ha Hb Hc) as Hparse.
  split_and!; [done| |reflexivity].
  rewrite (IdentifyNode_parse_Ok _ _ _ _ Hparse), Hmiss.
  destruct (identifyFromEC2 i c w1) as [r w2] eqn:Hrun.
  destruct (identifyFromEC2_events _ _ _ _ _ Hrun) as (evs & Ht & _).
  by exists evs.
Qed.

Lemma C10_segment_contents_unchecked_witness :
  let node := {| NodeName := "ip-10-0-0-1"; ProviderID := "aws://a/b/" |} in
  parseProviderID node = Ok "" ∧
  ∃ evs, trace (IdentifyNode (demo_client [] false) node demo_world).2 =
         trace demo_world
         ++ EvDescribeInstances {| ec2.InstanceIds := [""] |} :: evs.
Proof.
  destruct (C10_segment_contents_unchecked (demo_client [] false)
              "ip-10-0-0-1" "a" "b" "" demo_world demo_world)
    as (Hparse & Hsent & _); [reflexivity..|].
  split; [exact Hparse|exact Hsent].
Defined.

(** ** The state check *)

(** C5: when the call is not served from the cache and [getInstance] finds
    a single instance, [IdentifyNode] returns the error that names the
    instance's state whenever that state is not "running" (for a reported
    state name, the name itself), and returns the [Info] with the derived
    labels exactly when the state is "running". *)
Theorem C5_state_must_be_running {S} `{!Store S}
    (i : nodeIdentifier) (node : Node) (id : string) (w w1 w2 : world S)
    (inst : ec2.Instance) :
  parseProviderID node = Ok id →
  cacheLookup i id w = (Ok None, w1) →
  getInstance i id w1 = (Ok inst, w2) →
  (instanceStateOf inst ≠ "running" →
   IdentifyNode i node w =
   (Err (ErrInstanceState id (instanceStateOf inst)), w2)) ∧
  (instanceStateOf inst = "running" ↔
   (IdentifyNode i node w).1 =
   Ok {| InstanceID := id; Labels := deriveLabels inst |}) ∧
  (∀ name, ec2.State inst = Some {| ec2.Name := Some name |} →
           instanceStateOf inst = name).
Proof.
  intros Hparse Hmiss Hget.
  rewrite (IdentifyNode_parse_Ok _ _ _ _ Hparse), Hmiss.
  split_and!.
  - intros Hstate. by apply identifyFromEC2_state.
  - split.
    + intros Hstate. rewrite (identifyFromEC2_running _ _ _ _ _ Hget Hstate).
      cbn zeta. by destruct (cacheEnabled i).
    + intros Hok.
      destruct (decide (instanceStateOf inst = "running")) as [|Hstate];
        [done|].
      by rewrite (identifyFromEC2_state _ _ _ _ _ Hget Hstate) in Hok.
  - intros name Hname. unfold instanceStateOf. by rewrite Hname.
Qed.

Lemma C5_state_must_be_running_witness :
  IdentifyNode (demo_client [[demo_stopped]] false) demo_node demo_world =
  (Err (ErrInstanceState "i-0abc" "stopped"), described "i-0abc" demo_world) ∧
  (IdentifyNode (demo_client [[demo_running]] false) demo_node demo_world).1 =
  Ok {| InstanceID := "i-0abc"; Labels := deriveLabels demo_running |}.
Proof.
  split.
  - apply (C5_state_must_be_running (demo_client [[demo_stopped]] false)
             demo_node "i-0abc" demo_world demo_world
             (described "i-0abc" demo_world) demo_stopped);
      [reflexivity..|discriminate].
  - apply (C5_state_must_be_running (demo_client [[demo_running]] false)
             demo_node "i-0abc" demo_world demo_world
             (described "i-0abc" demo_world) demo_running);
      reflexivity.
Defined.

(** C9: when the single instance found has no [State] (nil), the call does
    not panic: the state name is taken to be "?" and the call returns the
    state-check error naming "?". *)
Theorem C9_missing_state_is_question_mark {S} `{!Store S}
    (i : nodeIdentifier) (node : Node) (id : string) (w w1 w2 : world S)
    (inst : ec2.Instance) :
  parseProviderID node = Ok id →
  cacheLookup i id w = (Ok None, w1) →
  getInstance i id w1 = (Ok inst, w2) →
  ec2.State inst = None →
  instanceStateOf inst = "?" ∧
  IdentifyNode i node w = (Err (ErrInstanceState id "?"), w2) ∧
  (IdentifyNode i node w).1 ≠ Panic.
Proof.
  intros Hparse Hmiss Hget Hnil.
  assert (instanceStateOf inst = "?") as Hstate.
  { unfold instanceStateOf. by rewrite Hnil. }
  assert (IdentifyNode i node w = (Err (ErrInstanceState id "?"), w2)) as Hrun.
  { rewrite (IdentifyNode_parse_Ok _ _ _ _ Hparse), Hmiss.
    rewrite <- Hstate. apply identifyFromEC2_state; [done|].
    by rewrite Hstate. }
  split_and!; [done..|]. by rewrite Hrun.
Qed.

Lemma C9_missing_state_is_question_mark_witness :
  IdentifyNode (demo_client [[demo_stateless]] false) demo_node demo_world =
  (Err (ErrInstanceState "i-0abc" "?"), described "i-0abc" demo_world).
Proof.
  apply (C9_missing_state_is_question_mark
           (demo_client [[demo_stateless]] false)
           demo_node "i-0abc" demo_world demo_world
           (described "i-0abc" demo_world) demo_stateless);
    reflexivity.
Defined.

(** ** The EC2 lookup *)

(** C3 fails on the code for responses with more than one reservation:
    [getInstance] counts the instances of the first reservation only. With
    two reservations of one instance each, the response holds two instances
    for the id, and [getInstance] returns the first one's data without an
    error; with an empty first reservation and the instance in the second,
    it reports the instance missing. *)
Theorem C3_only_first_reservation_counted :
  getInstance (demo_client [[demo_running]; [demo_stopped]] false)
    "i-0abc" demo_world
  = (Ok demo_running, described "i-0abc" demo_world) ∧
  (IdentifyNode (demo_client [[demo_running]; [demo_stopped]] false)
     demo_node demo_world).1
  = Ok {| InstanceID := "i-0abc"; Labels := deriveLabels demo_running |} ∧
  getInstance (demo_client [[]; [demo_running]] false) "i-0abc" demo_world
  = (Err (ErrMissingInstance "i-0abc"), described "i-0abc" demo_world).
Proof. split_and!; reflexivity. Qed.

(** ** Cache failures *)

(** C7, as stated, fails on a cache read that returns an error together
    with an entry: the error is logged, but the call does not go on as on a
    miss. [IdentifyNode] tests [exists] whatever the error was, so it
    returns the item the failed read reported, without asking EC2, although
    the instance is running with other labels; and when the failed read
    reports an entry with no item, the type assertion panics. *)
Lemma C7_failed_read_served_as_hit :
  let stale := {| InstanceID := "i-0abc";
                  Labels := {[ "stale" := "true" ]} |} in
  let i := demo_client [[demo_running]] true in
  let lookup := [EvGetByKey "i-0abc";
                 EvWarning (WarnCacheLookup "store closed")] in
  IdentifyNode i demo_node
    (World {| held := Some stale; fault := "store closed" |} [])
  = (Ok stale, World {| held := Some stale; fault := "store closed" |} lookup) ∧
  stale ≠ {| InstanceID := "i-0abc"; Labels := deriveLabels demo_running |} ∧
  IdentifyNode i demo_node
    (World {| held := None; fault := "store closed" |} [])
  = (Panic, World {| held := None; fault := "store closed" |} lookup).
Proof.
  intros stale i lookup. split_and!; [reflexivity| |reflexivity].
  intros Heq. apply (f_equal (λ info, Labels info !! "stale")) in Heq.
  revert Heq. by vm_compute.
Qed.

(** C7 (amended): cache failures are best-effort. A cache read that fails
    is logged and its error is never returned; what the call does next is
    decided by what the read reports beside the error: with no entry the
    call goes on to the EC2 lookup as on a miss, with an entry the item
    reported is returned as on a hit, and with an entry and no item the
    call panics. A cache write that fails is logged and the call still
    returns the resolved [Info]. A returned error is always one of the
    parsing or of the EC2 lookup and state check, never the cache's. The
    cache is written only on the path that returns an [Info], and what is
    written is that [Info]: no path that returns an error (or panics)
    writes to the cache. *)
Theorem C7_cache_failures_are_best_effort {S} `{!Store S}
    (i : nodeIdentifier) (node : Node) (w : world S) :
  (∀ id obj exists_ e c,
     parseProviderID node = Ok id →
     cacheEnabled i = true →
     GetByKey id (cache w) = ((obj, exists_, Some e), c) →
     let w1 := World c (trace w ++ [EvGetByKey id;
                                    EvWarning (WarnCacheLookup e)]) in
     (∃ evs, trace (IdentifyNode i node w).2 = trace w1 ++ evs) ∧
     IdentifyNode i node w =
       if exists_ then
         match obj with
         | Some info => (Ok info, w1)
         | None => (Panic, w1)
         end
       else identifyFromEC2 i id w1) ∧
  (∀ id w1 w2 inst e c,
     parseProviderID node = Ok id →
     cacheEnabled i = true →
     cacheLookup i id w = (Ok None, w1) →
     getInstance i id w1 = (Ok inst, w2) →
     instanceStateOf inst = "running" →
     let info := {| InstanceID := id; Labels := deriveLabels inst |} in
     Add info (cache w2) = (Some e, c) →
     IdentifyNode i node w =
     (Ok info,
      World c (trace w2 ++ [EvAdd info; EvWarning (WarnCacheAdd e)]))) ∧
  (∀ r w',
     IdentifyNode i node w = (r, w') →
     ∃ evs,
       trace w' = trace w ++ evs ∧
       match r with
       | Ok info =>
           filter isCacheWrite evs = [] ∨
           filter isCacheWrite evs = [EvAdd info]
       | Err e =>
           filter isCacheWrite evs = [] ∧
           (parseProviderID node = Err e ∨
            ∃ id, parseProviderID node = Ok id ∧ fromEC2 i id e)
       | Panic => filter isCacheWrite evs = []
       end).
Proof.
  split_and!.
  - intros id obj ex e c Hparse Hon Hget w1.
    rewrite (IdentifyNode_parse_Ok _ _ _ _ Hparse).
    rewrite (cacheLookup_enabled _ _ _ _ _ _ _ Hon Hget).
    change (World c (trace w ++ lookupEvents id (Some e))) with w1.
    cbn zeta. split.
    + destruct ex; [destruct obj; exists []; by rewrite app_nil_r|].
      destruct (identifyFromEC2 i id w1) as [r w2] eqn:Hrun.
      destruct (identifyFromEC2_events _ _ _ _ _ Hrun) as (evs & Ht & _).
      eexists. exact Ht.
    + by destruct ex, obj.
  - intros id w1 w2 inst e c Hparse Hon Hmiss Hget Hstate info Hadd.
    rewrite (IdentifyNode_parse_Ok _ _ _ _ Hparse), Hmiss.
    rewrite (identifyFromEC2_running _ _ _ _ _ Hget Hstate). cbn zeta.
    fold info. by rewrite Hon, Hadd.
  - apply IdentifyNode_events.
Qed.

Lemma C7_cache_failures_are_best_effort_witness :
  let info := {| InstanceID := "i-0abc"; Labels := deriveLabels demo_running |} in
  IdentifyNode (demo_client [[demo_running]] true) demo_node demo_broken =
  (Ok info,
   World {| reason := "store closed" |}
     [EvGetByKey "i-0abc";
      EvWarning (WarnCacheLookup "store closed");
      EvDescribeInstances {| ec2.InstanceIds := ["i-0abc"] |};
      EvAdd info;
      EvWarning (WarnCacheAdd "store closed")]).
Proof.
  intros info.
  destruct (C7_cache_failures_are_best_effort
              (demo_client [[demo_running]] true) demo_node demo_broken)
    as (Hread & Hwrite & _).
  destruct (Hread "i-0abc" None false "store closed"
              {| reason := "store closed" |}) as [_ Hmiss];
    [reflexivity..|].
  apply (Hwrite "i-0abc"
           (World {| reason := "store closed" |}
              [EvGetByKey "i-0abc";
               EvWarning (WarnCacheLookup "store closed")])
           (World {| reason := "store closed" |}
              [EvGetByKey "i-0abc";
               EvWarning (WarnCacheLookup "store closed");
               EvDescribeInstances {| ec2.InstanceIds := ["i-0abc"] |}])
           demo_running "store closed");
    reflexivity.
Defined.

(** ** Label derivation *)

Section LabelFacts.
Import GoStrings GoStringsFacts.
Implicit Types (labels : gmap string string) (tag : ec2.Tag).

(** A tag without the prefix leaves the labels alone. *)
Lemma applyTag_no_prefix labels tag :
  HasPrefix (awssdk.StringValue (ec2.Key tag))
    ClusterAutoscalerNodeTemplateLabel = false →
  applyTag labels tag = labels.
Proof. unfold applyTag. by intros ->. Qed.

(** A tag sets the label its key names after the prefix, and only that
    one. *)
Lemma applyTag_lookup labels tag k :
  applyTag labels tag !! k =
  if decide (awssdk.StringValue (ec2.Key tag) = templateTag k)
  then Some (awssdk.StringValue (ec2.Value tag))
  else labels !! k.
Proof.
  unfold applyTag, templateTag.
  destruct (HasPrefix _ _) eqn:Hprefix.
  - apply HasPrefix_inv in Hprefix. rewrite lookup_insert.
    destruct (decide (TrimPrefix _ _ = k)) as [<-|Hne].
    + by rewrite decide_True.
    + rewrite decide_False; [done|].
      intros Heq. rewrite Heq, TrimPrefix_app in Hne. done.
  - rewrite decide_False; [done|].
    intros Heq. by rewrite Heq, HasPrefix_app in Hprefix.
Qed.

(** Tags for other labels do not touch label [k]. *)
Lemma foldl_applyTag_others labels tags k :
  Forall (λ tag, awssdk.StringValue (ec2.Key tag) ≠ templateTag k) tags →
  foldl applyTag labels tags !! k = labels !! k.
Proof.
  intros Hothers. revert labels.
  induction Hothers as [|tag tags Hne _ IH]; intros labels; [done|].
  cbn. rewrite IH, applyTag_lookup. by rewrite decide_False.
Qed.

(** The last tag for label [k] decides its value. *)
Lemma foldl_applyTag_last labels tags1 tag tags2 k :
  awssdk.StringValue (ec2.Key tag) = templateTag k →
  Forall (λ tag', awssdk.StringValue (ec2.Key tag') ≠ templateTag k) tags2 →
  foldl applyTag labels (tags1 ++ tag :: tags2) !! k
  = Some (awssdk.StringValue (ec2.Value tag)).
Proof.
  intros Hkey Hothers. rewrite foldl_app. cbn.
  rewrite foldl_applyTag_others by done.
  rewrite applyTag_lookup. by rewrite decide_True.
Qed.

(** Every label was there before the tags, or comes from a tag that carries
    it. *)
Lemma foldl_applyTag_origin labels tags k v :
  foldl applyTag labels tags !! k = Some v →
  (∃ tag, tag ∈ tags ∧
          awssdk.StringValue (ec2.Key tag) = templateTag k ∧
          awssdk.StringValue (ec2.Value tag) = v) ∨
  labels !! k = Some v.
Proof.
  revert labels. induction tags as [|tag tags IH]; intros labels; [auto|].
  cbn. intros [(tag' & Hin & ?)|Hhere]%IH.
  - left. exists tag'. split; [by apply list_elem_of_further|done].
  - rewrite applyTag_lookup in Hhere. case_decide as Hkey; [|auto].
    left. exists tag. split; [by apply list_elem_of_here|].
    split; [done|congruence].
Qed.

(** Dropping a tag without the prefix changes nothing. *)
Lemma foldl_applyTag_skip labels tags1 tag tags2 :
  HasPrefix (awssdk.StringValue (ec2.Key tag))
    ClusterAutoscalerNodeTemplateLabel = false →
  foldl applyTag labels (tags1 ++ tag :: tags2)
  = foldl applyTag labels (tags1 ++ tags2).
Proof.
  intros Hprefix. rewrite !foldl_app. cbn.
  by rewrite applyTag_no_prefix.
Qed.

End LabelFacts.

(** C6, as stated, fails on the label key: for the lifecycle "spot" the
    code does not produce the label node-role/spot-worker; the key it
    writes is node-role.kubernetes.io/spot-worker. *)
Lemma C6_lifecycle_label_key :
  let inst := demo_instance (Some "running") (Some "spot") [] in
  deriveLabels inst !! "node-role/spot-worker" = None ∧
  deriveLabels inst = {[ "node-role.kubernetes.io/spot-worker" := "true" ]}.
Proof. split; reflexivity. Qed.

(** C6 (amended): label derivation starts from the empty label set; an
    instance with a lifecycle attribute gets the label
    node-role.kubernetes.io/<lifecycle>-worker = "true"; every tag whose key
    is the autoscaler node-template prefix followed by a label key sets that
    label to the tag's value, the last such tag deciding it; a tag without
    the prefix contributes nothing; and the labels hold nothing else. *)
Theorem C6_labels_of_lifecycle_and_tags (inst : ec2.Instance) :
  (ec2.Tags inst = [] →
   deriveLabels inst =
   match ec2.InstanceLifecycle inst with
   | Some lifecycle => {[ lifecycleLabel lifecycle := "true" ]}
   | None => ∅
   end) ∧
  (∀ lifecycle,
     ec2.InstanceLifecycle inst = Some lifecycle →
     Forall (λ tag, awssdk.StringValue (ec2.Key tag)
                    ≠ templateTag (lifecycleLabel lifecycle))
       (ec2.Tags inst) →
     deriveLabels inst !! lifecycleLabel lifecycle = Some "true") ∧
  (∀ tags1 tag tags2 k,
     ec2.Tags inst = tags1 ++ tag :: tags2 →
     awssdk.StringValue (ec2.Key tag) = templateTag k →
     Forall (λ tag', awssdk.StringValue (ec2.Key tag') ≠ templateTag k)
       tags2 →
     deriveLabels inst !! k = Some (awssdk.StringValue (ec2.Value tag))) ∧
  (∀ tags1 tag tags2,
     ec2.Tags inst = tags1 ++ tag :: tags2 →
     GoStrings.HasPrefix (awssdk.StringValue (ec2.Key tag))
       ClusterAutoscalerNodeTemplateLabel = false →
     deriveLabels inst =
     deriveLabels {| ec2.State := ec2.State inst;
                     ec2.InstanceLifecycle := ec2.InstanceLifecycle inst;
                     ec2.Tags := tags1 ++ tags2 |}) ∧
  (∀ k v,
     deriveLabels inst !! k = Some v →
     (∃ tag, tag ∈ ec2.Tags inst ∧
             awssdk.StringValue (ec2.Key tag) = templateTag k ∧
             awssdk.StringValue (ec2.Value tag) = v) ∨
     (∃ lifecycle, ec2.InstanceLifecycle inst = Some lifecycle ∧
                   k = lifecycleLabel lifecycle ∧ v = "true")).
Proof.
  unfold deriveLabels, lifecycleLabels. split_and!.
  - intros ->. cbn. by destruct (ec2.InstanceLifecycle inst).
  - intros lifecycle -> Hothers.
    rewrite foldl_applyTag_others by done. apply lookup_insert_eq.
  - intros tags1 tag tags2 k -> Hkey Hothers.
    by apply foldl_applyTag_last.
  - intros tags1 tag tags2 -> Hprefix. cbn.
    by apply foldl_applyTag_skip.
  - intros k v [?|Hstart]%foldl_applyTag_origin; [by left|right].
    destruct (ec2.InstanceLifecycle inst) as [lifecycle|]; [|done].
    apply lookup_insert_Some in Hstart as [[<- <-]|[_ ?]]; [eauto|done].
Qed.

Lemma C6_labels_of_lifecycle_and_tags_witness :
  deriveLabels demo_running !! "foo" = Some "bar" ∧
  deriveLabels demo_running !! "node-role.kubernetes.io/spot-worker"
  = Some "true" ∧
  deriveLabels demo_running =
  deriveLabels
    (demo_instance (Some "running") (Some "spot")
       [ {| ec2.Key := Some (templateTag "foo"); ec2.Value := Some "bar" |} ]).
Proof.
  destruct (C6_labels_of_lifecycle_and_tags demo_running)
    as (_ & Hlifecycle & Htag & Hskip & _).
  split_and!.
  - apply (Htag [] {| ec2.Key := Some (templateTag "foo");
                      ec2.Value := Some "bar" |}
             [ {| ec2.Key := Some "Name"; ec2.Value := Some "nodes-1" |} ]
             "foo"); [reflexivity..|].
    repeat constructor. discriminate.
  - apply (Hlifecycle "spot"); [reflexivity|].
    repeat constructor; discriminate.
  - apply (Hskip [ {| ec2.Key := Some (templateTag "foo");
                      ec2.Value := Some "bar" |} ]
             {| ec2.Key := Some "Name"; ec2.Value := Some "nodes-1" |} []);
      reflexivity.
Defined.

(** ** The TTL cache *)

Lemma cloudCalls_app (t evs : list event) :
  cloudCalls (t ++ evs) = (cloudCalls t + length (filter isCloudCall evs))%nat.
Proof. unfold cloudCalls. by rewrite filter_app, length_app. Qed.

Lemma cloudCalls_snoc_other (t : list event) (ev : event) :
  isCloudCall ev = false → cloudCalls (t ++ [ev]) = cloudCalls t.
Proof.
  intros Hev. rewrite cloudCalls_app.
  rewrite filter_cons_False by (rewrite Hev; exact id). cbn. lia.
Qed.

(** The EC2 step makes exactly one cloud call. *)
Lemma identifyFromEC2_cloudCalls {S} `{!Store S}
    (i : nodeIdentifier) (id : string) (w w' : world S) (r : outcome Info) :
  identifyFromEC2 i id w = (r, w') →
  cloudCalls (trace w') = Datatypes.S (cloudCalls (trace w)).
Proof.
  intros Hrun.
  destruct (identifyFromEC2_events _ _ _ _ _ Hrun) as (evs & Ht & Hnone & _).
  rewrite Ht, cloudCalls_app, filter_cons_True by done.
  rewrite Hnone. cbn. lia.
Qed.

Section TTLFacts.
Implicit Types (i : nodeIdentifier) (node : Node) (w : world TTLStore).

(** A live entry is returned without a cloud call, and the store is left as
    it is. *)
Lemma IdentifyNode_ttl_hit i node id w e :
  parseProviderID node = Ok id →
  cacheEnabled i = true →
  entries (cache w) !! id = Some e →
  clock (cache w) - insertedAt e ≤ ttl (cache w) →
  IdentifyNode i node w =
  (Ok (info e), World (cache w) (trace w ++ [EvGetByKey id])).
Proof.
  intros Hparse Hon Hentry Hage.
  rewrite (IdentifyNode_parse_Ok _ _ _ _ Hparse).
  erewrite cacheLookup_enabled; [|done|].
  2:{ cbn. unfold ttlGet, expired. rewrite Hentry.
      rewrite bool_decide_eq_false_2 by lia. reflexivity. }
  reflexivity.
Qed.

(** An absent or expired entry sends the call to EC2. *)
Lemma IdentifyNode_ttl_miss i node id w :
  parseProviderID node = Ok id →
  cacheEnabled i = true →
  (∀ e, entries (cache w) !! id = Some e →
        clock (cache w) - insertedAt e > ttl (cache w)) →
  IdentifyNode i node w =
  identifyFromEC2 i id (World (cache w) (trace w ++ [EvGetByKey id])).
Proof.
  intros Hparse Hon Hdead.
  rewrite (IdentifyNode_parse_Ok _ _ _ _ Hparse).
  erewrite cacheLookup_enabled; [|done|].
  2:{ cbn. unfold ttlGet, expired.
      destruct (entries (cache w) !! id) as [e|] eqn:Hentry; [|reflexivity].
      rewrite bool_decide_eq_true_2 by auto. reflexivity. }
  reflexivity.
Qed.

(** A call that made no cloud call returned a live entry. *)
Lemma IdentifyNode_ttl_served i node id w r w' :
  parseProviderID node = Ok id →
  IdentifyNode i node w = (r, w') →
  cloudCalls (trace w') = cloudCalls (trace w) →
  ∃ e, entries (cache w) !! id = Some e ∧ r = Ok (info e) ∧
       clock (cache w) - insertedAt e ≤ ttl (cache w).
Proof.
  intros Hparse Hrun Hcalls.
  destruct (cacheEnabled i) eqn:Hon.
  - destruct (entries (cache w) !! id) as [e|] eqn:Hentry.
    + destruct (decide (clock (cache w) - insertedAt e ≤ ttl (cache w)))
        as [Hage|Hage].
      * rewrite (IdentifyNode_ttl_hit _ _ _ _ _ Hparse Hon Hentry Hage)
          in Hrun.
        injection Hrun as <- <-. eauto.
      * rewrite (IdentifyNode_ttl_miss _ _ _ _ Hparse Hon) in Hrun.
        2:{ intros e' He'. rewrite Hentry in He'. injection He' as <-. lia. }
        apply identifyFromEC2_cloudCalls in Hrun. cbn [trace] in Hrun.
        rewrite cloudCalls_snoc_other in Hrun by done. lia.
    + rewrite (IdentifyNode_ttl_miss _ _ _ _ Hparse Hon) in Hrun
        by (intros e'; by rewrite Hentry).
      apply identifyFromEC2_cloudCalls in Hrun. cbn [trace] in Hrun.
      rewrite cloudCalls_snoc_other in Hrun by done. lia.
  - rewrite (IdentifyNode_parse_Ok _ _ _ _ Hparse) in Hrun.
    rewrite cacheLookup_disabled in Hrun by done.
    apply identifyFromEC2_cloudCalls in Hrun. lia.
Qed.

(** A first call that finds nothing cached and succeeds stores what it
    returns, stamped with the time of the call. *)
Lemma IdentifyNode_ttl_first i node id w obj w1 :
  keyFunc (cache w) = stringKeyFunc →
  parseProviderID node = Ok id →
  cacheEnabled i = true →
  entries (cache w) !! id = None →
  IdentifyNode i node w = (Ok obj, w1) →
  cloudCalls (trace w1) = Datatypes.S (cloudCalls (trace w)) ∧
  keyFunc (cache w1) = keyFunc (cache w) ∧
  ttl (cache w1) = ttl (cache w) ∧
  clock (cache w1) = clock (cache w) ∧
  entries (cache w1) !! id
  = Some {| info := obj; insertedAt := clock (cache w) |}.
Proof.
  intros Hkey Hparse Hon Hentry Hrun.
  rewrite (IdentifyNode_ttl_miss _ _ _ _ Hparse Hon) in Hrun
    by (intros e; by rewrite Hentry).
  split.
  { apply identifyFromEC2_cloudCalls in Hrun. cbn [trace] in Hrun.
    by rewrite cloudCalls_snoc_other in Hrun. }
  match type of Hrun with identifyFromEC2 _ _ ?w0 = _ =>
    destruct (identifyFromEC2_cases i id w0)
      as [(e & He & _)|(inst & _ & _ & Hok)]
  end; [congruence|].
  rewrite Hok, Hon in Hrun. cbn in Hrun. injection Hrun as <- <-.
  cbn. unfold ttlPut. rewrite Hkey. cbn.
  split_and!; [done..|]. apply lookup_insert_eq.
Qed.

End TTLFacts.

(** C4: with caching enabled and the TTL store of 60 minutes, a first call
    that finds nothing cached and succeeds makes one cloud call; a second
    call for the same instance id within the TTL returns the same [Info]
    with no cloud call, so the two calls make exactly one; a third call past
    the TTL makes a new cloud call. In general a call that makes no cloud
    call has returned an entry whose age does not exceed the TTL: an entry
    is never returned once it is older. *)
Theorem C4_cache_entry_served_within_ttl_only
    (i1 i2 i3 : nodeIdentifier) (node : Node) (id : string)
    (w w1 : world TTLStore) (obj : Info) (d1 d2 : Z) :
  keyFunc (cache w) = stringKeyFunc →
  ttl (cache w) = cacheTTL →
  parseProviderID node = Ok id →
  cacheEnabled i1 = true → cacheEnabled i2 = true → cacheEnabled i3 = true →
  entries (cache w) !! id = None →
  IdentifyNode i1 node w = (Ok obj, w1) →
  0 ≤ d1 ≤ 60 * time.Minute →
  60 * time.Minute < d1 + d2 →
  let r2 := IdentifyNode i2 node (elapse d1 w1) in
  let r3 := IdentifyNode i3 node (elapse d2 r2.2) in
  cloudCalls (trace w1) = Datatypes.S (cloudCalls (trace w)) ∧
  r2.1 = Ok obj ∧
  cloudCalls (trace r2.2) = cloudCalls (trace w1) ∧
  cloudCalls (trace r3.2) = Datatypes.S (cloudCalls (trace r2.2)) ∧
  (∀ i (w0 w0' : world TTLStore) r,
     IdentifyNode i node w0 = (r, w0') →
     cloudCalls (trace w0') = cloudCalls (trace w0) →
     ∃ e, entries (cache w0) !! id = Some e ∧ r = Ok (info e) ∧
          clock (cache w0) - insertedAt e ≤ ttl (cache w0)).
Proof.
  intros Hkey Httl Hparse Hon1 Hon2 Hon3 Hentry Hrun1 Hd1 Hd2 r2 r3.
  destruct (IdentifyNode_ttl_first _ _ _ _ _ _ Hkey Hparse Hon1 Hentry Hrun1)
    as (Hcalls1 & Hkey1 & Httl1 & Hclock1 & Hentry1).
  assert (r2 = (Ok obj, World (cache (elapse d1 w1))
                          (trace w1 ++ [EvGetByKey id]))) as Hr2.
  { unfold r2.
    rewrite (IdentifyNode_ttl_hit i2 node id (elapse d1 w1)
               {| info := obj; insertedAt := clock (cache w) |});
      [done..|].
    cbn. unfold cacheTTL in *. lia. }
  split_and!.
  - done.
  - by rewrite Hr2.
  - rewrite Hr2. cbn [snd trace]. by rewrite cloudCalls_snoc_other.
  - unfold r3. rewrite IdentifyNode_ttl_miss with (id := id); [|done..|].
    + destruct (identifyFromEC2 _ _ _) as [r w3] eqn:Hrun3.
      apply identifyFromEC2_cloudCalls in Hrun3. cbn [snd trace] in *.
      by rewrite cloudCalls_snoc_other in Hrun3.
    + rewrite Hr2. cbn. intros e. rewrite Hentry1. intros [= <-]. cbn.
      unfold cacheTTL in *. lia.
  - intros i w0 w0' r. by apply IdentifyNode_ttl_served.
Qed.

Lemma C4_cache_entry_served_within_ttl_only_witness :
  let i := demo_client [[demo_running]] true in
  let w1 := (IdentifyNode i demo_node demo_world).2 in
  let r2 := IdentifyNode i demo_node (elapse (30 * time.Minute) w1) in
  let r3 := IdentifyNode i demo_node (elapse (31 * time.Minute) r2.2) in
  cloudCalls (trace w1) = 1%nat ∧
  cloudCalls (trace r2.2) = 1%nat ∧
  cloudCalls (trace r3.2) = 2%nat.
Proof.
  intros i w1 r2 r3.
  destruct (C4_cache_entry_served_within_ttl_only i i i demo_node "i-0abc"
              demo_world w1
              {| InstanceID := "i-0abc"; Labels := deriveLabels demo_running |}
              (30 * time.Minute) (31 * time.Minute))
    as (H1 & _ & H2 & H3 & _);
    [reflexivity..|by vm_compute|by vm_compute|].
  fold r2 in H2, H3. fold r3 in H3.
  split_and!; [exact H1| |].
  - rewrite H2. exact H1.
  - rewrite H3, H2, H1. reflexivity.
Defined.

(** ** The bootstrap download *)

Module BootstrapFacts.
Import Bootstrap.

Section FetchFacts.
Variable sha256 : string → string.
Variable run : nat → string → string → gmap string string → transfer.
Variable file : string.
Hypothesis file_plain : plain_word file = true.
Implicit Types (hash url cmd : string) (sh : shell).

Local Abbreviation actual_hash := (Bootstrap.actual_hash sha256).
Local Abbreviation validate_hash := (Bootstrap.validate_hash sha256).
Local Abbreviation try_commands := (Bootstrap.try_commands sha256 run).
Local Abbreviation try_urls := (Bootstrap.try_urls sha256 run).
Local Abbreviation download_loop := (Bootstrap.download_loop sha256 run).
Local Abbreviation download_or_bust := (Bootstrap.download_or_bust sha256 run).
Local Abbreviation fresh := (Bootstrap.fresh sha256 run).

(** The digest check of a plain word reads the one file of that name. *)
Lemma actual_hash_plain (files : gmap string string) :
  actual_hash file files
  = Some match files !! file with
         | Some bytes => sha256 bytes
         | None => ""
         end.
Proof. unfold Bootstrap.actual_hash. by rewrite file_plain. Qed.

Lemma actual_hash_lookup (files : gmap string string) bytes :
  files !! file = Some bytes → actual_hash file files = Some (sha256 bytes).
Proof. intros Hfile. by rewrite actual_hash_plain, Hfile. Qed.

Lemma commands_plain :
  ∃ cmds, commands file = Some cmds ∧ length cmds = 4%nat ∧
          cmds !! 0%nat
          = Some ("curl -f --compressed -Lo " +:+ file
                  +:+ " --connect-timeout 20 --retry 6 --retry-delay 10").
Proof. unfold commands. rewrite file_plain. eexists. by split_and!. Qed.

(** [validate-hash] succeeds exactly on a matching digest, and touches no
    file. *)
Lemma validate_hash_spec hash sh :
  ∃ valid sh1,
    validate_hash file hash sh = Some (valid, sh1) ∧
    valid = bool_decide (actual_hash file (fs sh) = Some hash) ∧
    fs sh1 = fs sh ∧
    attempts sh1 = attempts sh ∧
    slept sh1 = slept sh ∧
    (valid = true → sh1 = sh).
Proof.
  unfold Bootstrap.validate_hash. rewrite actual_hash_plain.
  case_bool_decide as Hne.
  - eexists _, _. split; [done|].
    rewrite bool_decide_eq_false_2 by (intros [=]; done). by split_and!.
  - eexists _, _. split; [done|].
    rewrite bool_decide_eq_true_2 by (by f_equal). by split_and!.
Qed.

(** A file with the expected digest is a file with bytes of that digest;
    when the expected digest is not empty, there is such a file. *)
Lemma actual_hash_matches hash (files : gmap string string) :
  actual_hash file files = Some hash →
  (∀ bytes, files !! file = Some bytes → sha256 bytes = hash) ∧
  (hash ≠ "" → is_Some (files !! file)).
Proof.
  rewrite actual_hash_plain. intros [= Hhash]. split.
  - intros bytes Hfile. by rewrite Hfile in Hhash.
  - intros Hne. destruct (files !! file); [eauto|done].
Qed.

(** One command: what it adds to the record, whether the function returns,
    and that it does not sleep. *)
Lemma try_commands_cons hash url cmd cmds sh :
  let r := run (length (attempts sh)) cmd url (fs sh) in
  ∃ sh1,
    attempts sh1 = attempts sh ++ [(cmd, url)] ∧
    slept sh1 = slept sh ∧
    ((succeeded r = true ∧
      actual_hash file (fs_after r) = Some hash ∧
      fs sh1 = fs_after r ∧
      try_commands file hash url (cmd :: cmds) sh = Some (true, sh1)) ∨
     ((succeeded r = true → actual_hash file (fs_after r) ≠ Some hash) ∧
      (succeeded r = true →
       fs sh1 = delete file (fs_after r) ∧ fs sh1 !! file = None) ∧
      try_commands file hash url (cmd :: cmds) sh
      = try_commands file hash url cmds sh1)).
Proof.
  intros r. cbn [Bootstrap.try_commands]. unfold run_command.
  cbn [fs attempts echo]. fold r.
  destruct (succeeded r) eqn:Hok; cbn [negb].
  - match goal with |- context [validate_hash file hash ?s] =>
      destruct (validate_hash_spec hash s)
        as (valid & sh1 & -> & Hv & Hfs & Hat & Hslept & Hsame)
    end.
    cbn [fs attempts slept] in Hv, Hfs, Hat, Hslept.
    destruct valid; cbn [negb]; symmetry in Hv.
    + apply bool_decide_eq_true in Hv.
      match goal with |- context [Some (true, ?s) = Some _] => exists s end.
      cbn [fs attempts slept echo]. split_and!; [done..|left]. by split_and!.
    + apply bool_decide_eq_false in Hv.
      match goal with |- context [try_commands _ _ _ _ ?s = Some _] =>
        exists s
      end.
      cbn [fs attempts slept echo rm_f]. split_and!; [done..|right].
      split_and!; [done| |done]. intros _.
      rewrite Hfs. split; [done|apply lookup_delete_eq].
  - match goal with |- context [try_commands _ _ _ _ ?s = Some _] =>
      exists s
    end.
    cbn [fs attempts slept echo]. split_and!; [done..|right]. by split_and!.
Qed.


Lemma try_commands_returned hash url cmds sh sh' :
  try_commands file hash url cmds sh = Some (true, sh') →
  fresh file hash cmds [url] sh'.
Proof.
  revert sh. induction cmds as [|cmd cmds IH]; intros sh; [done|].
  destruct (try_commands_cons hash url cmd cmds sh)
    as (sh1 & Hat & _ & [(Hok & Hhash & Hfs & ->)|(_ & _ & ->)]).
  - intros [= <-]. exists (attempts sh), cmd, url, (fs sh).
    rewrite Hfs. split_and!; try done; apply list_elem_of_here.
  - intros (prev & cmd' & url' & files & ? & ?)%IH.
    exists prev, cmd', url', files. split; [by apply list_elem_of_further|done].
Qed.

Lemma try_urls_returned hash urls sh sh' :
  try_urls file hash urls sh = Some (true, sh') →
  ∃ cmds, commands file = Some cmds ∧ fresh file hash cmds urls sh'.
Proof.
  intros Hret. destruct commands_plain as (cmds & Hcmds & _). exists cmds.
  split; [done|]. revert sh Hret.
  induction urls as [|url urls IH]; intros sh; [done|].
  cbn [Bootstrap.try_urls]. rewrite Hcmds.
  destruct (try_commands file hash url cmds sh) as [[[] sh1]|] eqn:Hrun;
    [| |done].
  - intros [= <-]. apply try_commands_returned in Hrun
      as (prev & cmd & url' & files & ? & ->%list_elem_of_singleton & ?).
    exists prev, cmd, url, files. split; [done|].
    split; [apply list_elem_of_here|done].
  - intros (prev & cmd & url' & files & ? & ? & ?)%IH.
    exists prev, cmd, url', files. split; [done|].
    split; [by apply list_elem_of_further|done].
Qed.

Lemma download_loop_returned fuel hash urls sh sh' :
  download_loop fuel file hash urls sh = Some sh' →
  ∃ cmds, commands file = Some cmds ∧ fresh file hash cmds urls sh'.
Proof.
  revert sh. induction fuel as [|fuel IH]; intros sh; [done|].
  cbn [Bootstrap.download_loop].
  destruct (try_urls file hash urls sh) as [[[] sh1]|] eqn:Hurls; [| |done].
  - intros [= <-]. by apply try_urls_returned in Hurls.
  - apply IH.
Qed.

(** The two ways in which [download-or-bust] returns. *)
Lemma download_or_bust_cases fuel hash urls sh status sh' :
  download_or_bust fuel file hash urls sh = Some (status, sh') →
  (status = 1 ∧ sh' = sh ∧ is_Some (fs sh !! file) ∧
   actual_hash file (fs sh) = Some hash) ∨
  (status = 0 ∧
   ¬ (is_Some (fs sh !! file) ∧ actual_hash file (fs sh) = Some hash) ∧
   ∃ sh0, download_loop fuel file hash urls sh0 = Some sh' ∧
          attempts sh0 = attempts sh ∧ slept sh0 = slept sh ∧
          (sh0 = sh ∨ fs sh0 = delete file (fs sh))).
Proof.
  unfold Bootstrap.download_or_bust. case_bool_decide as Hfile.
  - destruct (validate_hash_spec hash sh)
      as (valid & sh1 & -> & Hv & Hfs & Hat & Hslept & Hsame).
    destruct valid; cbn [negb]; symmetry in Hv.
    + apply bool_decide_eq_true in Hv. intros [= <- <-].
      left. by rewrite Hsame.
    + apply bool_decide_eq_false in Hv.
      destruct (download_loop fuel file hash urls (rm_f file sh1))
        as [sh2|] eqn:Hloop; [|done].
      intros [= <- <-]. right. split_and!; [done|by intros [_ ?]|].
      exists (rm_f file sh1). split_and!; [done..|].
      right. cbn [fs rm_f]. by rewrite Hfs.
  - destruct (download_loop fuel file hash urls sh) as [sh2|] eqn:Hloop;
      [|done].
    intros [= <- <-]. right. split_and!; [done|by intros [? _]|].
    exists sh. by split_and!; [..|left].
Qed.

(** On return the file at the destination passes the digest check. *)
Lemma download_or_bust_returned fuel hash urls sh status sh' :
  download_or_bust fuel file hash urls sh = Some (status, sh') →
  actual_hash file (fs sh') = Some hash.
Proof.
  intros [(_ & -> & _ & Hhash)|(_ & _ & sh0 & Hloop & _)]
    %download_or_bust_cases; [done|].
  apply download_loop_returned in Hloop as (cmds & _ & Hfresh).
  by destruct Hfresh as (? & ? & ? & ? & ? & ? & ? & ? & ? & ?).
Qed.

End FetchFacts.

End BootstrapFacts.

(** C2: [download-or-bust] never returns with a file at the destination
    whose digest differs from the expected one. For a destination named by
    a plain word, whenever it returns, the file there (and there is one,
    unless the expected digest is empty) has the expected digest: it is
    either the file that was already there and passed [validate-hash], with
    no download made (the function then returns status 1), or the file left
    by the last download command, which succeeded and passed
    [validate-hash] (status 0). A completed download that fails
    [validate-hash] is deleted before the loop goes on to the next
    command. *)
Theorem C2_returned_file_has_expected_checksum
    (sha256 : string → string)
    (run : nat → string → string → gmap string string → Bootstrap.transfer)
    (fuel : nat) (file hash : string) (urls : list string)
    (sh sh' : Bootstrap.shell) (status : Z) :
  Bootstrap.plain_word file = true →
  Bootstrap.download_or_bust sha256 run fuel file hash urls sh
  = Some (status, sh') →
  (∀ bytes, Bootstrap.fs sh' !! file = Some bytes → sha256 bytes = hash) ∧
  (hash ≠ "" → is_Some (Bootstrap.fs sh' !! file)) ∧
  ((status = 1 ∧
    is_Some (Bootstrap.fs sh !! file) ∧
    Bootstrap.fs sh' = Bootstrap.fs sh ∧
    Bootstrap.attempts sh' = Bootstrap.attempts sh) ∨
   (status = 0 ∧
    ∃ cmds, Bootstrap.commands file = Some cmds ∧
            Bootstrap.fresh sha256 run file hash cmds urls sh')) ∧
  (∀ url cmd cmds sh0,
     let r := run (length (Bootstrap.attempts sh0)) cmd url
                (Bootstrap.fs sh0) in
     Bootstrap.succeeded r = true →
     Bootstrap.actual_hash sha256 file (Bootstrap.fs_after r) ≠ Some hash →
     ∃ sh1,
       Bootstrap.try_commands sha256 run file hash url (cmd :: cmds) sh0
       = Bootstrap.try_commands sha256 run file hash url cmds sh1 ∧
       Bootstrap.fs sh1 !! file = None).
Proof.
  intros Hplain Hret.
  pose proof (BootstrapFacts.download_or_bust_returned sha256 run file Hplain
                _ _ _ _ _ _ Hret) as Hhash.
  destruct (BootstrapFacts.actual_hash_matches sha256 file Hplain hash _ Hhash)
    as [Hbytes Hsome].
  split_and!; [done..| |].
  - destruct (BootstrapFacts.download_or_bust_cases sha256 run file Hplain
                _ _ _ _ _ _ Hret)
      as [(-> & -> & Hfile & _)|(-> & _ & sh0 & Hloop & _)].
    + by left.
    + right. split; [done|].
      by apply BootstrapFacts.download_loop_returned in Hloop.
  - intros url cmd cmds sh0 r Hok Hbad.
    destruct (BootstrapFacts.try_commands_cons sha256 run file Hplain hash
                url cmd cmds sh0)
      as (sh1 & _ & _ & [(_ & Hgood & _)|(_ & Hgone & Hstep)]); [done|].
    exists sh1. split; [done|]. by destruct (Hgone Hok).
Qed.

Lemma C2_returned_file_has_expected_checksum_witness :
  ∃ sh',
    Bootstrap.download_or_bust Bootstrap.demo_sha256 Bootstrap.demo_run 1
      "nodeup" "[nodeup-binary]" [Bootstrap.demo_u1; Bootstrap.demo_u2]
      Bootstrap.demo_shell = Some (0, sh') ∧
    (∀ bytes, Bootstrap.fs sh' !! "nodeup" = Some bytes →
              Bootstrap.demo_sha256 bytes = "[nodeup-binary]").
Proof.
  eexists. split; [vm_compute; reflexivity|].
  eapply (C2_returned_file_has_expected_checksum
            Bootstrap.demo_sha256 Bootstrap.demo_run 1 "nodeup"
            "[nodeup-binary]" [Bootstrap.demo_u1; Bootstrap.demo_u2]
            Bootstrap.demo_shell).
  - reflexivity.
  - vm_compute. reflexivity.
Defined.

Section FetchScenario.
Import Bootstrap BootstrapFacts.
Variable sha256 : string → string.
Variable run : nat → string → string → gmap string string → transfer.
Variables (file H u1 u2 bad good : string).
Hypothesis file_plain : plain_word file = true.
Hypothesis bad_digest : sha256 bad ≠ H.
Hypothesis good_digest : sha256 good = H.
Hypothesis first_mirror : ∀ n cmd files,
  run n cmd u1 files
  = {| succeeded := true; fs_after := <[file := bad]> files |}.
Hypothesis second_mirror : ∀ n cmd files,
  run n cmd u2 files
  = {| succeeded := true; fs_after := <[file := good]> files |}.

(** Every command fetches the wrong bytes from the first mirror, and the
    loop over the commands runs to its end. *)
Lemma first_mirror_exhausted cmds sh :
  ∃ sh1,
    try_commands sha256 run file H u1 cmds sh = Some (false, sh1) ∧
    attempts sh1 = attempts sh ++ ((λ cmd, (cmd, u1)) <$> cmds) ∧
    slept sh1 = slept sh.
Proof.
  revert sh. induction cmds as [|cmd cmds IH]; intros sh.
  - exists sh. by rewrite app_nil_r.
  - destruct (try_commands_cons sha256 run file file_plain H u1 cmd cmds sh)
      as (sh1 & Hat & Hslept & [(_ & Hgood & _)|(_ & _ & ->)]).
    { rewrite first_mirror in Hgood. cbn [fs_after] in Hgood.
      rewrite (actual_hash_lookup sha256 file file_plain _ bad) in Hgood
        by apply lookup_insert_eq.
      by injection Hgood. }
    destruct (IH sh1) as (sh2 & -> & Hat2 & Hslept2).
    exists sh2. split; [done|].
    rewrite Hat2, Hat, Hslept2, Hslept, <- (assoc_L (++)). done.
Qed.

(** The first command fetches the right bytes from the second mirror. *)
Lemma second_mirror_first_command cmd cmds sh :
  ∃ sh1,
    try_commands sha256 run file H u2 (cmd :: cmds) sh = Some (true, sh1) ∧
    fs sh1 !! file = Some good ∧
    attempts sh1 = attempts sh ++ [(cmd, u2)] ∧
    slept sh1 = slept sh.
Proof.
  destruct (try_commands_cons sha256 run file file_plain H u2 cmd cmds sh)
    as (sh1 & Hat & Hslept & [(_ & _ & Hfs & ->)|(Hbad & _)]).
  - exists sh1. split_and!; [done| |done..].
    rewrite Hfs, second_mirror. apply lookup_insert_eq.
  - destruct Hbad; [by rewrite second_mirror|].
    rewrite second_mirror. cbn [fs_after].
    rewrite (actual_hash_lookup sha256 file file_plain _ good)
      by apply lookup_insert_eq.
    by rewrite good_digest.
Qed.

(** One pass of the loop over the two mirrors. *)
Lemma two_mirrors_one_pass fuel sh :
  ∃ sh' cmds cmd,
    commands file = Some cmds ∧ length cmds = 4%nat ∧
    cmds !! 0%nat = Some cmd ∧
    cmd = "curl -f --compressed -Lo " +:+ file
          +:+ " --connect-timeout 20 --retry 6 --retry-delay 10" ∧
    download_loop sha256 run (Datatypes.S fuel) file H [u1; u2] sh = Some sh' ∧
    fs sh' !! file = Some good ∧
    attempts sh' =
      attempts sh ++ ((λ cmd, (cmd, u1)) <$> cmds) ++ [(cmd, u2)] ∧
    slept sh' = slept sh.
Proof.
  destruct (commands_plain file file_plain) as (cmds & Hcmds & Hlen & Hfirst).
  destruct cmds as [|cmd cmds]; [done|]. injection Hfirst as Hfirst.
  cbn [download_loop try_urls]. rewrite Hcmds.
  destruct (first_mirror_exhausted (cmd :: cmds) sh)
    as (sh1 & -> & Hat1 & Hslept1).
  destruct (second_mirror_first_command cmd cmds sh1)
    as (sh2 & -> & Hfs2 & Hat2 & Hslept2).
  exists sh2, (cmd :: cmds), cmd. split_and!; [done..| |congruence].
  by rewrite Hat2, Hat1, <- (assoc_L (++)).
Qed.

End FetchScenario.

(** C8, as stated, fails on the number of attempts: with two mirrors, the
    first serving wrong bytes and the second the right ones, the run returns
    with status 0 and records five download commands, not two. *)
Lemma C8_five_attempts_not_two :
  (λ r, (r.1, length (Bootstrap.attempts r.2))) <$>
    Bootstrap.download_or_bust Bootstrap.demo_sha256 Bootstrap.demo_run 1
      "nodeup" "[nodeup-binary]" [Bootstrap.demo_u1; Bootstrap.demo_u2]
      Bootstrap.demo_shell
  = Some (0, 5%nat) ∧
  (λ r, length (Bootstrap.attempts r.2)) <$>
    Bootstrap.download_or_bust Bootstrap.demo_sha256 Bootstrap.demo_run 1
      "nodeup" "[nodeup-binary]" [Bootstrap.demo_u1; Bootstrap.demo_u2]
      Bootstrap.demo_shell
  ≠ Some 2%nat.
Proof. split; [by vm_compute|]. vm_compute. discriminate. Qed.

(** C8 (amended): with a destination named by a plain word, mirrors
    [u1; u2], expected digest [H], every command fetching wrong bytes from
    [u1] and right bytes from [u2], and no valid file already at the
    destination, [download-or-bust] returns within the first pass, with
    status 0 and without sleeping; the file at the destination has digest
    [H]; and exactly five download commands are recorded: the four commands
    of the script (curl with compression, wget with compression, curl, wget,
    in that fixed order) on [u1], each followed by a failed digest check,
    then the first of them on [u2]. *)
Theorem C8_wrong_mirror_then_right_mirror
    (sha256 : string → string)
    (run : nat → string → string → gmap string string → Bootstrap.transfer)
    (fuel : nat) (file H u1 u2 bad good : string) (sh : Bootstrap.shell) :
  Bootstrap.plain_word file = true →
  sha256 bad ≠ H →
  sha256 good = H →
  (∀ n cmd files,
     run n cmd u1 files
     = {| Bootstrap.succeeded := true;
          Bootstrap.fs_after := <[file := bad]> files |}) →
  (∀ n cmd files,
     run n cmd u2 files
     = {| Bootstrap.succeeded := true;
          Bootstrap.fs_after := <[file := good]> files |}) →
  (∀ bytes, Bootstrap.fs sh !! file = Some bytes → sha256 bytes ≠ H) →
  ∃ sh',
    Bootstrap.download_or_bust sha256 run (Datatypes.S fuel) file H [u1; u2] sh
    = Some (0, sh') ∧
    Bootstrap.fs sh' !! file = Some good ∧
    Bootstrap.actual_hash sha256 file (Bootstrap.fs sh') = Some H ∧
    Bootstrap.attempts sh' =
      Bootstrap.attempts sh
      ++ ((λ cmd, (cmd, u1)) <$>
          [ "curl -f --compressed -Lo " +:+ file
              +:+ " --connect-timeout 20 --retry 6 --retry-delay 10";
            "wget --compression=auto -O " +:+ file
              +:+ " --connect-timeout=20 --tries=6 --wait=10";
            "curl -f -Lo " +:+ file
              +:+ " --connect-timeout 20 --retry 6 --retry-delay 10";
            "wget -O " +:+ file
              +:+ " --connect-timeout=20 --tries=6 --wait=10" ])
      ++ [("curl -f --compressed -Lo " +:+ file
           +:+ " --connect-timeout 20 --retry 6 --retry-delay 10", u2)] ∧
    length (Bootstrap.attempts sh')
    = (length (Bootstrap.attempts sh) + 5)%nat ∧
    Bootstrap.slept sh' = Bootstrap.slept sh.
Proof.
  intros Hplain Hbad Hgood Hu1 Hu2 Hinvalid.
  assert (∀ sh0 : Bootstrap.shell,
            Bootstrap.attempts sh0 = Bootstrap.attempts sh →
            Bootstrap.slept sh0 = Bootstrap.slept sh →
            ∃ sh' cmds cmd,
              Bootstrap.commands file = Some cmds ∧
              cmds !! 0%nat = Some cmd ∧
              cmd = "curl -f --compressed -Lo " +:+ file
                    +:+ " --connect-timeout 20 --retry 6 --retry-delay 10" ∧
              Bootstrap.download_loop sha256 run (Datatypes.S fuel) file H
                [u1; u2] sh0 = Some sh' ∧
              Bootstrap.fs sh' !! file = Some good ∧
              Bootstrap.attempts sh' =
                Bootstrap.attempts sh
                ++ ((λ cmd, (cmd, u1)) <$> cmds) ++ [(cmd, u2)] ∧
              Bootstrap.slept sh' = Bootstrap.slept sh) as Hloop.
  { intros sh0 Hat0 Hslept0.
    destruct (two_mirrors_one_pass sha256 run file H u1 u2 bad good
                Hplain Hbad Hgood Hu1 Hu2 fuel sh0)
      as (sh' & cmds & cmd & ? & _ & ? & ? & ? & ? & Hat & Hslept).
    exists sh', cmds, cmd. by rewrite <- Hat0, <- Hslept0. }
  assert (∃ sh' cmds cmd,
            Bootstrap.commands file = Some cmds ∧
            cmds !! 0%nat = Some cmd ∧
            cmd = "curl -f --compressed -Lo " +:+ file
                  +:+ " --connect-timeout 20 --retry 6 --retry-delay 10" ∧
            Bootstrap.download_or_bust sha256 run (Datatypes.S fuel) file H
              [u1; u2] sh = Some (0, sh') ∧
            Bootstrap.fs sh' !! file = Some good ∧
            Bootstrap.attempts sh' =
              Bootstrap.attempts sh
              ++ ((λ cmd, (cmd, u1)) <$> cmds) ++ [(cmd, u2)] ∧
            Bootstrap.slept sh' = Bootstrap.slept sh)
    as (sh' & cmds & cmd & Hcmds & Hfirst & -> & Hrun & Hfs & Hat & Hslept).
  { unfold Bootstrap.download_or_bust. case_bool_decide as Hfile.
    - destruct Hfile as [bytes Hbytes].
      destruct (BootstrapFacts.validate_hash_spec sha256 file Hplain H sh)
        as (valid & sh1 & -> & Hv & _ & Hat1 & Hslept1 & _).
      rewrite (BootstrapFacts.actual_hash_lookup sha256 file Hplain _ bytes)
        in Hv by done.
      rewrite bool_decide_eq_false_2 in Hv
        by (intros [= ?]; by eapply Hinvalid).
      subst valid. cbn [negb].
      destruct (Hloop (Bootstrap.rm_f file sh1))
        as (sh' & cmds & cmd & ? & ? & ? & -> & ?); [done..|].
      by exists sh', cmds, cmd.
    - destruct (Hloop sh) as (sh' & cmds & cmd & ? & ? & ? & -> & ?);
        [done..|].
      by exists sh', cmds, cmd. }
  unfold Bootstrap.commands in Hcmds. rewrite Hplain in Hcmds.
  injection Hcmds as <-.
  exists sh'. split_and!; [done..| |done| |done].
  - by rewrite (BootstrapFacts.actual_hash_lookup sha256 file Hplain _ good),
      Hgood.
  - rewrite Hat, !length_app. cbn. lia.
Qed.

Lemma C8_wrong_mirror_then_right_mirror_witness :
  ∃ sh',
    Bootstrap.download_or_bust Bootstrap.demo_sha256 Bootstrap.demo_run 1
      "nodeup" "[nodeup-binary]" [Bootstrap.demo_u1; Bootstrap.demo_u2]
      Bootstrap.demo_shell = Some (0, sh') ∧
    Bootstrap.fs sh' !! "nodeup" = Some "nodeup-binary" ∧
    length (Bootstrap.attempts sh') = 5%nat.
Proof.
  destruct (C8_wrong_mirror_then_right_mirror
              Bootstrap.demo_sha256 Bootstrap.demo_run 0 "nodeup"
              "[nodeup-binary]" Bootstrap.demo_u1 Bootstrap.demo_u2
              "junk" "nodeup-binary" Bootstrap.demo_shell)
    as (sh' & Hrun & Hfs & _ & _ & Hlen & _);
    [reflexivity|discriminate|reflexivity|reflexivity|reflexivity|done|].
  exists sh'. split_and!; [exact Hrun|exact Hfs|exact Hlen].
Defined.

(** * Further properties of the code *)

(** ** [IdentifyNode]: errors of the provider id *)

(** X1: a node without provider id is refused with the error that names the
    node; any other malformed provider id with the error that quotes the
    provider id and names the node. In both cases the call ends there:
    nothing is read from the cache, nothing is asked of EC2. *)
Theorem X1_provider_id_errors {S} `{!Store S}
    (i : nodeIdentifier) (node : Node) (w : world S) :
  (ProviderID node = "" →
   IdentifyNode i node w = (Err (ErrProviderIDNotSet (NodeName node)), w)) ∧
  (ProviderID node ≠ "" →
   malformed (ProviderID node) →
   IdentifyNode i node w =
   (Err (ErrProviderIDNotRecognized (ProviderID node) (NodeName node)), w)).
Proof.
  split.
  - intros Hempty. apply IdentifyNode_parse_Err.
    unfold parseProviderID. by rewrite bool_decide_eq_true_2.
  - intros Hset [?|[Hscheme|Hlen]]; [done| |];
      apply IdentifyNode_parse_Err; unfold parseProviderID;
      rewrite bool_decide_eq_false_2 by done.
    + by rewrite Hscheme.
    + destruct (GoStrings.HasPrefix _ _); cbn [negb]; [|done].
      by rewrite bool_decide_eq_true_2.
Qed.

Lemma X1_provider_id_errors_witness :
  IdentifyNode (demo_client [[demo_running]] true)
    {| NodeName := "ip-10-0-0-2"; ProviderID := "" |} demo_world
  = (Err (ErrProviderIDNotSet "ip-10-0-0-2"), demo_world) ∧
  IdentifyNode (demo_client [[demo_running]] true)
    {| NodeName := "ip-10-0-0-2"; ProviderID := "aws:///us-test-1a/i-0abc/" |}
    demo_world
  = (Err (ErrProviderIDNotRecognized "aws:///us-test-1a/i-0abc/" "ip-10-0-0-2"),
     demo_world).
Proof.
  split.
  - apply (X1_provider_id_errors (demo_client [[demo_running]] true)
             {| NodeName := "ip-10-0-0-2"; ProviderID := "" |} demo_world).
    reflexivity.
  - apply (X1_provider_id_errors (demo_client [[demo_running]] true)
             {| NodeName := "ip-10-0-0-2";
                ProviderID := "aws:///us-test-1a/i-0abc/" |} demo_world).
    + discriminate.
    + right; right. by vm_compute.
Defined.

(** ** [IdentifyNode]: what one call does, and in which order *)

Section CallShape.
Context {S : Type} `{!Store S}.
Implicit Types (i : nodeIdentifier) (node : Node) (w : world S).

(** The EC2 step, with the world it leaves. *)
Lemma identifyFromEC2_shape i id w r w' :
  identifyFromEC2 i id w = (r, w') →
  ∃ writes,
    trace w' =
      trace w ++ [EvDescribeInstances {| ec2.InstanceIds := [id] |}] ++ writes ∧
    ((writes = [] ∧ cache w' = cache w ∧
      (cacheEnabled i = true → ∃ e, r = Err e)) ∨
     (∃ inst,
        let info := {| InstanceID := id; Labels := deriveLabels inst |} in
        r = Ok info ∧ cacheEnabled i = true ∧
        writes = addEvents info (Add info (cache w)).1 ∧
        cache w' = (Add info (cache w)).2)) ∧
    (∀ e, r = Err e → fromEC2 i id e) ∧ r ≠ Panic.
Proof.
  intros Hrun.
  destruct (identifyFromEC2_cases i id w)
    as [(e & He & Hfrom)|(inst & _ & _ & Hok)].
  - rewrite He in Hrun. injection Hrun as <- <-. exists [].
    split_and!; [done|left; eauto|by intros ? [= <-]|done].
  - rewrite Hok in Hrun. cbn zeta in Hrun.
    destruct (cacheEnabled i) eqn:Hon; injection Hrun as <- <-.
    + eexists. split_and!; [cbn; by rewrite <- (assoc_L (++))| |done..].
      right. by exists inst.
    + exists []. split_and!; [done|left|done..]. by split_and!.
Qed.

End CallShape.

Section CallOrder.
Context {S : Type} `{!Store S}.
Implicit Types (i : nodeIdentifier) (node : Node) (w : world S).

(** The events of one call, and the cache it leaves. *)
Lemma IdentifyNode_shape i node w r w' :
  IdentifyNode i node w = (r, w') →
  ∃ reads calls writes,
    trace w' = trace w ++ reads ++ calls ++ writes ∧
    (reads = [] ∨
     ∃ id err, parseProviderID node = Ok id ∧ cacheEnabled i = true ∧
               reads = lookupEvents id err) ∧
    (calls = [] ∨
     ∃ id, parseProviderID node = Ok id ∧
           calls = [EvDescribeInstances {| ec2.InstanceIds := [id] |}]) ∧
    (writes = [] ∨
     ∃ id inst err,
       let info := {| InstanceID := id; Labels := deriveLabels inst |} in
       parseProviderID node = Ok id ∧ r = Ok info ∧
       cacheEnabled i = true ∧ calls ≠ [] ∧ writes = addEvents info err).
Proof.
  destruct (parseProviderID node) as [id|e|] eqn:Hparse.
  - rewrite (IdentifyNode_parse_Ok _ _ _ _ Hparse).
    destruct (cacheEnabled i) eqn:Hon.
    + destruct (GetByKey id (cache w)) as [[[obj ex] err] c] eqn:Hget.
      rewrite (cacheLookup_enabled _ _ _ _ _ _ _ Hon Hget). cbn zeta.
      destruct ex.
      * intros Hhit. exists (lookupEvents id err), [], [].
        split_and!; [|right; eauto|by left|by left].
        rewrite !app_nil_r.
        destruct obj; by injection Hhit as <- <-.
      * intros Hrun.
        destruct (identifyFromEC2_shape _ _ _ _ _ Hrun)
          as (writes & Ht & Hw & _).
        exists (lookupEvents id err),
               [EvDescribeInstances {| ec2.InstanceIds := [id] |}], writes.
        cbn [trace] in Ht.
        split_and!; [by rewrite Ht, <- !(assoc_L (++))|right; eauto|right; eauto|].
        destruct Hw as [(-> & _)|(inst & -> & _ & -> & _)]; [by left|right].
        by eexists _, inst, _.
    + rewrite cacheLookup_disabled by done. intros Hrun.
      destruct (identifyFromEC2_shape _ _ _ _ _ Hrun)
        as (writes & Ht & Hw & _).
      exists [], [EvDescribeInstances {| ec2.InstanceIds := [id] |}], writes.
      split_and!; [done|by left|right; eauto|].
      destruct Hw as [(-> & _)|(inst & _ & ? & _)]; [by left|congruence].
  - rewrite (IdentifyNode_parse_Err _ _ _ _ Hparse). intros [= <- <-].
    exists [], [], []. rewrite app_nil_r. auto.
  - by destruct (parse_no_panic node).
Qed.

End CallOrder.

(** X2: one call makes at most one cache read, then at most one EC2 call,
    then at most one cache write, in this order. The cache is read and
    written with caching enabled only; EC2 is asked for the parsed instance
    id only; and the cache is written only after EC2 was asked, on the path
    that returns the [Info] written. *)
Theorem X2_one_read_one_call_one_write {S} `{!Store S}
    (i : nodeIdentifier) (node : Node) (w w' : world S) (r : outcome Info) :
  IdentifyNode i node w = (r, w') →
  ∃ reads calls writes,
    trace w' = trace w ++ reads ++ calls ++ writes ∧
    (reads = [] ∨
     ∃ id err, parseProviderID node = Ok id ∧ cacheEnabled i = true ∧
               reads = lookupEvents id err) ∧
    (calls = [] ∨
     ∃ id, parseProviderID node = Ok id ∧
           calls = [EvDescribeInstances {| ec2.InstanceIds := [id] |}]) ∧
    (writes = [] ∨
     ∃ info err, r = Ok info ∧ cacheEnabled i = true ∧ calls ≠ [] ∧
                 writes = addEvents info err).
Proof.
  intros (reads & calls & writes & Ht & Hreads & Hcalls & Hwrites)
    %IdentifyNode_shape.
  exists reads, calls, writes. split_and!; [done..|].
  destruct Hwrites as [->|(id & inst & err & _ & ? & ? & ? & ?)];
    [by left|right]. by eexists _, _.
Qed.

Lemma X2_one_read_one_call_one_write_witness :
  ∃ reads calls writes,
    trace (IdentifyNode (demo_client [[demo_running]] true) demo_node
             demo_world).2
    = trace demo_world ++ reads ++ calls ++ writes ∧
    (reads = [] ∨
     ∃ id err, parseProviderID demo_node = Ok id ∧ true = true ∧
               reads = lookupEvents id err) ∧
    (calls = [] ∨
     ∃ id, parseProviderID demo_node = Ok id ∧
           calls = [EvDescribeInstances {| ec2.InstanceIds := [id] |}]) ∧
    (writes = [] ∨
     ∃ info err,
       Ok {| InstanceID := "i-0abc"; Labels := deriveLabels demo_running |}
       = Ok info ∧ true = true ∧ calls ≠ [] ∧ writes = addEvents info err).
Proof.
  apply (X2_one_read_one_call_one_write (demo_client [[demo_running]] true)
           demo_node demo_world).
  reflexivity.
Defined.

(** X3: with caching disabled the cache is never touched: its state is what
    it was, no cache read or write is made and no warning is logged; a
    provider id that parses costs exactly the one EC2 call for its instance
    id. *)
Theorem X3_caching_disabled_leaves_cache_alone {S} `{!Store S}
    (i : nodeIdentifier) (node : Node) (w w' : world S) (r : outcome Info) :
  cacheEnabled i = false →
  IdentifyNode i node w = (r, w') →
  cache w' = cache w ∧
  match parseProviderID node with
  | Ok id =>
      trace w' =
      trace w ++ [EvDescribeInstances {| ec2.InstanceIds := [id] |}]
  | _ => trace w' = trace w
  end.
Proof.
  intros Hoff.
  destruct (parseProviderID node) as [id|e|] eqn:Hparse.
  - rewrite (IdentifyNode_parse_Ok _ _ _ _ Hparse).
    rewrite cacheLookup_disabled by done. intros Hrun.
    destruct (identifyFromEC2_shape _ _ _ _ _ Hrun)
      as (writes & Ht & [(-> & Hc & _)|(inst & _ & ? & _)] & _); [|congruence].
    by rewrite Ht.
  - rewrite (IdentifyNode_parse_Err _ _ _ _ Hparse). by intros [= <- <-].
  - by destruct (parse_no_panic node).
Qed.

Lemma X3_caching_disabled_leaves_cache_alone_witness :
  cache (IdentifyNode (demo_client [[demo_running]] false) demo_node
           demo_broken).2 = cache demo_broken ∧
  trace (IdentifyNode (demo_client [[demo_running]] false) demo_node
           demo_broken).2
  = [EvDescribeInstances {| ec2.InstanceIds := ["i-0abc"] |}].
Proof.
  apply (X3_caching_disabled_leaves_cache_alone
           (demo_client [[demo_running]] false) demo_node demo_broken
           _ (IdentifyNode (demo_client [[demo_running]] false) demo_node
                demo_broken).1);
    reflexivity.
Defined.

(** ** [IdentifyNode]: the cache path and the EC2 errors *)

Lemma cloudCalls_lookupEvents (t : list event) (key : string)
    (err : option string) :
  cloudCalls (t ++ lookupEvents key err) = cloudCalls t.
Proof.
  rewrite cloudCalls_app. unfold lookupEvents.
  destruct err; rewrite !filter_cons_False by (intros []); cbn; lia.
Qed.

(** X4: an [Info] found in the cache is returned as it is, whatever EC2
    would answer: no EC2 call is made, the state of the instance is not
    looked at again, and the cache is not written. *)
Theorem X4_cached_info_returned_unchecked {S} `{!Store S}
    (i : nodeIdentifier) (node : Node) (id : string) (w : world S)
    (cached : Info) (err : option string) (c : S) :
  parseProviderID node = Ok id →
  cacheEnabled i = true →
  GetByKey id (cache w) = ((Some cached, true, err), c) →
  IdentifyNode i node w = (Ok cached, World c (trace w ++ lookupEvents id err)) ∧
  cloudCalls (trace (IdentifyNode i node w).2) = cloudCalls (trace w) ∧
  filter isCacheWrite (lookupEvents id err) = [].
Proof.
  intros Hparse Hon Hget.
  assert (IdentifyNode i node w
          = (Ok cached, World c (trace w ++ lookupEvents id err))) as Hrun.
  { rewrite (IdentifyNode_parse_Ok _ _ _ _ Hparse).
    by rewrite (cacheLookup_enabled _ _ _ _ _ _ _ Hon Hget). }
  split_and!; [done| |by destruct err].
  rewrite Hrun. cbn [snd trace]. apply cloudCalls_lookupEvents.
Qed.

Lemma X4_cached_info_returned_unchecked_witness :
  let i := demo_client [[demo_running]] true in
  let w1 := (IdentifyNode i demo_node demo_world).2 in
  IdentifyNode (demo_client [[demo_stopped]] true) demo_node w1
  = (Ok {| InstanceID := "i-0abc"; Labels := deriveLabels demo_running |},
     World (cache w1) (trace w1 ++ [EvGetByKey "i-0abc"])).
Proof.
  intros i w1.
  apply (X4_cached_info_returned_unchecked
           (demo_client [[demo_stopped]] true) demo_node "i-0abc" w1
           {| InstanceID := "i-0abc"; Labels := deriveLabels demo_running |}
           None (cache w1));
    reflexivity.
Defined.

(** [getInstance] as a function of the EC2 answer. *)
Lemma getInstance_run {S} `{!Store S}
    (i : nodeIdentifier) (id : string) (w : world S) :
  getInstance i id w =
  (match ec2Client i {| ec2.InstanceIds := [id] |} with
   | inr cause => Err (ErrDescribeInstances cause)
   | inl resp =>
       match ec2.Reservations resp with
       | [] => Err (ErrMissingInstance id)
       | r0 :: _ =>
           match ec2.Instances r0 with
           | [] => Err (ErrMissingInstance id)
           | [inst] => Ok inst
           | _ :: _ :: _ => Err (ErrMultipleInstances id)
           end
       end
   end, described id w).
Proof.
  unfold getInstance. rewrite bind_run. cbn.
  destruct (ec2Client i _) as [resp|err]; [|done].
  destruct (ec2.Reservations resp) as [|r0 rs]; [done|].
  by destruct (ec2.Instances r0) as [|inst [|? ?]].
Qed.

(** X5: when the call reaches EC2, the failures of the lookup come back as
    they are: a failing EC2 call as the error that carries its cause, a
    response without reservation or with an empty first reservation as the
    missing-instance error, a first reservation of two or more instances as
    the multiple-instances error, each naming the instance id. The call ends
    right after the EC2 call; the cache is not written. *)
Theorem X5_lookup_failures {S} `{!Store S}
    (i : nodeIdentifier) (node : Node) (id : string) (w w1 : world S) :
  parseProviderID node = Ok id →
  cacheLookup i id w = (Ok None, w1) →
  (∀ cause,
     ec2Client i {| ec2.InstanceIds := [id] |} = inr cause →
     IdentifyNode i node w
     = (Err (ErrDescribeInstances cause), described id w1)) ∧
  (∀ resp,
     ec2Client i {| ec2.InstanceIds := [id] |} = inl resp →
     ec2.Instances <$> head (ec2.Reservations resp) ∈ [None; Some []] →
     IdentifyNode i node w = (Err (ErrMissingInstance id), described id w1)) ∧
  (∀ resp r0 rs,
     ec2Client i {| ec2.InstanceIds := [id] |} = inl resp →
     ec2.Reservations resp = r0 :: rs →
     (2 ≤ length (ec2.Instances r0))%nat →
     IdentifyNode i node w = (Err (ErrMultipleInstances id), described id w1)).
Proof.
  intros Hparse Hmiss.
  rewrite (IdentifyNode_parse_Ok _ _ _ _ Hparse), Hmiss.
  split_and!.
  - intros cause Hec2. apply identifyFromEC2_getInstance_Err.
    by rewrite getInstance_run, Hec2.
  - intros resp Hec2 Hnone. apply identifyFromEC2_getInstance_Err.
    rewrite getInstance_run, Hec2.
    destruct (ec2.Reservations resp) as [|r0 rs]; [done|]. cbn in Hnone.
    destruct (ec2.Instances r0) as [|inst insts]; [done|].
    apply elem_of_cons in Hnone as [?|Hnone]; [done|].
    by apply list_elem_of_singleton in Hnone.
  - intros resp r0 rs Hec2 Hres Hmany. apply identifyFromEC2_getInstance_Err.
    rewrite getInstance_run, Hec2, Hres.
    destruct (ec2.Instances r0) as [|inst [|inst' insts]]; cbn in Hmany;
      [lia..|done].
Qed.

Lemma X5_lookup_failures_witness :
  IdentifyNode {| ec2Client := λ _, inr "RequestLimitExceeded";
                  cacheEnabled := false |} demo_node demo_world
  = (Err (ErrDescribeInstances "RequestLimitExceeded"),
     described "i-0abc" demo_world) ∧
  IdentifyNode (demo_client [] false) demo_node demo_world
  = (Err (ErrMissingInstance "i-0abc"), described "i-0abc" demo_world) ∧
  IdentifyNode (demo_client [[demo_running; demo_stopped]] false) demo_node
    demo_world
  = (Err (ErrMultipleInstances "i-0abc"), described "i-0abc" demo_world).
Proof.
  split_and!.
  - apply (X5_lookup_failures
             {| ec2Client := λ _, inr "RequestLimitExceeded";
                cacheEnabled := false |} demo_node "i-0abc" demo_world
             demo_world); reflexivity.
  - eapply (X5_lookup_failures (demo_client [] false) demo_node "i-0abc"
              demo_world demo_world); [reflexivity..|].
    apply list_elem_of_here.
  - eapply (X5_lookup_failures
              (demo_client [[demo_running; demo_stopped]] false) demo_node
              "i-0abc" demo_world demo_world); [reflexivity..|].
    cbn. lia.
Defined.

Lemma lookupEvents_elem (key : string) (err : option string) (ev : event) :
  ev ∈ lookupEvents key err → ev = EvGetByKey key ∨ ∃ m, ev = EvWarning m.
Proof.
  unfold lookupEvents. destruct err as [e|];
    rewrite ?elem_of_cons, ?elem_of_nil.
  - intros [->|[->|[]]]; eauto.
  - intros [->|[]]; eauto.
Qed.

Lemma addEvents_elem (obj : Info) (err : option string) (ev : event) :
  ev ∈ addEvents obj err → ev = EvAdd obj ∨ ∃ m, ev = EvWarning m.
Proof.
  unfold addEvents. destruct err as [e|];
    rewrite ?elem_of_cons, ?elem_of_nil.
  - intros [->|[->|[]]]; eauto.
  - intros [->|[]]; eauto.
Qed.

(** X6: the cache is keyed by the instance id of the node. Every key the
    call looks up, every instance id it sends to EC2 and the key under which
    [stringKeyFunc] files every [Info] it stores are the instance id parsed
    from the node's provider id; and an [Info] resolved through EC2 carries
    that instance id. *)
Theorem X6_cache_key_is_instance_id {S} `{!Store S}
    (i : nodeIdentifier) (node : Node) (w w' : world S) (r : outcome Info) :
  IdentifyNode i node w = (r, w') →
  ∃ evs,
    trace w' = trace w ++ evs ∧
    (∀ key, EvGetByKey key ∈ evs → parseProviderID node = Ok key) ∧
    (∀ ids, EvDescribeInstances {| ec2.InstanceIds := ids |} ∈ evs →
            ∃ id, parseProviderID node = Ok id ∧ ids = [id]) ∧
    (∀ obj, EvAdd obj ∈ evs →
            r = Ok obj ∧
            ∃ id, parseProviderID node = Ok id ∧
                  stringKeyFunc obj = (id, None)) ∧
    (∀ obj, r = Ok obj → filter isCloudCall evs ≠ [] →
            parseProviderID node = Ok (InstanceID obj)).
Proof.
  intros Hrun.
  destruct (IdentifyNode_events _ _ _ _ _ Hrun) as (evs0 & Ht0 & Hr0).
  destruct (IdentifyNode_shape _ _ _ _ _ Hrun)
    as (reads & calls & writes & Ht & Hreads & Hcalls & Hwrites).
  exists (reads ++ calls ++ writes). split; [done|].
  assert (∀ ev, ev ∈ reads ++ calls ++ writes →
                ev ∈ reads ∨ ev ∈ calls ∨ ev ∈ writes) as Hsplit.
  { intros ev. rewrite !elem_of_app. tauto. }
  assert (∀ ev, ev ∈ reads → ∃ id err, parseProviderID node = Ok id ∧
                                       ev ∈ lookupEvents id err) as Hin_reads.
  { intros ev Hev. destruct Hreads as [->|(id & err & ? & _ & ->)].
    - by apply elem_of_nil in Hev.
    - eauto. }
  assert (∀ ev, ev ∈ calls →
                ∃ id, parseProviderID node = Ok id ∧
                      ev = EvDescribeInstances {| ec2.InstanceIds := [id] |})
    as Hin_calls.
  { intros ev Hev. destruct Hcalls as [->|(id & ? & ->)].
    - by apply elem_of_nil in Hev.
    - apply list_elem_of_singleton in Hev. eauto. }
  assert (∀ ev, ev ∈ writes →
                ∃ id inst err,
                  parseProviderID node = Ok id ∧
                  r = Ok {| InstanceID := id; Labels := deriveLabels inst |} ∧
                  ev ∈ addEvents
                         {| InstanceID := id; Labels := deriveLabels inst |}
                         err) as Hin_writes.
  { intros ev Hev.
    destruct Hwrites as [->|(id & inst & err & ? & ? & _ & _ & ->)].
    - by apply elem_of_nil in Hev.
    - eauto 10. }
  pose proof lookupEvents_elem as Hlookup.
  pose proof addEvents_elem as Hadd.
  split_and!.
  - intros key [Hev|[Hev|Hev]]%Hsplit.
    + destruct (Hin_reads _ Hev) as (id & err & ? & [?|[? ?]]%Hlookup);
        congruence.
    + destruct (Hin_calls _ Hev) as (? & _ & ?). done.
    + destruct (Hin_writes _ Hev) as (? & ? & ? & _ & _ & [?|[? ?]]%Hadd);
        done.
  - intros ids [Hev|[Hev|Hev]]%Hsplit.
    + destruct (Hin_reads _ Hev) as (id & err & ? & [?|[? ?]]%Hlookup); done.
    + destruct (Hin_calls _ Hev) as (id & ? & [= ->]). eauto.
    + destruct (Hin_writes _ Hev) as (? & ? & ? & _ & _ & [?|[? ?]]%Hadd);
        done.
  - intros obj [Hev|[Hev|Hev]]%Hsplit.
    + destruct (Hin_reads _ Hev) as (id & err & ? & [?|[? ?]]%Hlookup); done.
    + destruct (Hin_calls _ Hev) as (? & _ & ?). done.
    + destruct (Hin_writes _ Hev)
        as (id & inst & err & ? & -> & [[= ->]|[? ?]]%Hadd); [|done].
      split; [done|]. by exists id.
  - intros obj -> Hcalled.
    destruct (parseProviderID node) as [id|e|] eqn:Hparse.
    + revert Hrun. rewrite (IdentifyNode_parse_Ok _ _ _ _ Hparse).
      destruct (cacheLookup i id w) as [r1 w1] eqn:Hlookup1.
      destruct (cacheLookup_inv _ _ _ _ _ Hlookup1)
        as (_ & evs1 & Ht1 & _ & Hnocall1).
      destruct r1 as [[info|]|e|]; [| |done..].
      * intros [= -> <-]. rewrite Ht1 in Ht.
        apply (inj (app (trace w))) in Ht. rewrite <- Ht in Hcalled. done.
      * intros Hec2.
        destruct (identifyFromEC2_cases i id w1)
          as [(e & He & _)|(inst & _ & _ & Hok)]; [congruence|].
        rewrite Hok in Hec2. cbn zeta in Hec2.
        destruct (cacheEnabled i); by injection Hec2 as <- _.
    + by rewrite (IdentifyNode_parse_Err _ _ _ _ Hparse) in Hrun.
    + by destruct (parse_no_panic node).
Qed.

Lemma X6_cache_key_is_instance_id_witness :
  ∃ evs,
    trace (IdentifyNode (demo_client [[demo_running]] true) demo_node
             demo_world).2 = trace demo_world ++ evs ∧
    (∀ obj, EvAdd obj ∈ evs →
            Ok {| InstanceID := "i-0abc"; Labels := deriveLabels demo_running |}
            = Ok obj ∧
            ∃ id, parseProviderID demo_node = Ok id ∧
                  stringKeyFunc obj = (id, None)).
Proof.
  destruct (X6_cache_key_is_instance_id (demo_client [[demo_running]] true)
              demo_node demo_world
              (IdentifyNode (demo_client [[demo_running]] true) demo_node
                 demo_world).2
              (Ok {| InstanceID := "i-0abc";
                     Labels := deriveLabels demo_running |}))
    as (evs & Ht & _ & _ & Hadd & _); [reflexivity|].
  exists evs. split; [exact Ht|exact Hadd].
Defined.

(** ** [IdentifyNode] over the TTL store *)

Section TTLCalls.
Implicit Types (i : nodeIdentifier) (node : Node) (w : world TTLStore).

(** Time passing keeps what is stored as it is. *)
Lemma elapse_entries d w :
  entries (cache (elapse d w)) = entries (cache w) ∧
  clock (cache (elapse d w)) = clock (cache w) + d ∧
  ttl (cache (elapse d w)) = ttl (cache w) ∧
  trace (elapse d w) = trace w.
Proof. done. Qed.

(** A call that went to EC2 found no live entry. *)
Lemma IdentifyNode_ttl_called i node id w r w' :
  parseProviderID node = Ok id →
  cacheEnabled i = true →
  IdentifyNode i node w = (r, w') →
  cloudCalls (trace w') ≠ cloudCalls (trace w) →
  (∀ e, entries (cache w) !! id = Some e →
        clock (cache w) - insertedAt e > ttl (cache w)) ∧
  identifyFromEC2 i id (World (cache w) (trace w ++ [EvGetByKey id]))
  = (r, w').
Proof.
  intros Hparse Hon Hrun Hcalled.
  assert (∀ e, entries (cache w) !! id = Some e →
               clock (cache w) - insertedAt e > ttl (cache w)) as Hdead.
  { intros e Hentry.
    destruct (decide (clock (cache w) - insertedAt e ≤ ttl (cache w)))
      as [Hage|Hage]; [|lia].
    rewrite (IdentifyNode_ttl_hit _ _ _ _ _ Hparse Hon Hentry Hage) in Hrun.
    injection Hrun as <- <-. cbn [trace] in Hcalled.
    by rewrite cloudCalls_snoc_other in Hcalled. }
  split; [done|]. by rewrite <- (IdentifyNode_ttl_miss _ _ _ _ Hparse Hon Hdead).
Qed.

End TTLCalls.

(** X7: failures are not cached. With the TTL store, a call that returns an
    error makes no cache write and adds no entry: every entry of the cache
    after the call was an entry before it (stated so as to hold of a store
    that drops the expired entries it comes across, too). And when the
    provider id parses, the next call for the node, at any later time, asks
    EC2 again. *)
Theorem X7_failures_are_not_cached
    (i i2 : nodeIdentifier) (node : Node) (w w' : world TTLStore)
    (e : error) (d : Z) :
  cacheEnabled i = true →
  cacheEnabled i2 = true →
  IdentifyNode i node w = (Err e, w') →
  0 ≤ d →
  (∃ evs, trace w' = trace w ++ evs ∧ filter isCacheWrite evs = []) ∧
  entries (cache w') ⊆ entries (cache w) ∧
  (∀ id, parseProviderID node = Ok id →
         cloudCalls (trace (IdentifyNode i2 node (elapse d w')).2)
         = Datatypes.S (cloudCalls (trace w'))).
Proof.
  intros Hon Hon2 Hrun Hd.
  split.
  { destruct (IdentifyNode_events _ _ _ _ _ Hrun) as (evs & Ht & Hw & _).
    by exists evs. }
  destruct (parseProviderID node) as [id|e0|] eqn:Hparse.
  - assert (cloudCalls (trace w') ≠ cloudCalls (trace w)) as Hcalled.
    { intros Hsame.
      destruct (IdentifyNode_ttl_served _ _ _ _ _ _ Hparse Hrun Hsame)
        as (? & _ & ? & _). done. }
    destruct (IdentifyNode_ttl_called _ _ _ _ _ _ Hparse Hon Hrun Hcalled)
      as [Hdead Hec2].
    destruct (identifyFromEC2_shape _ _ _ _ _ Hec2)
      as (writes & _ & [(_ & Hcache & _)|(? & ? & _)] & _); [|done].
    cbn [cache] in Hcache. split; [by rewrite Hcache|].
    intros ? [= <-].
    rewrite (IdentifyNode_ttl_miss i2 node id (elapse d w')); [|done..|].
    + clear Hec2.
      destruct (identifyFromEC2 _ _ _) as [r2 w2] eqn:Hrun2.
      apply identifyFromEC2_cloudCalls in Hrun2.
      unfold elapse in Hrun2. cbn [snd trace] in *.
      by rewrite cloudCalls_snoc_other in Hrun2.
    + cbn. rewrite Hcache. intros e' He'. specialize (Hdead e' He'). lia.
  - rewrite (IdentifyNode_parse_Err _ _ _ _ Hparse) in Hrun.
    injection Hrun as _ <-. by split.
  - by destruct (parse_no_panic node).
Qed.

Lemma X7_failures_are_not_cached_witness :
  let i := demo_client [[demo_stopped]] true in
  let w' := (IdentifyNode i demo_node demo_world).2 in
  entries (cache w') ⊆ entries (cache demo_world) ∧
  cloudCalls (trace (IdentifyNode i demo_node (elapse time.Minute w')).2)
  = 2%nat.
Proof.
  intros i w'.
  destruct (X7_failures_are_not_cached i i demo_node demo_world w'
              (ErrInstanceState "i-0abc" "stopped") time.Minute)
    as (_ & Hcache & Hnext); [reflexivity..|by vm_compute|].
  split; [exact Hcache|]. exact (Hnext "i-0abc" eq_refl).
Defined.

(** X8: with the TTL store, a call that resolves the node through EC2 files
    the [Info] it returns under the node's instance id, stamped with the
    time of the call, in place of whatever was filed there, and leaves every
    other entry alone; for one TTL from then on, calls for the node return
    that [Info] from the cache. A call served from the cache leaves the
    store as it is: being read does not prolong an entry. *)
Theorem X8_refresh_replaces_own_entry
    (i i2 : nodeIdentifier) (node : Node) (id : string)
    (w w1 : world TTLStore) (obj : Info) (d : Z) :
  keyFunc (cache w) = stringKeyFunc →
  parseProviderID node = Ok id →
  cacheEnabled i = true →
  cacheEnabled i2 = true →
  IdentifyNode i node w = (Ok obj, w1) →
  0 ≤ d ≤ ttl (cache w) →
  (cloudCalls (trace w1) = cloudCalls (trace w) → cache w1 = cache w) ∧
  (cloudCalls (trace w1) ≠ cloudCalls (trace w) →
   entries (cache w1)
   = <[id := {| info := obj; insertedAt := clock (cache w) |}]>
       (entries (cache w)) ∧
   (∀ other, other ≠ id →
             entries (cache w1) !! other = entries (cache w) !! other) ∧
   clock (cache w1) = clock (cache w) ∧
   IdentifyNode i2 node (elapse d w1)
   = (Ok obj, World (cache (elapse d w1)) (trace w1 ++ [EvGetByKey id]))).
Proof.
  intros Hkey Hparse Hon Hon2 Hrun Hd. split.
  - intros Hsame.
    destruct (IdentifyNode_ttl_served _ _ _ _ _ _ Hparse Hrun Hsame)
      as (e & Hentry & _ & Hage).
    rewrite (IdentifyNode_ttl_hit _ _ _ _ _ Hparse Hon Hentry Hage) in Hrun.
    by injection Hrun as _ <-.
  - intros Hcalled.
    destruct (IdentifyNode_ttl_called _ _ _ _ _ _ Hparse Hon Hrun Hcalled)
      as [_ Hec2].
    destruct (identifyFromEC2_shape _ _ _ _ _ Hec2)
      as (writes & _ & [(_ & _ & Herr)|(inst & Hobj & _ & _ & Hcache)] & _).
    { destruct (Herr Hon) as [? ?]. done. }
    cbn zeta in Hobj, Hcache. injection Hobj as ->.
    cbn [cache Add TTLStore_Store] in Hcache. unfold ttlPut in Hcache.
    rewrite Hkey in Hcache. cbn in Hcache.
    assert (entries (cache w1)
            = <[id := {| info := {| InstanceID := id;
                                    Labels := deriveLabels inst |};
                         insertedAt := clock (cache w) |}]>
                (entries (cache w))) as Hentries by (by rewrite Hcache).
    assert (clock (cache w1) = clock (cache w)) as Hclock
      by (by rewrite Hcache).
    assert (ttl (cache w1) = ttl (cache w)) as Httl by (by rewrite Hcache).
    split_and!; [done| |done|].
    + intros other Hother. rewrite Hentries. by apply lookup_insert_ne.
    + apply (IdentifyNode_ttl_hit i2 node id (elapse d w1)
               {| info := {| InstanceID := id; Labels := deriveLabels inst |};
                  insertedAt := clock (cache w) |}); [done..| |].
      * cbn. rewrite Hentries. apply lookup_insert_eq.
      * cbn. rewrite Hclock, Httl. lia.
Qed.

Lemma X8_refresh_replaces_own_entry_witness :
  let i := demo_client [[demo_running]] true in
  let obj := {| InstanceID := "i-0abc"; Labels := deriveLabels demo_running |} in
  let w0 := elapse (61 * time.Minute) (IdentifyNode i demo_node demo_world).2 in
  let w1 := (IdentifyNode i demo_node w0).2 in
  entries (cache w1)
  = <["i-0abc" := {| info := obj; insertedAt := 61 * time.Minute |}]>
      (entries (cache w0)) ∧
  (IdentifyNode (demo_client [] true) demo_node
     (elapse (60 * time.Minute) w1)).1 = Ok obj.
Proof.
  intros i obj w0 w1.
  destruct (X8_refresh_replaces_own_entry i (demo_client [] true) demo_node
              "i-0abc" w0 w1 obj (60 * time.Minute))
    as [_ Hcalled]; [reflexivity..|split; by vm_compute|].
  destruct Hcalled as (Hentries & _ & _ & Hnext); [by vm_compute|].
  split; [exact Hentries|]. by rewrite Hnext.
Defined.

(** ** Labels and the order of the tags *)

Section LabelOrder.
Import GoStrings GoStringsFacts.
Implicit Types (labels : gmap string string) (tag : ec2.Tag).

(** When some tag carries label [k], the value of the label is that of one
    of the tags that carry it. *)
Lemma foldl_applyTag_carried labels tags k :
  Exists (λ tag, awssdk.StringValue (ec2.Key tag) = templateTag k) tags →
  ∃ tag, tag ∈ tags ∧
         awssdk.StringValue (ec2.Key tag) = templateTag k ∧
         foldl applyTag labels tags !! k
         = Some (awssdk.StringValue (ec2.Value tag)).
Proof.
  revert labels. induction tags as [|tag tags IH]; intros labels Hsome.
  { by apply Exists_nil in Hsome. }
  cbn [foldl].
  destruct (decide (Exists (λ tag, awssdk.StringValue (ec2.Key tag)
                                   = templateTag k) tags)) as [Hlater|Hnone].
  - destruct (IH (applyTag labels tag) Hlater) as (tag' & Hin & Hkey & Hlook).
    exists tag'. split; [by apply list_elem_of_further|done].
  - apply not_Exists_Forall in Hnone; [|apply _].
    apply Exists_cons in Hsome as [Hkey|Hlater].
    + exists tag. split; [apply list_elem_of_here|]. split; [done|].
      rewrite foldl_applyTag_others by done.
      rewrite applyTag_lookup. by rewrite decide_True.
    + apply Exists_exists in Hlater as (tag' & Hin & Hkey).
      rewrite Forall_forall in Hnone. by destruct (Hnone tag' Hin).
Qed.

End LabelOrder.

(** X9: the labels do not depend on the order of the tags as long as tags
    with the same prefixed key have the same value (in particular when the
    tag keys are distinct, as EC2 has them): two instances with the same
    lifecycle and the same tags in any order get the same labels. *)
Theorem X9_labels_independent_of_tag_order (inst inst' : ec2.Instance) :
  ec2.InstanceLifecycle inst = ec2.InstanceLifecycle inst' →
  ec2.Tags inst ≡ₚ ec2.Tags inst' →
  (∀ tag1 tag2,
     tag1 ∈ ec2.Tags inst → tag2 ∈ ec2.Tags inst →
     GoStrings.HasPrefix (awssdk.StringValue (ec2.Key tag1))
       ClusterAutoscalerNodeTemplateLabel = true →
     awssdk.StringValue (ec2.Key tag1) = awssdk.StringValue (ec2.Key tag2) →
     awssdk.StringValue (ec2.Value tag1)
     = awssdk.StringValue (ec2.Value tag2)) →
  deriveLabels inst = deriveLabels inst'.
Proof.
  intros Hlifecycle Hperm Hagree. apply map_eq. intros k.
  unfold deriveLabels, lifecycleLabels. rewrite <- Hlifecycle.
  set (start := match ec2.InstanceLifecycle inst with
                | Some lifecycle => <[lifecycleLabel lifecycle:="true"]> ∅
                | None => ∅
                end).
  destruct (decide (Exists (λ tag, awssdk.StringValue (ec2.Key tag)
                                   = templateTag k) (ec2.Tags inst)))
    as [Hsome|Hnone].
  - assert (Exists (λ tag, awssdk.StringValue (ec2.Key tag) = templateTag k)
              (ec2.Tags inst')) as Hsome'.
    { apply Exists_exists in Hsome as (tag & Hin & Hkey).
      apply Exists_exists. exists tag. by rewrite <- Hperm. }
    destruct (foldl_applyTag_carried start _ _ Hsome)
      as (tag1 & Hin1 & Hkey1 & ->).
    destruct (foldl_applyTag_carried start _ _ Hsome')
      as (tag2 & Hin2 & Hkey2 & ->).
    f_equal. apply Hagree; [done|by rewrite Hperm| |congruence].
    rewrite Hkey1. apply GoStringsFacts.HasPrefix_app.
  - apply not_Exists_Forall in Hnone; [|apply _].
    rewrite !foldl_applyTag_others; [done| |done].
    by rewrite <- Hperm.
Qed.

Lemma X9_labels_independent_of_tag_order_witness :
  deriveLabels demo_running =
  deriveLabels
    (demo_instance (Some "pending") (Some "spot")
       [ {| ec2.Key := Some "Name"; ec2.Value := Some "nodes-1" |};
         {| ec2.Key := Some (templateTag "foo"); ec2.Value := Some "bar" |} ]).
Proof.
  apply X9_labels_independent_of_tag_order; [reflexivity| |].
  - apply perm_swap.
  - intros tag1 tag2 Hin1 Hin2 Hprefix Hkey.
    apply elem_of_cons in Hin1 as [->|Hin1];
      [|apply list_elem_of_singleton in Hin1 as ->; discriminate].
    apply elem_of_cons in Hin2 as [->|Hin2]; [reflexivity|].
    apply list_elem_of_singleton in Hin2 as ->. discriminate.
Defined.

(** ** [download-or-bust]: passes, attempts and sleeps *)

Section FetchPasses.
Import Bootstrap BootstrapFacts.
Variable sha256 : string → string.
Variable run : nat → string → string → gmap string string → transfer.
Variable file : string.
Hypothesis file_plain : plain_word file = true.
Implicit Types (hash url cmd : string) (sh : shell).

(** The loop over the commands runs them in order, up to the one that
    returns, and all of them when none does. *)
Lemma try_commands_record hash url cmds sh returned sh' :
  try_commands sha256 run file hash url cmds sh = Some (returned, sh') →
  slept sh' = slept sh ∧
  ∃ n, (n ≤ length cmds)%nat ∧
       attempts sh' = attempts sh ++ ((λ cmd, (cmd, url)) <$> take n cmds) ∧
       if returned then (0 < n)%nat else n = length cmds.
Proof.
  revert sh. induction cmds as [|cmd cmds IH]; intros sh.
  - intros [= <- <-]. split; [done|]. exists 0%nat. by rewrite app_nil_r.
  - destruct (try_commands_cons sha256 run file file_plain hash url cmd cmds sh)
      as (sh1 & Hat & Hslept & [(_ & _ & _ & ->)|(_ & _ & ->)]).
    + intros [= <- <-]. split; [done|]. exists 1%nat. cbn.
      split_and!; [lia|by rewrite take_0|lia].
    + intros (Hslept' & n & Hn & Hat' & Hret)%IH.
      split; [congruence|]. exists (Datatypes.S n). cbn.
      split_and!; [lia| |destruct returned; lia].
      by rewrite Hat', Hat, <- (assoc_L (++)).
Qed.

(** The loop over the urls: a pass that does not return has run every
    command on every url; one that returns has run at least one command. *)
Lemma try_urls_record hash urls sh returned sh' :
  try_urls sha256 run file hash urls sh = Some (returned, sh') →
  slept sh' = slept sh ∧
  if returned then
    ∃ m, (0 < m ≤ 4 * length urls)%nat ∧
         length (attempts sh') = (length (attempts sh) + m)%nat
  else
    ∃ cmds, commands file = Some cmds ∧ length cmds = 4%nat ∧
            attempts sh' =
            attempts sh ++ (urls ≫= λ url, (λ cmd, (cmd, url)) <$> cmds).
Proof.
  destruct (commands_plain file file_plain) as (cmds & Hcmds & Hlen & _).
  revert sh. induction urls as [|url urls IH]; intros sh.
  - intros [= <- <-]. split; [done|]. exists cmds. by rewrite app_nil_r.
  - cbn [try_urls]. rewrite Hcmds.
    destruct (try_commands sha256 run file hash url cmds sh)
      as [[ret1 sh1]|] eqn:Hrun; [|done].
    destruct (try_commands_record _ _ _ _ _ _ Hrun)
      as (Hslept1 & n & Hn & Hat1 & Hret1).
    destruct ret1.
    + intros [= <- <-]. split; [done|]. exists n.
      split; [cbn; lia|]. rewrite Hat1, length_app, length_fmap.
      rewrite length_take. lia.
    + subst n. rewrite firstn_all in Hat1.
      intros (Hslept' & Hrest)%IH. split; [congruence|].
      destruct returned.
      * destruct Hrest as (m & Hm & Hlen'). exists (4 + m)%nat.
        split; [cbn; lia|]. rewrite Hlen', Hat1, length_app, length_fmap. lia.
      * destruct Hrest as (cmds' & Hcmds' & _ & Hrest).
        assert (cmds' = cmds) as -> by congruence.
        exists cmds. split_and!; [done..|].
        rewrite Hrest, Hat1, <- (assoc_L (++)). done.
Qed.



End FetchPasses.

(** X10: a file that is already at the destination (named by a plain word)
    with the expected digest makes [download-or-bust] return at once, and
    with status 1, the status of the failed test before the [return]: no
    command is run, nothing is echoed, nothing is slept, the files are
    untouched. So, for a non-empty expected digest, calling it again on the
    state in which it returned makes it return 1 at once. *)
Theorem X10_valid_file_short_circuits
    (sha256 : string → string)
    (run : nat → string → string → gmap string string → Bootstrap.transfer)
    (fuel fuel' : nat) (file hash : string) (urls urls' : list string)
    (sh : Bootstrap.shell) :
  Bootstrap.plain_word file = true →
  (∀ bytes,
     Bootstrap.fs sh !! file = Some bytes → sha256 bytes = hash →
     Bootstrap.download_or_bust sha256 run fuel file hash urls sh
     = Some (1, sh)) ∧
  (∀ status sh',
     hash ≠ "" →
     Bootstrap.download_or_bust sha256 run fuel file hash urls sh
     = Some (status, sh') →
     Bootstrap.download_or_bust sha256 run fuel' file hash urls' sh'
     = Some (1, sh')).
Proof.
  intros Hplain.
  assert (∀ (n : nat) (us : list string) (s : Bootstrap.shell) bytes,
            Bootstrap.fs s !! file = Some bytes → sha256 bytes = hash →
            Bootstrap.download_or_bust sha256 run n file hash us s
            = Some (1, s)) as Hshort.
  { intros n us s bytes Hfile Hhash. unfold Bootstrap.download_or_bust.
    rewrite bool_decide_eq_true_2 by eauto.
    destruct (BootstrapFacts.validate_hash_spec sha256 file Hplain hash s)
      as (valid & s1 & -> & Hv & _ & _ & _ & Hsame).
    rewrite (BootstrapFacts.actual_hash_lookup sha256 file Hplain _ bytes),
      Hhash, bool_decide_eq_true_2 in Hv by done.
    subst valid. cbn [negb]. by rewrite Hsame. }
  split; [apply Hshort|].
  intros status sh' Hne Hret.
  pose proof (BootstrapFacts.download_or_bust_returned sha256 run file Hplain
                _ _ _ _ _ _ Hret) as Hhash.
  destruct (BootstrapFacts.actual_hash_matches sha256 file Hplain hash _ Hhash)
    as [Hbytes Hsome].
  destruct (Hsome Hne) as [bytes Hfile]. eauto.
Qed.

Lemma X10_valid_file_short_circuits_witness :
  Bootstrap.download_or_bust Bootstrap.demo_sha256 Bootstrap.demo_run 0
    "nodeup" "[nodeup-binary]" [Bootstrap.demo_u1; Bootstrap.demo_u2]
    Bootstrap.demo_installed
  = Some (1, Bootstrap.demo_installed).
Proof.
  apply (X10_valid_file_short_circuits Bootstrap.demo_sha256
           Bootstrap.demo_run 0 0 "nodeup" "[nodeup-binary]"
           [Bootstrap.demo_u1; Bootstrap.demo_u2] [] Bootstrap.demo_installed)
    with (bytes := "nodeup-binary"); reflexivity.
Defined.



(** X12: a pass of the loop that does not return has run each of the four
    commands of the script on every url, url by url and in the order of the
    script; only then the function sleeps, 60 seconds, and starts the next
    pass. (The destination is named by a plain word.) *)
Theorem X12_full_pass_before_sleep
    (sha256 : string → string)
    (run : nat → string → string → gmap string string → Bootstrap.transfer)
    (fuel : nat) (file hash : string) (urls : list string)
    (sh sh1 : Bootstrap.shell) :
  Bootstrap.plain_word file = true →
  Bootstrap.try_urls sha256 run file hash urls sh = Some (false, sh1) →
  (∃ cmds,
     Bootstrap.commands file = Some cmds ∧ length cmds = 4%nat ∧
     Bootstrap.attempts sh1 =
       Bootstrap.attempts sh
       ++ (urls ≫= λ url, (λ cmd, (cmd, url)) <$> cmds)) ∧
  Bootstrap.slept sh1 = Bootstrap.slept sh ∧
  ∃ sh2,
    Bootstrap.download_loop sha256 run (Datatypes.S fuel) file hash urls sh
    = Bootstrap.download_loop sha256 run fuel file hash urls sh2 ∧
    Bootstrap.attempts sh2 = Bootstrap.attempts sh1 ∧
    Bootstrap.fs sh2 = Bootstrap.fs sh1 ∧
    Bootstrap.slept sh2 = Bootstrap.slept sh + 60.
Proof.
  intros Hplain Hpass.
  destruct (try_urls_record _ _ _ Hplain _ _ _ _ _ Hpass) as [Hslept Hat].
  split_and!; [done..|].
  cbn [Bootstrap.download_loop]. rewrite Hpass.
  eexists. split; [reflexivity|]. cbn. by rewrite Hslept.
Qed.

Lemma X12_full_pass_before_sleep_witness :
  let pass := default (false, Bootstrap.demo_shell)
                (Bootstrap.try_urls Bootstrap.demo_sha256 Bootstrap.demo_run
                   "nodeup" "[other]" [Bootstrap.demo_u1; Bootstrap.demo_u2]
                   Bootstrap.demo_shell) in
  length (Bootstrap.attempts pass.2) = 8%nat ∧
  Bootstrap.slept pass.2 = 0.
Proof.
  intros pass.
  destruct (X12_full_pass_before_sleep Bootstrap.demo_sha256
              Bootstrap.demo_run 0 "nodeup" "[other]"
              [Bootstrap.demo_u1; Bootstrap.demo_u2] Bootstrap.demo_shell
              pass.2) as ((cmds & Hcmds & Hlen & Hat) & Hslept & _);
    [reflexivity|by vm_compute|].
  split; [|exact Hslept].
  rewrite Hat. injection Hcmds as <-. reflexivity.
Defined.

Section FetchSleeps.
Import Bootstrap BootstrapFacts.
Variable sha256 : string → string.
Variable run : nat → string → string → gmap string string → transfer.
Variable file : string.
Hypothesis file_plain : plain_word file = true.

(** The loop returns in the pass that follows its last sleep. *)
Lemma download_loop_accounts fuel hash urls sh sh' :
  download_loop sha256 run fuel file hash urls sh = Some sh' →
  ∃ k m : nat,
    (k < fuel)%nat ∧ (0 < m ≤ 4 * length urls)%nat ∧
    slept sh' = slept sh + 60 * Z.of_nat k ∧
    length (attempts sh')
    = (length (attempts sh) + 4 * length urls * k + m)%nat.
Proof.
  revert sh. induction fuel as [|fuel IH]; intros sh; [done|].
  cbn [download_loop].
  destruct (try_urls sha256 run file hash urls sh)
    as [[returned sh1]|] eqn:Hpass; [|done].
  destruct (try_urls_record _ _ _ file_plain _ _ _ _ _ Hpass) as [Hslept Hat].
  destruct returned.
  - intros [= <-]. destruct Hat as (m & Hm & Hlen).
    exists 0%nat, m. split_and!; lia.
  - intros (k & m & Hk & Hm & Hslept' & Hlen)%IH.
    cbn [slept attempts sleep echo] in Hslept', Hlen.
    destruct Hat as (cmds & _ & Hcmds & Hat).
    exists (Datatypes.S k), m. split_and!; [lia..|].
    rewrite Hlen, Hat, length_app.
    assert (length (urls ≫= λ url, (λ cmd, (cmd, url)) <$> cmds)
            = (4 * length urls)%nat) as ->.
    { clear -Hcmds. induction urls as [|url urls IH]; [done|].
      rewrite bind_cons, length_app, IH, length_fmap, Hcmds.
      cbn [length]. lia. }
    lia.
Qed.

End FetchSleeps.

(** X13: [download-or-bust] sleeps between full passes only. When it
    returns (the destination being named by a plain word) it has slept 60
    seconds for each pass that failed, each such pass accounting for four
    commands per url, and it has run at most one more pass. With status 0
    it has run a command in that last pass; with status 1 it has run no
    command and has not slept, the state is as it was, and the file was
    already there. The number of failed passes is below the bound on the
    passes. *)
Theorem X13_sleeps_count_failed_passes
    (sha256 : string → string)
    (run : nat → string → string → gmap string string → Bootstrap.transfer)
    (fuel : nat) (file hash : string) (urls : list string)
    (sh sh' : Bootstrap.shell) (status : Z) :
  Bootstrap.plain_word file = true →
  Bootstrap.download_or_bust sha256 run fuel file hash urls sh
  = Some (status, sh') →
  ∃ k m : nat,
    Bootstrap.slept sh' = Bootstrap.slept sh + 60 * Z.of_nat k ∧
    length (Bootstrap.attempts sh')
    = (length (Bootstrap.attempts sh) + 4 * length urls * k + m)%nat ∧
    (m ≤ 4 * length urls)%nat ∧
    (k ≤ fuel)%nat ∧
    ((status = 0 ∧ (0 < m)%nat) ∨
     (status = 1 ∧ m = 0%nat ∧ k = 0%nat ∧ sh' = sh ∧
      is_Some (Bootstrap.fs sh !! file))).
Proof.
  intros Hplain Hret.
  destruct (BootstrapFacts.download_or_bust_cases _ _ _ Hplain
              _ _ _ _ _ _ Hret)
    as [(-> & -> & Hfile & _)|(-> & _ & sh0 & Hloop & Hat0 & Hslept0 & _)].
  - exists 0%nat, 0%nat. split_and!; [lia..|]. right. by split_and!.
  - apply (download_loop_accounts _ _ _ Hplain) in Hloop
      as (k & m & Hk & Hm & Hslept & Hlen).
    rewrite Hat0 in Hlen. rewrite Hslept0 in Hslept.
    exists k, m. split_and!; [done|done|lia..|]. left. split; [done|lia].
Qed.

Lemma X13_sleeps_count_failed_passes_witness :
  let sh' :=
    default Bootstrap.demo_shell
      (snd <$>
       Bootstrap.download_or_bust Bootstrap.demo_sha256 Bootstrap.demo_run 1
         "nodeup" "[nodeup-binary]" [Bootstrap.demo_u1; Bootstrap.demo_u2]
         Bootstrap.demo_shell) in
  ∃ k m : nat,
    Bootstrap.slept sh' = 0 + 60 * Z.of_nat k ∧
    length (Bootstrap.attempts sh') = (0 + 4 * 2 * k + m)%nat ∧
    (m ≤ 4 * 2)%nat.
Proof.
  intros sh'.
  destruct (X13_sleeps_count_failed_passes Bootstrap.demo_sha256
              Bootstrap.demo_run 1 "nodeup" "[nodeup-binary]"
              [Bootstrap.demo_u1; Bootstrap.demo_u2] Bootstrap.demo_shell sh'
              0)
    as (k & m & Hslept & Hlen & Hm & _); [reflexivity|by vm_compute|].
  exists k, m. split_and!; [exact Hslept|exact Hlen|exact Hm].
Defined.


(** ** [split-commas] and the array of urls *)

Module BootstrapArgsFacts.
Import BootstrapArgs.

Lemma append_assoc (s t u : string) : (s +:+ t) +:+ u = s +:+ (t +:+ u).
Proof.
  induction s as [|c s IH]; [done|].
  change (String c s +:+ t) with (String c (s +:+ t)).
  change (String c ?x +:+ ?y) with (String c (x +:+ y)). by rewrite IH.
Qed.

Lemma any_char_app p s t :
  any_char p (s +:+ t) = any_char p s || any_char p t.
Proof.
  induction s as [|c s IH]; [done|].
  change (String c s +:+ t) with (String c (s +:+ t)).
  cbn. by rewrite IH, orb_assoc.
Qed.

Lemma any_char_weaken (p q : ascii → bool) s :
  (∀ c, p c = true → q c = true) →
  any_char q s = false → any_char p s = false.
Proof.
  intros Hpq. induction s as [|c s IH]; [done|]. cbn.
  intros [Hq Hrest]%orb_false_elim. rewrite (IH Hrest), orb_false_r.
  destruct (p c) eqn:Hp; [|done]. by rewrite (Hpq c Hp) in Hq.
Qed.

(** The words of a split are not empty and hold no [IFS] character. *)
Lemma word_split_words s :
  Forall (λ w, w ≠ "" ∧ any_char is_ifs w = false) (word_split s).
Proof.
  induction s as [|c s IH]; [constructor|]. cbn [word_split].
  destruct (is_ifs c) eqn:Hc; [done|].
  destruct s as [|d s']; [by repeat constructor; cbn; rewrite ?Hc|].
  destruct (is_ifs d) eqn:Hd.
  - constructor; [|done]. split; [done|]. cbn. by rewrite Hc.
  - destruct (word_split (String d s')) as [|w ws].
    + repeat constructor; [done|]. cbn. by rewrite Hc.
    + inversion IH as [|?? [_ Hw] Hws]; subst. constructor; [|done].
      split; [done|]. cbn. by rewrite Hc.
Qed.

(** The words hold only characters of the string that was split. *)
Lemma word_split_chars p s :
  any_char p s = false →
  Forall (λ w, any_char p w = false) (word_split s).
Proof.
  induction s as [|c s IH]; [constructor|]. cbn [any_char word_split].
  intros [Hc Hs]%orb_false_elim. specialize (IH Hs).
  destruct (is_ifs c); [done|].
  destruct s as [|d s']; [by repeat constructor; cbn; rewrite Hc|].
  destruct (is_ifs d).
  - constructor; [|done]. cbn. by rewrite Hc.
  - destruct (word_split (String d s')) as [|w ws].
    + repeat constructor. cbn. by rewrite Hc.
    + inversion IH; subst. constructor; [|done]. cbn. by rewrite Hc.
Qed.

Lemma unwords_chars p words :
  p " "%char = false →
  Forall (λ w, any_char p w = false) words →
  any_char p (unwords words) = false.
Proof.
  intros Hspace. induction 1 as [|w ws Hw Hws IH]; [done|].
  destruct ws as [|w' ws']; [done|].
  change (unwords (w :: w' :: ws'))
    with (w +:+ String " " (unwords (w' :: ws'))).
  rewrite any_char_app. cbn [any_char]. by rewrite Hw, Hspace, IH.
Qed.

(** After [tr] no comma is left, and no pattern character has appeared. *)
Lemma tr_commas_no_comma s :
  any_char (λ c, Ascii.eqb c ",") (tr_commas s) = false.
Proof.
  induction s as [|c s IH]; [done|]. cbn. rewrite IH, orb_false_r.
  destruct (Ascii.eqb c ",") eqn:Hc; [done|]. exact Hc.
Qed.

Lemma tr_commas_glob s :
  any_char is_glob s = false → any_char is_glob (tr_commas s) = false.
Proof.
  induction s as [|c s IH]; [done|]. cbn.
  intros [Hc Hs]%orb_false_elim. rewrite (IH Hs), orb_false_r.
  by destruct (Ascii.eqb c ",").
Qed.

Lemma tr_commas_app s t : tr_commas (s +:+ t) = tr_commas s +:+ tr_commas t.
Proof.
  induction s as [|c s IH]; [done|].
  change (String c s +:+ t) with (String c (s +:+ t)).
  cbn. by rewrite IH.
Qed.

Lemma tr_commas_id s :
  any_char (λ c, Ascii.eqb c ",") s = false → tr_commas s = s.
Proof.
  induction s as [|c s IH]; [done|]. cbn.
  intros [-> Hs]%orb_false_elim. by rewrite (IH Hs).
Qed.

(** What makes a plain url. *)
Lemma plain_url_spec url :
  plain_url url = true ↔
  url ≠ "" ∧
  any_char (λ c, Ascii.eqb c ",") url = false ∧
  any_char is_ifs url = false ∧
  any_char is_glob url = false.
Proof.
  unfold plain_url. rewrite andb_true_iff, !negb_true_iff.
  rewrite String.eqb_neq. split.
  - intros [Hne Hnone]. split; [done|].
    split_and!; (eapply any_char_weaken; [|exact Hnone]);
      intros c Hc; cbv beta in Hc |- *; rewrite Hc; by rewrite ?orb_true_r.
  - intros (Hne & Hcomma & Hifs & Hglob). split; [done|].
    induction url as [|c url IH]; [done|]. cbn in *.
    apply orb_false_elim in Hcomma as [-> Hcomma].
    apply orb_false_elim in Hifs as [-> Hifs].
    apply orb_false_elim in Hglob as [-> Hglob]. cbn.
    destruct url as [|d url']; [done|]. by apply IH.
Qed.

(** A run of characters outside [IFS] is one word, up to the next [IFS]
    character. *)
Lemma word_split_word u c rest :
  u ≠ "" → any_char is_ifs u = false → is_ifs c = true →
  word_split (u +:+ String c rest) = u :: word_split rest.
Proof.
  induction u as [|a u IH]; [done|]. intros _ Hu Hc.
  cbn in Hu. apply orb_false_elim in Hu as [Ha Hu].
  change (String a u +:+ ?x) with (String a (u +:+ x)).
  cbn [word_split]. rewrite Ha.
  destruct u as [|b u'].
  - change ("" +:+ String c rest) with (String c rest).
    cbv iota. rewrite Hc. cbn [word_split]. by rewrite Hc.
  - change (String b u' +:+ ?x) with (String b (u' +:+ x)) in *.
    cbn in Hu. apply orb_false_elim in Hu as [Hb Hu]. cbv iota. rewrite Hb.
    rewrite IH; [done|done| |done]. cbn. by rewrite Hb, Hu.
Qed.

Lemma word_split_single u :
  u ≠ "" → any_char is_ifs u = false → word_split u = [u].
Proof.
  induction u as [|a u IH]; [done|]. intros _ Hu.
  cbn in Hu. apply orb_false_elim in Hu as [Ha Hu].
  cbn [word_split]. rewrite Ha. destruct u as [|b u']; [done|].
  cbn in Hu. apply orb_false_elim in Hu as [Hb Hu]. rewrite Hb.
  rewrite IH; [done|done|]. cbn. by rewrite Hb, Hu.
Qed.

(** The comma-joined list of plain urls, as [tr] and the second word
    splitting see it. *)
Lemma word_split_joined urls :
  Forall (λ url, plain_url url = true) urls →
  word_split (tr_commas (GoStrings.Join urls ",") +:+ String "010" "") = urls.
Proof.
  induction 1 as [|u us Hu Hus IH]; [done|].
  apply plain_url_spec in Hu as (Hne & Hcomma & Hifs & _).
  destruct us as [|u' us'].
  - cbn [GoStrings.Join]. rewrite tr_commas_id by done.
    by rewrite word_split_word.
  - change (GoStrings.Join (u :: u' :: us') ",")
      with (u +:+ String "," (GoStrings.Join (u' :: us') ",")).
    rewrite tr_commas_app, tr_commas_id by done.
    change (tr_commas (String "," ?x)) with (String "010" (tr_commas x)).
    rewrite append_assoc.
    change (String "010" ?x +:+ ?y) with (String "010" (x +:+ y)).
    rewrite word_split_word by done. by rewrite IH.
Qed.

Lemma joined_chars p urls :
  p ","%char = false →
  Forall (λ url, any_char p url = false) urls →
  any_char p (GoStrings.Join urls ",") = false.
Proof.
  intros Hcomma. induction 1 as [|u us Hu Hus IH]; [done|].
  destruct us as [|u' us']; [done|].
  change (GoStrings.Join (u :: u' :: us') ",")
    with (u +:+ String "," (GoStrings.Join (u' :: us') ",")).
  rewrite any_char_app. cbn [any_char]. by rewrite Hu, Hcomma, IH.
Qed.

End BootstrapArgsFacts.

(** X14: the array of urls that [download-or-bust] builds from a
    comma-separated list of plain urls (not empty, without comma, blank or
    pattern character; the list not being a single word that [echo] takes as
    an option) is that list of urls, in the same order. *)
Theorem X14_urls_array_of_joined_urls (urls : list string) :
  Forall (λ url, BootstrapArgs.plain_url url = true) urls →
  BootstrapArgs.is_echo_option (GoStrings.Join urls ",") = false →
  BootstrapArgs.urls_array (GoStrings.Join urls ",") = Some urls.
Proof.
  intros Hplain Hoption.
  assert (Forall (λ url, BootstrapArgs.any_char BootstrapArgs.is_ifs url = false)
            urls ∧
          Forall (λ url, BootstrapArgs.any_char BootstrapArgs.is_glob url = false)
            urls) as [Hifs Hglob].
  { split; eapply Forall_impl; try exact Hplain;
      by intros url (_ & _ & ? & ?)%BootstrapArgsFacts.plain_url_spec. }
  unfold BootstrapArgs.urls_array, BootstrapArgs.split_commas.
  rewrite (BootstrapArgsFacts.joined_chars _ urls) by done.
  destruct urls as [|u us]; [done|].
  rewrite BootstrapArgsFacts.word_split_single.
  - cbn [head from_option BootstrapArgs.unwords]. rewrite Hoption.
    cbn [fmap option_fmap option_map].
    rewrite BootstrapArgsFacts.tr_commas_app.
    change (BootstrapArgs.tr_commas (String "010" ""))
      with (String "010" "").
    by rewrite BootstrapArgsFacts.word_split_joined.
  - inversion Hplain as [|?? Hu _]; subst.
    apply BootstrapArgsFacts.plain_url_spec in Hu as (Hne & _).
    destruct u; [done|]. by destruct us.
  - by apply BootstrapArgsFacts.joined_chars.
Qed.

Lemma X14_urls_array_of_joined_urls_witness :
  BootstrapArgs.urls_array
    "https://artifacts.k8s.io/binaries/kops/1.21.0-alpha.1/linux/amd64/nodeup,https://github.com/kubernetes/kops/releases/download/v1.21.0-alpha.1/nodeup-linux-amd64"
  = Some
      ["https://artifacts.k8s.io/binaries/kops/1.21.0-alpha.1/linux/amd64/nodeup";
       "https://github.com/kubernetes/kops/releases/download/v1.21.0-alpha.1/nodeup-linux-amd64"].
Proof.
  apply (X14_urls_array_of_joined_urls
           ["https://artifacts.k8s.io/binaries/kops/1.21.0-alpha.1/linux/amd64/nodeup";
            "https://github.com/kubernetes/kops/releases/download/v1.21.0-alpha.1/nodeup-linux-amd64"]).
  - repeat constructor.
  - reflexivity.
Defined.

(** X15: whatever the argument, the urls of the array are plain: none is
    empty and none holds a comma, a blank or a pattern character. Commas
    and blanks only separate urls; two commas in a row or a trailing comma
    give no empty url. *)
Theorem X15_urls_array_gives_plain_urls (arg : string) (urls : list string) :
  BootstrapArgs.urls_array arg = Some urls →
  Forall (λ url, BootstrapArgs.plain_url url = true) urls.
Proof.
  unfold BootstrapArgs.urls_array, BootstrapArgs.split_commas.
  destruct (BootstrapArgs.any_char BootstrapArgs.is_glob arg) eqn:Hglob;
    [done|].
  destruct (from_option _ _ _); [done|].
  cbn [fmap option_fmap option_map]. intros [= <-].
  set (text := BootstrapArgs.tr_commas _).
  assert (BootstrapArgs.any_char (λ c, Ascii.eqb c ",") text = false)
    as Hcomma by apply BootstrapArgsFacts.tr_commas_no_comma.
  assert (BootstrapArgs.any_char BootstrapArgs.is_glob text = false) as Hglob'.
  { apply BootstrapArgsFacts.tr_commas_glob.
    rewrite BootstrapArgsFacts.any_char_app. cbn.
    rewrite orb_false_r. apply BootstrapArgsFacts.unwords_chars; [done|].
    by apply BootstrapArgsFacts.word_split_chars. }
  pose proof (BootstrapArgsFacts.word_split_words text) as Hwords.
  pose proof (BootstrapArgsFacts.word_split_chars _ _ Hcomma) as Hcommas.
  pose proof (BootstrapArgsFacts.word_split_chars _ _ Hglob') as Hglobs.
  rewrite Forall_forall in Hwords, Hcommas, Hglobs. apply Forall_forall.
  intros url Hin. apply BootstrapArgsFacts.plain_url_spec.
  destruct (Hwords url Hin). split_and!; auto.
Qed.

Lemma X15_urls_array_gives_plain_urls_witness :
  Forall (λ url, BootstrapArgs.plain_url url = true) ["a"; "b"; "c"].
Proof.
  apply (X15_urls_array_gives_plain_urls "a,,b , c,"). reflexivity.
Defined.

(** ** [New] *)

(** X16: [New] fails with the session error when no session can be started
    and with the region error when the metadata service gives no region.
    Otherwise the identifier talks to the EC2 client of the session and
    region found, caches if and only if asked to, and starts with an empty
    cache: its first call for any node whose provider id parses goes to EC2,
    and with caching on whatever that call returns is served from the cache
    for the 60 minutes that follow. *)
Theorem X16_New_starts_with_empty_60_minute_cache {Session}
    (env : awsEnv Session) (now : Z) (caching : bool) :
  (∀ cause, NewSession env = inr cause →
            New env now caching = inr (ErrNewSession cause)) ∧
  (∀ s cause, NewSession env = inl s → Region env s = inr cause →
              New env now caching = inr (ErrMetadataRegion cause)) ∧
  (∀ i store,
     New env now caching = inl (i, store) →
     cacheEnabled i = caching ∧
     (∃ s region, NewSession env = inl s ∧ Region env s = inl region ∧
                  ec2Client i = ec2New env s region) ∧
     (∀ node id,
        parseProviderID node = Ok id →
        cloudCalls (trace (IdentifyNode i node (World store [])).2) = 1%nat) ∧
     (∀ node id obj w1 d,
        caching = true →
        parseProviderID node = Ok id →
        IdentifyNode i node (World store []) = (Ok obj, w1) →
        0 ≤ d ≤ 60 * time.Minute →
        IdentifyNode i node (elapse d w1)
        = (Ok obj, World (cache (elapse d w1)) (trace w1 ++ [EvGetByKey id])))).
Proof.
  unfold New. split_and!.
  - by intros cause ->.
  - by intros s cause -> ->.
  - intros i store.
    destruct (NewSession env) as [s|?] eqn:Hs; [|done].
    destruct (Region env s) as [region|?] eqn:Hregion; [|done].
    intros [= <- <-]. cbn [cacheEnabled ec2Client].
    split_and!; [done|by exists s, region| |].
    + intros node id Hparse. destruct caching.
      * rewrite (IdentifyNode_ttl_miss _ _ _ _ Hparse); [|done|done].
        destruct (identifyFromEC2 _ _ _) as [r w1] eqn:Hrun.
        by apply identifyFromEC2_cloudCalls in Hrun.
      * rewrite (IdentifyNode_parse_Ok _ _ _ _ Hparse).
        rewrite cacheLookup_disabled by done.
        destruct (identifyFromEC2 _ _ _) as [r w1] eqn:Hrun.
        by apply identifyFromEC2_cloudCalls in Hrun.
    + intros node id obj w1 d -> Hparse Hrun Hd.
      destruct (IdentifyNode_ttl_first
                  {| ec2Client := ec2New env s region; cacheEnabled := true |}
                  node id (World (NewTTLStore stringKeyFunc cacheTTL now) [])
                  obj w1 eq_refl Hparse eq_refl eq_refl Hrun)
        as (_ & _ & Httl & Hclock & Hentry).
      apply (IdentifyNode_ttl_hit _ node id (elapse d w1)
               {| info := obj; insertedAt := now |}); [done..| |].
      * exact Hentry.
      * cbn in *. rewrite Hclock, Httl. unfold cacheTTL. lia.
Qed.

Lemma X16_New_starts_with_empty_60_minute_cache_witness :
  let i := {| ec2Client := ec2New demo_env tt "us-test-1";
              cacheEnabled := true |} in
  let store := NewTTLStore stringKeyFunc cacheTTL 0 in
  let first := IdentifyNode i demo_node (World store []) in
  New demo_env 0 true = inl (i, store) ∧
  cloudCalls (trace first.2) = 1%nat ∧
  IdentifyNode i demo_node (elapse (59 * time.Minute) first.2)
  = (Ok {| InstanceID := "i-0abc"; Labels := deriveLabels demo_running |},
     World (cache (elapse (59 * time.Minute) first.2))
       (trace first.2 ++ [EvGetByKey "i-0abc"])).
Proof.
  intros i store first.
  destruct (X16_New_starts_with_empty_60_minute_cache demo_env 0 true)
    as (_ & _ & Hok).
  destruct (Hok i store eq_refl) as (_ & _ & Hfirst & Hnext).
  split_and!; [reflexivity|exact (Hfirst demo_node "i-0abc" eq_refl)|].
  apply (Hnext demo_node "i-0abc"); [reflexivity..|by vm_compute].
Defined.

(** ** [download-release] *)



(** ** [RunCreate] *)

Module createFacts.
Import create.

Lemma append_empty_r (s : string) : s +:+ "" = s.
Proof.
  induction s as [|c s IH]; [done|].
  change (String c s +:+ "") with (String c (s +:+ "")). by rewrite IH.
Qed.

Lemma report_app cs1 cs2 : report (cs1 ++ cs2) = report cs1 +:+ report cs2.
Proof.
  induction cs1 as [|c cs1 IH]; [done|]. cbn [app report].
  by rewrite IH, BootstrapArgsFacts.append_assoc.
Qed.

Lemma lastQueried_app name cs1 cs2 :
  lastQueried name (cs1 ++ cs2) = lastQueried (lastQueried name cs1) cs2.
Proof.
  revert name. induction cs1 as [|c cs1 IH]; intros name; [done|].
  destruct c; cbn [app lastQueried]; apply IH.
Qed.

Section Accounting.
Context (K : api) {W : Type} `{!Outside K W}.
Implicit Types (r : run W) (sb clusterName : string).

(** Two parts in a row. *)
Lemma accounted_bind {A B} (m : R K A) (f : A → R K B)
    clusterName sb r res r' (cn : A → string) (b : A → string)
    (cn' : B → string) (b' : B → string) :
  (∀ res1 r1, m r = (res1, r1) → accounted clusterName sb r res1 r1 cn b) →
  (∀ a r1 res2 r2, f a r1 = (res2, r2) →
                   accounted (cn a) (b a) r1 res2 r2 cn' b') →
  bind K m f r = (res, r') →
  accounted clusterName sb r res r' cn' b'.
Proof.
  intros Hm Hf. unfold bind.
  destruct (m r) as [[a|e] r1] eqn:Hrun.
  - destruct (Hm _ _ eq_refl) as (cs1 & Hcalls1 & Hw1 & Hsb & Hcn).
    intros (cs2 & Hcalls2 & Hw2 & Hres)%Hf.
    exists (cs1 ++ cs2). split_and!.
    + by rewrite Hcalls2, Hcalls1, <- (assoc_L (++)).
    + by rewrite filter_app, Hw1, Hw2.
    + destruct res as [b0|e]; [|done]. destruct Hres as [-> ->].
      by rewrite Hsb, Hcn, report_app, lastQueried_app,
        BootstrapArgsFacts.append_assoc.
  - intros [= <- <-]. destruct (Hm _ _ eq_refl) as (cs1 & ? & ? & ?).
    by exists cs1.
Qed.

(** A call that is not a write and reports nothing. *)
Lemma accounted_invoke {A} (c : call) (op : W → A * W)
    clusterName clusterName' sb r res r' :
  isWrite c = false → reported c = "" →
  lastQueried clusterName [c] = clusterName' →
  invoke K c op r = (res, r') →
  accounted clusterName sb r res r' (λ _, clusterName') (λ _, sb).
Proof.
  intros Hw Hrep Hlast. unfold invoke.
  destruct (op (outside r)) as [a w]. intros [= <- <-].
  exists [c]. cbn [calls]. split; [done|]. split.
  - by rewrite filter_cons_False by (rewrite Hw; intros []).
  - cbn [report]. by rewrite Hrep, Hlast, append_empty_r.
Qed.

(** A call that creates something, followed by the line for it. *)
Lemma accounted_create (c : call) (op : W → option (E K) * W)
    (k : option (E K) → R K string) clusterName sb r res r' :
  isWrite c = false →
  (∀ name, lastQueried name [c] = name) →
  (∀ r1, k None r1 = (inl (sb +:+ reported c), r1)) →
  (∀ err r1, ∃ e, k (Some err) r1 = (inr e, r1) ∧ ∀ err', e ≠ ErrWriting err') →
  bind K (invoke K c op) k r = (res, r') →
  accounted clusterName sb r res r' (λ _, clusterName) (λ sb', sb').
Proof.
  intros Hw Hlast Hok Hfail. unfold bind, invoke.
  destruct (op (outside r)) as [[err|] w].
  - destruct (Hfail err (Run w (calls r ++ [c]))) as (e & -> & He).
    intros [= <- <-]. exists [c]. split; [done|]. split; [|done].
    by rewrite filter_cons_False by (rewrite Hw; intros []).
  - rewrite Hok. intros [= <- <-]. exists [c]. split; [done|]. split.
    + by rewrite filter_cons_False by (rewrite Hw; intros []).
    + cbn [report]. by rewrite Hlast, append_empty_r.
Qed.

Lemma accounted_throw {A} (e : createError (E K)) clusterName sb r res r'
    (cn b : A → string) :
  (∀ err, e ≠ ErrWriting err) →
  throw K e r = (res, r') → accounted clusterName sb r res r' cn b.
Proof.
  intros He [= <- <-]. exists []. by rewrite app_nil_r.
Qed.

Lemma accounted_ret {A} (a : A) clusterName sb r res r' (cn b : A → string) :
  cn a = clusterName → b a = sb →
  ret K a r = (res, r') → accounted clusterName sb r res r' cn b.
Proof.
  intros Hcn Hb [= <- <-]. exists []. rewrite app_nil_r.
  split; [done|]. split; [done|]. cbn. by rewrite append_empty_r.
Qed.

(** The three kinds of object. *)
Lemma createCluster_accounted v clusterName sb r res r' :
  createCluster K v sb r = (res, r') →
  accounted clusterName sb r res r' (λ _, clusterName) (λ sb', sb').
Proof.
  unfold createCluster.
  apply accounted_bind with (cn := λ _, clusterName) (b := λ _, sb).
  { intros res1 r1. by apply accounted_invoke. }
  intros [cloud|err] r1 res2 r2; [|by apply accounted_throw].
  apply accounted_bind with (cn := λ _, clusterName) (b := λ _, sb).
  { intros res1 r1'. by apply accounted_invoke. }
  intros [v'|err] r1' res2' r2'; [|by apply accounted_throw].
  apply accounted_create; [done|done|done|].
  intros err r0. destruct (IsAlreadyExists K err); eexists; by split.
Qed.

Lemma createInstanceGroup_accounted v clusterName0 clusterName sb r res r' :
  createInstanceGroup K v clusterName sb r = (res, r') →
  accounted clusterName0 sb r res r' (λ _, clusterName) (λ sb', sb').
Proof.
  unfold createInstanceGroup.
  case_bool_decide; [by apply accounted_throw|].
  apply accounted_bind with (cn := λ _, clusterName) (b := λ _, sb).
  { intros res1 r1. by apply accounted_invoke. }
  intros [[cluster|]|err] r1 res2 r2; [|by apply accounted_throw..].
  apply accounted_create; [done|done|done|].
  intros err r0. destruct (IsAlreadyExists K err); eexists; by split.
Qed.

Lemma createSSHCredential_accounted v clusterName0 clusterName sb r res r' :
  createSSHCredential K v clusterName sb r = (res, r') →
  accounted clusterName0 sb r res r' (λ _, clusterName) (λ sb', sb').
Proof.
  unfold createSSHCredential.
  case_bool_decide; [by apply accounted_throw|].
  case_bool_decide; [by apply accounted_throw|].
  apply accounted_bind with (cn := λ _, clusterName) (b := λ _, sb).
  { intros res1 r1. by apply accounted_invoke. }
  intros [cluster|err] r1 res2 r2; [|by apply accounted_throw].
  apply accounted_bind with (cn := λ _, clusterName) (b := λ _, sb).
  { intros res1 r1'. by apply accounted_invoke. }
  intros [store|err] r1' res2' r2'; [|by apply accounted_throw].
  apply accounted_create; [done|done|done|].
  intros err r0. eexists. by split.
Qed.

(** The loops. *)
Lemma createSection_accounted f section st r res r' :
  createSection K f section st r = (res, r') →
  accounted st.1 st.2 r res r' fst snd.
Proof.
  destruct st as [clusterName sb]. unfold createSection.
  destruct (Decode K section) as [[o gvk]|err]; [|by apply accounted_throw].
  destruct o as [v|v|v|]; [| | |by apply accounted_throw].
  - apply accounted_bind with (cn := λ _, clusterName) (b := λ sb', sb').
    { intros res1 r1. apply createCluster_accounted. }
    intros sb' r1 res2 r2. by apply accounted_ret.
  - apply accounted_bind
      with (cn := λ _, label (Labels (InstanceGroupMeta K v))
                         (LabelClusterName K))
           (b := λ sb', sb').
    { intros res1 r1. apply createInstanceGroup_accounted. }
    intros sb' r1 res2 r2. by apply accounted_ret.
  - apply accounted_bind
      with (cn := λ _, label (Labels (SSHCredentialMeta K v))
                         (LabelClusterName K))
           (b := λ sb', sb').
    { intros res1 r1. apply createSSHCredential_accounted. }
    intros sb' r1 res2 r2. by apply accounted_ret.
Qed.

Lemma createSections_accounted f sections st r res r' :
  createSections K f sections st r = (res, r') →
  accounted st.1 st.2 r res r' fst snd.
Proof.
  revert st r res r'.
  induction sections as [|section sections IH]; intros st r res r'.
  - by apply accounted_ret.
  - cbn [createSections]. apply accounted_bind with (cn := fst) (b := snd).
    + intros res1 r1. apply createSection_accounted.
    + intros st1 r1 res2 r2. apply IH.
Qed.

Lemma createFile_accounted f st r res r' :
  createFile K f st r = (res, r') →
  accounted st.1 st.2 r res r' fst snd.
Proof.
  unfold createFile.
  apply accounted_bind with (cn := λ _, st.1) (b := λ _, st.2).
  - intros res1 r1. case_bool_decide.
    + apply accounted_bind with (cn := λ _, st.1) (b := λ _, st.2).
      { intros res0 r0. by apply accounted_invoke. }
      intros [contents|err] r0 res2 r2;
        [by apply accounted_ret|by apply accounted_throw].
    + apply accounted_bind with (cn := λ _, st.1) (b := λ _, st.2).
      { intros res0 r0. by apply accounted_invoke. }
      intros [contents|err] r0 res2 r2;
        [by apply accounted_ret|by apply accounted_throw].
  - intros contents r1 res2 r2 Hrun.
    by apply createSections_accounted in Hrun.
Qed.

Lemma createFiles_accounted Filenames st r res r' :
  createFiles K Filenames st r = (res, r') →
  accounted st.1 st.2 r res r' fst snd.
Proof.
  revert st r res r'.
  induction Filenames as [|f Filenames IH]; intros st r res r'.
  - by apply accounted_ret.
  - cbn [createFiles]. apply accounted_bind with (cn := fst) (b := snd).
    + intros res1 r1. apply createFile_accounted.
    + intros st1 r1 res2 r2. apply IH.
Qed.

(** [RunCreate] as a whole: the clientset, the objects, and one write at
    the end of a run in which nothing failed. *)
Lemma RunCreate_run Filenames r res r' :
  RunCreate K Filenames r = (res, r') →
  (∃ cs e, calls r' = calls r ++ CallClientset :: cs ∧
           filter isWrite cs = [] ∧ res = inr e ∧
           ∀ err, e ≠ ErrWriting err) ∨
  (∃ cs, calls r' =
           calls r ++ CallClientset :: cs
           ++ [CallWrite (nl +:+ report cs +:+ advice (lastQueried "" cs))] ∧
         filter isWrite cs = [] ∧
         (res = inl tt ∨ ∃ err, res = inr (ErrWriting err))).
Proof.
  unfold RunCreate, bind at 1, invoke at 1.
  destruct (Clientset (outside r)) as [[err|] w].
  { intros [= <- <-]. left. exists [], (Passed err). by split_and!. }
  unfold bind at 1.
  destruct (createFiles K Filenames _ _) as [[[clusterName sb]|e] r1] eqn:Hfiles.
  - apply createFiles_accounted in Hfiles
      as (cs & Hcalls & Hw & Hsb & Hcn). cbn in Hcalls, Hsb, Hcn.
    change ("" +:+ nl) with nl in Hsb.
    rewrite bool_decide_eq_true_2 by (by rewrite Hsb).
    unfold bind, invoke.
    destruct (Write _ (outside r1)) as [[err|] w1]; intros [= <- <-];
      right; exists cs; cbn [calls];
      (split_and!;
       [by rewrite Hcalls, Hsb, Hcn, <- !(assoc_L (++)),
              BootstrapArgsFacts.append_assoc|done|eauto]).
  - apply createFiles_accounted in Hfiles as (cs & Hcalls & Hw & He).
    intros [= <- <-]. left. exists cs, e. cbn in Hcalls.
    split_and!; [by rewrite Hcalls, <- (assoc_L (++))|done..].
Qed.

End Accounting.

End createFacts.

(** X18: [RunCreate] writes to its output once, as its last step, and only
    when nothing has failed: a run that returns any error other than that
    of the write itself has written nothing, whatever it has created before
    the failure. *)
Theorem X18_RunCreate_writes_only_after_success
    (K : create.api) {W : Type} `{!create.Outside K W}
    (Filenames : list string) (r r' : create.run W)
    (e : create.createError (create.E K)) :
  create.RunCreate K Filenames r = (inr e, r') →
  (∀ err, e ≠ create.ErrWriting err) →
  ∃ cs, create.calls r' = create.calls r ++ cs ∧
        filter create.isWrite cs = [].
Proof.
  intros [(cs & e' & Hcalls & Hw & _)|(cs & _ & _ & [?|[err Herr]])]
    %createFacts.RunCreate_run He; [|done|].
  - exists (create.CallClientset :: cs). split; [done|].
    by rewrite filter_cons_False by (intros []).
  - injection Herr as ->. by destruct (He err).
Qed.

Lemma X18_RunCreate_writes_only_after_success_witness :
  let run := create.RunCreate create.demo_api (Outside0 := create.demo_outside) ["cluster.yaml"; "orphan.yaml"]
               create.demo_start in
  run.1 = inr create.ErrInstanceGroupWithoutCluster ∧
  create.demo_clusters (create.outside run.2) = {[ "demo.example.com" ]} ∧
  ∃ cs, create.calls run.2 = [] ++ cs ∧ filter create.isWrite cs = [].
Proof.
  intros run. split_and!; [by vm_compute..|].
  apply (X18_RunCreate_writes_only_after_success create.demo_api
           (H := create.demo_outside)
           ["cluster.yaml"; "orphan.yaml"] create.demo_start run.2
           create.ErrInstanceGroupWithoutCluster); [by vm_compute|done].
Defined.

(** X19: when [RunCreate] gets to its write, what it writes is a newline,
    one line for each cluster created, instance group created and SSH key
    added, in the order in which they were made, and then, in every case,
    the advice to run kops update cluster, with the cluster name of the
    last instance group or SSH credential handled. The advice is there even
    when nothing was created, and it names no cluster when only clusters
    were. *)
Theorem X19_RunCreate_report
    (K : create.api) {W : Type} `{!create.Outside K W}
    (Filenames : list string) (r r' : create.run W)
    (res : unit + create.createError (create.E K)) :
  create.RunCreate K Filenames r = (res, r') →
  (res = inl tt ∨ ∃ err, res = inr (create.ErrWriting err)) →
  ∃ cs,
    create.calls r' =
      create.calls r ++ create.CallClientset :: cs
      ++ [create.CallWrite
            (create.nl +:+ create.report cs
             +:+ create.advice (create.lastQueried "" cs))] ∧
    filter create.isWrite cs = [] ∧
    (Filenames = [] → cs = []) ∧
    ((∀ clusterName, create.CallGetCluster clusterName ∉ cs) →
     create.lastQueried "" cs = "").
Proof.
  intros Hrun Hres.
  assert (∀ cs name, (∀ clusterName, create.CallGetCluster clusterName ∉ cs) →
                     create.lastQueried name cs = name) as Hnone.
  { induction cs as [|c cs IH]; intros name Hcs; [done|].
    destruct c; cbn [create.lastQueried];
      try (apply IH; intros n Hn; apply (Hcs n); by right).
    destruct (Hcs clusterName). by left. }
  destruct (createFacts.RunCreate_run _ _ _ _ _ Hrun)
    as [(cs & e & _ & _ & -> & He)|(cs & Hcalls & Hw & _)].
  { destruct Hres as [?|[err [= ->]]]; [done|]. by destruct (He err). }
  exists cs. split_and!; [done|done| |by apply Hnone].
  intros ->. revert Hrun Hcalls.
  unfold create.RunCreate, create.bind, create.invoke. cbn [create.createFiles].
  destruct (create.Clientset _) as [[err|] w]; [by intros [= <- <-]; destruct Hres as [|[? ?]]|].
  unfold create.ret. cbn beta iota zeta.
  destruct (bool_decide _); destruct (create.Write _ _) as [[err|] w1];
    intros [= <- <-]; cbn [create.calls]; rewrite <- !(assoc_L (++)); cbn;
    intros Heq%(inj (app _)); destruct cs as [|c [|c' cs']]; try done;
    by destruct c.
Qed.

Lemma X19_RunCreate_report_witness :
  (∃ cs,
     create.calls (create.RunCreate create.demo_api (Outside0 := create.demo_outside)
                     ["cluster.yaml"; "nodes.yaml"] create.demo_start).2
     = [] ++ create.CallClientset :: cs
       ++ [create.CallWrite
             (create.nl +:+ create.report cs
              +:+ create.advice (create.lastQueried "" cs))] ∧
     filter create.isWrite cs = []) ∧
  create.demo_out
    (create.outside (create.RunCreate create.demo_api (Outside0 := create.demo_outside) [] create.demo_start).2)
  = [create.nl +:+ create.advice ""].
Proof.
  split.
  - destruct (X19_RunCreate_report create.demo_api
                (H := create.demo_outside)
                ["cluster.yaml"; "nodes.yaml"] create.demo_start
                (create.RunCreate create.demo_api (Outside0 := create.demo_outside)
                   ["cluster.yaml"; "nodes.yaml"] create.demo_start).2
                (inl tt)) as (cs & Hcalls & Hw & _);
      [by vm_compute|by left|].
    exists cs. split; [exact Hcalls|exact Hw].
  - by vm_compute.
Defined.
